(** * rio.debug.layouter: the server-side reference layout computation

    A shallow embedding of [src/rio/debug/layouter.py] and the properties
    of its layout algorithm and of its debugging helpers [print_tree] and
    [debug_draw]. [debug_dump_json] is not part of the embedding: what it
    writes is decided by [uniserde] and [json].

    Conventions of the embedding:
    - Python numbers ([int] and [float] alike) are exact rationals [Q];
      rounding of IEEE doubles is not part of the model.
    - Component ids ([component._id], an [int]) are [Z].
    - The two dictionaries [_layouts_should] and [_layouts_are] are
      [gmap Z LayoutRecord]; a record that Python mutates in place through
      a reference obtained from the dictionary is updated under its key.
    - Raised exceptions are values of [PyError], threaded by the [result]
      monad. *)

From Stdlib Require Import QArith Qround Lqa.
From stdpp Require Import base option list gmap strings.

Local Open Scope string_scope.
Local Open Scope list_scope.

#[local] Set Warnings "-clear-no-such-hyp".

(** ** Exceptions and the [result] monad *)

Inductive PyError : Type :=
  | NotImplementedError (msg : string)
  | KeyError (key : Z)
  | AttributeError (name : string)
  | AssertionError (ids : gset Z).

Inductive result (A : Type) : Type :=
  | Ok (a : A)
  | Raise (e : PyError).
Arguments Ok {A} a.
Arguments Raise {A} e.

#[global] Instance result_ret : MRet result := fun A a => Ok a.
#[global] Instance result_bind : MBind result := fun A B f m =>
  match m with
  | Ok a => f a
  | Raise e => Raise e
  end.

(** A Python [for x in xs: body] whose body mutates one piece of state. *)
Fixpoint for_each {A S : Type} (body : A → S → result S) (xs : list A) (s : S)
  : result S :=
  match xs with
  | [] => Ok s
  | x :: xs' => s' ← body x s; for_each body xs' s'
  end.

(** ** Numbers *)

(** Python's two-argument [max]: the first argument wins ties. *)
Definition py_max (a b : Q) : Q := if Qle_bool b a then a else b.

(** ** Data model *)

(** [UnittestComponentLayout], with the fields its constructor call in
    [_compute_layouts_should] names. *)
Record LayoutRecord : Type := mkLayout {
  natural_width : Q;
  natural_height : Q;
  requested_inner_width : Q;
  requested_inner_height : Q;
  requested_outer_width : Q;
  requested_outer_height : Q;
  allocated_outer_width : Q;
  allocated_outer_height : Q;
  allocated_inner_width : Q;
  allocated_inner_height : Q;
  left_in_viewport_outer : Q;
  top_in_viewport_outer : Q;
  left_in_viewport_inner : Q;
  top_in_viewport_inner : Q;
  aux : list (string * string)
}.

(** The attributes of a layout record that the algorithm assigns. *)
Inductive Field : Type :=
  | NaturalWidth | NaturalHeight
  | RequestedInnerWidth | RequestedInnerHeight
  | RequestedOuterWidth | RequestedOuterHeight
  | AllocatedOuterWidth | AllocatedOuterHeight
  | AllocatedInnerWidth | AllocatedInnerHeight
  | LeftInViewportOuter | TopInViewportOuter
  | LeftInViewportInner | TopInViewportInner.

#[global] Instance Field_eq_dec : EqDecision Field.
Proof. solve_decision. Defined.

Definition getf (f : Field) (r : LayoutRecord) : Q :=
  match f with
  | NaturalWidth => natural_width r
  | NaturalHeight => natural_height r
  | RequestedInnerWidth => requested_inner_width r
  | RequestedInnerHeight => requested_inner_height r
  | RequestedOuterWidth => requested_outer_width r
  | RequestedOuterHeight => requested_outer_height r
  | AllocatedOuterWidth => allocated_outer_width r
  | AllocatedOuterHeight => allocated_outer_height r
  | AllocatedInnerWidth => allocated_inner_width r
  | AllocatedInnerHeight => allocated_inner_height r
  | LeftInViewportOuter => left_in_viewport_outer r
  | TopInViewportOuter => top_in_viewport_outer r
  | LeftInViewportInner => left_in_viewport_inner r
  | TopInViewportInner => top_in_viewport_inner r
  end.

(** Attribute assignment [r.f = v]. *)
Definition setf (f : Field) (v : Q) (r : LayoutRecord) : LayoutRecord :=
  let '(mkLayout nw nh riw rih row roh aow aoh aiw aih lo to li ti ax) := r in
  match f with
  | NaturalWidth => mkLayout v nh riw rih row roh aow aoh aiw aih lo to li ti ax
  | NaturalHeight => mkLayout nw v riw rih row roh aow aoh aiw aih lo to li ti ax
  | RequestedInnerWidth => mkLayout nw nh v rih row roh aow aoh aiw aih lo to li ti ax
  | RequestedInnerHeight => mkLayout nw nh riw v row roh aow aoh aiw aih lo to li ti ax
  | RequestedOuterWidth => mkLayout nw nh riw rih v roh aow aoh aiw aih lo to li ti ax
  | RequestedOuterHeight => mkLayout nw nh riw rih row v aow aoh aiw aih lo to li ti ax
  | AllocatedOuterWidth => mkLayout nw nh riw rih row roh v aoh aiw aih lo to li ti ax
  | AllocatedOuterHeight => mkLayout nw nh riw rih row roh aow v aiw aih lo to li ti ax
  | AllocatedInnerWidth => mkLayout nw nh riw rih row roh aow aoh v aih lo to li ti ax
  | AllocatedInnerHeight => mkLayout nw nh riw rih row roh aow aoh aiw v lo to li ti ax
  | LeftInViewportOuter => mkLayout nw nh riw rih row roh aow aoh aiw aih v to li ti ax
  | TopInViewportOuter => mkLayout nw nh riw rih row roh aow aoh aiw aih lo v li ti ax
  | LeftInViewportInner => mkLayout nw nh riw rih row roh aow aoh aiw aih lo to v ti ax
  | TopInViewportInner => mkLayout nw nh riw rih row roh aow aoh aiw aih lo to li v ax
  end.

(** The record every component starts from: all fields [-1], [aux] empty. *)
Definition sentinel : Q := (-1)%Q.

Definition fresh_layout : LayoutRecord :=
  mkLayout sentinel sentinel sentinel sentinel sentinel sentinel sentinel
           sentinel sentinel sentinel sentinel sentinel sentinel sentinel [].

(** Component classes. The thirteen classes of
    [FULL_SIZE_SINGLE_CONTAINERS], the three classes with layout methods of
    their own, and any other class, known by its [__name__]. *)
Inductive ComponentType : Type :=
  | Button | Card | HighLevelRootComponent | Container | CustomListItem
  | KeyEventListener | Link | MouseEventListener | PageView | Rectangle
  | Slideshow | Stack | Switcher
  | Row | Column | Overlay
  | OtherComponent (name : string).

#[global] Instance ComponentType_eq_dec : EqDecision ComponentType.
Proof. solve_decision. Defined.

Definition type_name (t : ComponentType) : string :=
  match t with
  | Button => "Button" | Card => "Card"
  | HighLevelRootComponent => "HighLevelRootComponent"
  | Container => "Container" | CustomListItem => "CustomListItem"
  | KeyEventListener => "KeyEventListener" | Link => "Link"
  | MouseEventListener => "MouseEventListener" | PageView => "PageView"
  | Rectangle => "Rectangle" | Slideshow => "Slideshow" | Stack => "Stack"
  | Switcher => "Switcher"
  | Row => "Row" | Column => "Column" | Overlay => "Overlay"
  | OtherComponent name => name
  end.

Definition FULL_SIZE_SINGLE_CONTAINERS : list ComponentType :=
  [ Button; Card; HighLevelRootComponent; Container; CustomListItem;
    KeyEventListener; Link; MouseEventListener; PageView; Rectangle;
    Slideshow; Stack; Switcher ].

(** The [proportions] parameter of a linear container, when it is not
    [None]. *)
Inductive Proportions : Type :=
  | Homogeneous
  | ProportionList (weights : list Q).

(** What the layouter reads from a component besides its children.
    [width] and [height] are [Some] for a number and [None] for anything
    else (the [isinstance(_, (int, float))] test); [align_x] and [align_y]
    are [None] when unset. [spacing] and [proportions] are read from rows
    and columns only: the record of a component of another class holds
    values that no method reads, unless the class is named [Row] or
    [Column], in which case the record stands for a class that has both
    attributes (see [genuine_layout_class]). *)
Record Attrs : Type := mkAttrs {
  _id : Z;
  type_of : ComponentType;
  width : option Q;
  height : option Q;
  _effective_margin_left : Q;
  _effective_margin_right : Q;
  _effective_margin_top : Q;
  _effective_margin_bottom : Q;
  align_x : option Q;
  align_y : option Q;
  spacing : Q;
  proportions : option Proportions
}.

(** A snapshot of the component tree. A fundamental component carries its
    direct children; a high level component carries its build result, which
    the session stores in [_weak_component_data_by_component]. *)
#[warnings="-register-all"] Inductive Component : Type :=
  | Fundamental (a : Attrs) (children : list Component)
  | HighLevel (a : Attrs) (build_result : Component).

Definition attrs (c : Component) : Attrs :=
  match c with
  | Fundamental a _ => a
  | HighLevel a _ => a
  end.

Definition cid (c : Component) : Z := _id (attrs c).

(** Modelled from the spec: [component._iter_direct_children()], a method
    of [rio.Component] that is declared outside the source file. For a
    fundamental component it yields the ordered direct children, which are
    the tree children ([iter_direct_tree_children] relies on this). The
    layout methods that call it directly are those of [Row], [Column] and
    [Overlay], all fundamental; for a high level component it walks
    attributes that are not part of the tree snapshot, and yields nothing
    here. *)
Definition _iter_direct_children (c : Component) : list Component :=
  match c with
  | Fundamental _ children => children
  | HighLevel _ _ => []
  end.

Definition iter_direct_tree_children (component : Component) : list Component :=
  match component with
  | Fundamental _ _ => _iter_direct_children component
  | HighLevel _ build_result => [build_result]
  end.

(** Modelled from the spec: the [content] attribute of [rio.Overlay], whose
    class declaration is outside the source file, is the overlay's single
    child. Reading it from a component without exactly one direct child
    raises [AttributeError]. *)
Definition content (component : Component) : result Component :=
  match _iter_direct_children component with
  | [child] => Ok child
  | _ => Raise (AttributeError "content")
  end.

(** ** The tree walker *)

(** [list.pop()]: removes and returns the last element. *)
Definition pop {A : Type} (l : list A) : option (list A * A) :=
  match reverse l with
  | [] => None
  | x :: r => Some (reverse r, x)
  end.

(** The [while to_do:] loop of [_get_toposorted]; one unit of fuel per
    iteration, [None] when the fuel runs out before the loop ends. The
    result is the sequence of yielded components. *)
Fixpoint toposort_loop (fuel : nat) (to_do : list Component)
  : option (list Component) :=
  match fuel with
  | O => None
  | S fuel' =>
      match pop to_do with
      | None => Some []
      | Some (to_do', current) =>
          rest ← toposort_loop fuel' (to_do' ++ iter_direct_tree_children current);
          Some (current :: rest)
      end
  end.

Definition _get_toposorted (fuel : nat) (root : Component)
  : option (list Component) :=
  toposort_loop fuel [root].

(** Number of components in a tree, and the components themselves in
    document order (a node, then its subtrees from first to last). *)
Fixpoint tree_size (c : Component) : nat :=
  match c with
  | Fundamental _ children => S (list_sum (tree_size <$> children))
  | HighLevel _ b => S (tree_size b)
  end.

Fixpoint nodes (c : Component) : list Component :=
  c :: match c with
       | Fundamental _ children => concat (nodes <$> children)
       | HighLevel _ b => nodes b
       end.

(** Pre-order in which the subtrees of a node are taken from last to
    first. *)
Fixpoint rev_preorder (c : Component) : list Component :=
  c :: match c with
       | Fundamental _ children => concat (reverse (rev_preorder <$> children))
       | HighLevel _ b => rev_preorder b
       end.

(** ** The pure layout functions *)

Definition _linear_container_get_major_axis_natural_size
    (child_requested_sizes : list Q) (spacing : Q) : Q :=
  (* Spacing *)
  let result := (spacing * inject_Z (Z.of_nat (length child_requested_sizes) - 1)%Z)%Q in
  (* Children *)
  fold_left Qplus child_requested_sizes result.

Definition _linear_container_get_major_axis_allocated_sizes
    (container_allocated_size : Q) (child_requested_sizes : list Q)
    (spacing : Q) (proportions : option Proportions)
  : result (list (Q * Q)) :=
  match proportions with
  | None =>
      Ok (snd (fold_left
                 (fun '(cur_x, starts_and_sizes) child_requested_size =>
                    ((cur_x + (child_requested_size + spacing))%Q,
                     starts_and_sizes ++ [(cur_x, child_requested_size)]))
                 child_requested_sizes (0%Q, [])))
  | Some _ =>
      Raise (NotImplementedError "TODO: Support proportions in linear containers")
  end.

Definition calculate_alignment
    (allocated_outer_size requested_inner_size margin_start margin_end : Q)
    (align : option Q) : Q * Q :=
  match align with
  | None =>
      (margin_start, (allocated_outer_size - margin_start - margin_end)%Q)
  | Some align =>
      let additional_space :=
        (allocated_outer_size - requested_inner_size - margin_start - margin_end)%Q in
      ((margin_start + additional_space * align)%Q, requested_inner_size)
  end.

(** ** Dictionaries of layout records *)

(** [d[k]], raising [KeyError] on a missing key. *)
Definition getitem (d : gmap Z LayoutRecord) (k : Z) : result LayoutRecord :=
  match d !! k with
  | Some r => Ok r
  | None => Raise (KeyError k)
  end.

(** [d[k].f = v]: the record stored under [k] is mutated in place. *)
Definition setattr (k : Z) (f : Field) (v : Q) (d : gmap Z LayoutRecord)
  : result (gmap Z LayoutRecord) :=
  r ← getitem d k;
  Ok (<[k := setf f v r]> d).

(** The list comprehension / append loop that reads one attribute of every
    child's record. *)
Fixpoint collect (f : Field) (d : gmap Z LayoutRecord) (children : list Component)
  : result (list Q) :=
  match children with
  | [] => Ok []
  | child :: rest =>
      child_layout ← getitem d (cid child);
      sizes ← collect f d rest;
      Ok (getf f child_layout :: sizes)
  end.

(** ** Dispatch to specialized methods *)

Definition Method : Type :=
  Component → gmap Z LayoutRecord → result (gmap Z LayoutRecord).

(** The suffix of the method name that [specialized] looks up. *)
Definition method_suffix (component : Component) : string :=
  if bool_decide (type_of (attrs component) ∈ FULL_SIZE_SINGLE_CONTAINERS)
  then "SingleContainer"
  else type_name (type_of (attrs component)).

Fixpoint getattr (methods : list (string * Method)) (suffix : string)
  : option Method :=
  match methods with
  | [] => None
  | (name, m) :: rest =>
      if bool_decide (name = suffix) then Some m else getattr rest suffix
  end.

(** The [specialized] decorator: [methods] are the methods of the class
    whose name is the decorated function's name followed by a suffix. *)
Definition specialized (methods : list (string * Method)) (func : Method)
  : Method :=
  fun component =>
    match getattr methods (method_suffix component) with
    | Some method => method component
    | None => func component
    end.

(** The strategy that [specialized] ends up running, for stating
    properties by cases. *)
Inductive Strategy : Type :=
  | RowStrategy | ColumnStrategy | OverlayStrategy
  | SingleContainerStrategy | DefaultStrategy.

Definition strategy_of (component : Component) : Strategy :=
  let s := method_suffix component in
  if bool_decide (s = "Row") then RowStrategy
  else if bool_decide (s = "Column") then ColumnStrategy
  else if bool_decide (s = "Overlay") then OverlayStrategy
  else if bool_decide (s = "SingleContainer") then SingleContainerStrategy
  else DefaultStrategy.

(** ** The layouter *)

Record UnittestClientLayoutInfo : Type := mkClientInfo {
  client_window_width : Q;
  client_window_height : Q;
  component_layouts : gmap Z LayoutRecord
}.

Record Layouter : Type := mkLayouter {
  session_root_component : Component;
  window_width : Q;
  window_height : Q;
  _layouts_should : gmap Z LayoutRecord;
  _layouts_are : gmap Z LayoutRecord
}.

Section Layouter_methods.

(** The attributes of [self] that the methods only read. The dictionary
    [_layouts_should] is the state that they thread. *)
Variable self_root : Component.
Variable self_window_width self_window_height : Q.
Variable self_layouts_are : gmap Z LayoutRecord.

(** *** Natural width *)

Definition _update_natural_width_default : Method := fun component should =>
  _ ← getitem should (cid component);
  layout_is ← getitem self_layouts_are (cid component);
  setattr (cid component) NaturalWidth (natural_width layout_is) should.

(** The methods of rows and columns read [component.spacing] and
    [component.proportions] from the record [Attrs], which has them for
    every component; [genuine_layout_class] names the trees on which no
    such read can fail in Python. *)
Definition _update_natural_width_Row : Method := fun component should =>
  _ ← getitem should (cid component);
  child_widths ← collect RequestedOuterWidth should (_iter_direct_children component);
  setattr (cid component) NaturalWidth
    (_linear_container_get_major_axis_natural_size
       child_widths (spacing (attrs component)))
    should.

(** The loop [layout.f = max(layout.f, child_layout.g)] over children. *)
Definition max_over_children (f g : Field) (component : Component)
    (children : list Component) (should : gmap Z LayoutRecord)
  : result (gmap Z LayoutRecord) :=
  for_each (fun child should =>
              child_layout ← getitem should (cid child);
              layout ← getitem should (cid component);
              setattr (cid component) f
                (py_max (getf f layout) (getf g child_layout)) should)
           children should.

Definition _update_natural_width_Column : Method := fun component should =>
  should ← setattr (cid component) NaturalWidth 0%Q should;
  max_over_children NaturalWidth RequestedOuterWidth component
    (_iter_direct_children component) should.

Definition _update_natural_width_Overlay : Method := fun component should =>
  setattr (cid component) NaturalWidth 0%Q should.

Definition _update_natural_width_SingleContainer : Method := fun component should =>
  should ← setattr (cid component) NaturalWidth 0%Q should;
  max_over_children NaturalWidth RequestedOuterWidth component
    (iter_direct_tree_children component) should.

Definition _update_natural_width : Method :=
  specialized
    [ ("Row", _update_natural_width_Row);
      ("Column", _update_natural_width_Column);
      ("Overlay", _update_natural_width_Overlay);
      ("SingleContainer", _update_natural_width_SingleContainer) ]
    _update_natural_width_default.

(** *** Allocated width *)

Definition _update_allocated_width_default : Method := fun component should =>
  for_each (fun child should =>
              _ ← getitem should (cid child);
              child_layout_is ← getitem self_layouts_are (cid child);
              setattr (cid child) AllocatedOuterWidth
                (allocated_outer_width child_layout_is) should)
           (iter_direct_tree_children component) should.

(** The loop over [zip(children, starts_and_sizes)] of the linear
    containers: [pos] is the position attribute, [size] the size
    attribute, [inner] the container's own inner position. *)
Fixpoint place_children (pos size : Field) (inner : Field)
    (component : Component) (children : list Component)
    (starts_and_sizes : list (Q * Q)) (should : gmap Z LayoutRecord)
  : result (gmap Z LayoutRecord) :=
  match children, starts_and_sizes with
  | child :: children', (start, sz) :: rest =>
      _ ← getitem should (cid child);
      layout ← getitem should (cid component);
      should ← setattr (cid child) pos (getf inner layout + start)%Q should;
      should ← setattr (cid child) size sz should;
      place_children pos size inner component children' rest should
  | _, _ => Ok should
  end.

Definition _update_allocated_width_Row : Method := fun component should =>
  layout ← getitem should (cid component);
  child_widths ← collect RequestedOuterWidth should (_iter_direct_children component);
  starts_and_sizes ←
    _linear_container_get_major_axis_allocated_sizes
      (allocated_inner_width layout) child_widths
      (spacing (attrs component)) (proportions (attrs component));
  place_children LeftInViewportOuter AllocatedOuterWidth LeftInViewportInner
    component (_iter_direct_children component) starts_and_sizes should.

(** The loop that hands every child the container's inner position and
    inner size on one axis. *)
Definition pass_on_all_space (pos size inner_pos inner_size : Field)
    (component : Component) (children : list Component)
    (should : gmap Z LayoutRecord) : result (gmap Z LayoutRecord) :=
  for_each (fun child should =>
              _ ← getitem should (cid child);
              layout ← getitem should (cid component);
              should ← setattr (cid child) pos (getf inner_pos layout) should;
              layout ← getitem should (cid component);
              setattr (cid child) size (getf inner_size layout) should)
           children should.

Definition _update_allocated_width_Column : Method := fun component should =>
  _ ← getitem should (cid component);
  pass_on_all_space LeftInViewportOuter AllocatedOuterWidth
    LeftInViewportInner AllocatedInnerWidth
    component (_iter_direct_children component) should.

Definition _update_allocated_width_Overlay : Method := fun component should =>
  child ← content component;
  _ ← getitem should (cid child);
  should ← setattr (cid child) LeftInViewportOuter 0%Q should;
  setattr (cid child) AllocatedOuterWidth self_window_width should.

Definition _update_allocated_width_SingleContainer : Method := fun component should =>
  _ ← getitem should (cid component);
  pass_on_all_space LeftInViewportOuter AllocatedOuterWidth
    LeftInViewportInner AllocatedInnerWidth
    component (iter_direct_tree_children component) should.

Definition _update_allocated_width : Method :=
  specialized
    [ ("Row", _update_allocated_width_Row);
      ("Column", _update_allocated_width_Column);
      ("Overlay", _update_allocated_width_Overlay);
      ("SingleContainer", _update_allocated_width_SingleContainer) ]
    _update_allocated_width_default.

(** *** Natural height *)

Definition _update_natural_height_default : Method := fun component should =>
  _ ← getitem should (cid component);
  layout_is ← getitem self_layouts_are (cid component);
  setattr (cid component) NaturalHeight (natural_height layout_is) should.

Definition _update_natural_height_Row : Method := fun component should =>
  should ← setattr (cid component) NaturalHeight 0%Q should;
  max_over_children NaturalHeight RequestedOuterHeight component
    (_iter_direct_children component) should.

Definition _update_natural_height_Column : Method := fun component should =>
  _ ← getitem should (cid component);
  child_heights ← collect RequestedOuterHeight should (_iter_direct_children component);
  setattr (cid component) NaturalHeight
    (_linear_container_get_major_axis_natural_size
       child_heights (spacing (attrs component)))
    should.

Definition _update_natural_height_Overlay : Method := fun component should =>
  setattr (cid component) NaturalHeight 0%Q should.

Definition _update_natural_height_SingleContainer : Method := fun component should =>
  should ← setattr (cid component) NaturalHeight 0%Q should;
  max_over_children NaturalHeight RequestedOuterHeight component
    (iter_direct_tree_children component) should.

Definition _update_natural_height : Method :=
  specialized
    [ ("Row", _update_natural_height_Row);
      ("Column", _update_natural_height_Column);
      ("Overlay", _update_natural_height_Overlay);
      ("SingleContainer", _update_natural_height_SingleContainer) ]
    _update_natural_height_default.

(** *** Allocated height *)

Definition _update_allocated_height_default : Method := fun component should =>
  for_each (fun child should =>
              _ ← getitem should (cid child);
              child_layout_is ← getitem self_layouts_are (cid child);
              should ← setattr (cid child) AllocatedOuterHeight
                         (allocated_outer_height child_layout_is) should;
              should ← setattr (cid child) LeftInViewportOuter
                         (left_in_viewport_outer child_layout_is) should;
              setattr (cid child) TopInViewportOuter
                (top_in_viewport_outer child_layout_is) should)
           (iter_direct_tree_children component) should.

Definition _update_allocated_height_Row : Method := fun component should =>
  _ ← getitem should (cid component);
  pass_on_all_space TopInViewportOuter AllocatedOuterHeight
    TopInViewportInner AllocatedInnerHeight
    component (_iter_direct_children component) should.

Definition _update_allocated_height_Column : Method := fun component should =>
  layout ← getitem should (cid component);
  child_heights ← collect RequestedOuterHeight should (_iter_direct_children component);
  starts_and_sizes ←
    _linear_container_get_major_axis_allocated_sizes
      (allocated_inner_height layout) child_heights
      (spacing (attrs component)) (proportions (attrs component));
  place_children TopInViewportOuter AllocatedOuterHeight TopInViewportInner
    component (_iter_direct_children component) starts_and_sizes should.

Definition _update_allocated_height_Overlay : Method := fun component should =>
  child ← content component;
  _ ← getitem should (cid child);
  should ← setattr (cid child) TopInViewportOuter 0%Q should;
  setattr (cid child) AllocatedOuterHeight self_window_height should.

Definition _update_allocated_height_SingleContainer : Method := fun component should =>
  _ ← getitem should (cid component);
  pass_on_all_space TopInViewportOuter AllocatedOuterHeight
    TopInViewportInner AllocatedInnerHeight
    component (iter_direct_tree_children component) should.

Definition _update_allocated_height : Method :=
  specialized
    [ ("Row", _update_allocated_height_Row);
      ("Column", _update_allocated_height_Column);
      ("Overlay", _update_allocated_height_Overlay);
      ("SingleContainer", _update_allocated_height_SingleContainer) ]
    _update_allocated_height_default.

(** *** The four passes of [_compute_layouts_should] *)

(** [x if isinstance(x, (int, float)) else 0] *)
Definition number_or_zero (x : option Q) : Q := default 0%Q x.

(** Body of loop 1: pre-allocate the record, then natural and requested
    width. *)
Definition natural_width_step : Method := fun component should =>
  let should := <[cid component := fresh_layout]> should in
  should ← _update_natural_width component should;
  layout_should ← getitem should (cid component);
  let min_width := number_or_zero (width (attrs component)) in
  should ← setattr (cid component) RequestedInnerWidth
             (py_max (natural_width layout_should) min_width) should;
  layout_should ← getitem should (cid component);
  setattr (cid component) RequestedOuterWidth
    (requested_inner_width layout_should
     + _effective_margin_left (attrs component)
     + _effective_margin_right (attrs component))%Q
    should.

(** Body of loop 2: the component's own inner position and size, then
    its children's allocation. *)
Definition allocated_width_step : Method := fun component should =>
  layout ← getitem should (cid component);
  let '(left_, width_) :=
    calculate_alignment
      (allocated_outer_width layout) (requested_inner_width layout)
      (_effective_margin_left (attrs component))
      (_effective_margin_right (attrs component))
      (align_x (attrs component)) in
  should ← setattr (cid component) LeftInViewportInner
             (left_in_viewport_outer layout + left_)%Q should;
  should ← setattr (cid component) AllocatedInnerWidth width_ should;
  _update_allocated_width component should.

Definition natural_height_step : Method := fun component should =>
  _ ← getitem should (cid component);
  should ← _update_natural_height component should;
  layout_should ← getitem should (cid component);
  let min_height := number_or_zero (height (attrs component)) in
  should ← setattr (cid component) RequestedInnerHeight
             (py_max (natural_height layout_should) min_height) should;
  layout_should ← getitem should (cid component);
  setattr (cid component) RequestedOuterHeight
    (requested_inner_height layout_should
     + _effective_margin_top (attrs component)
     + _effective_margin_bottom (attrs component))%Q
    should.

Definition allocated_height_step : Method := fun component should =>
  layout ← getitem should (cid component);
  let '(top_, height_) :=
    calculate_alignment
      (allocated_outer_height layout) (requested_inner_height layout)
      (_effective_margin_top (attrs component))
      (_effective_margin_bottom (attrs component))
      (align_y (attrs component)) in
  should ← setattr (cid component) TopInViewportInner
             (top_in_viewport_outer layout + top_)%Q should;
  should ← setattr (cid component) AllocatedInnerHeight height_ should;
  _update_allocated_height component should.

(** 1. Update natural & requested width *)
Definition natural_width_pass (ordered_components : list Component)
    (should : gmap Z LayoutRecord) : result (gmap Z LayoutRecord) :=
  for_each natural_width_step (reverse ordered_components) should.

(** 2. Update allocated width *)
Definition allocated_width_pass (ordered_components : list Component)
    (should : gmap Z LayoutRecord) : result (gmap Z LayoutRecord) :=
  root_layout ← getitem should (cid self_root);
  should ← setattr (cid self_root) LeftInViewportOuter 0%Q should;
  should ← setattr (cid self_root) AllocatedOuterWidth
             (py_max self_window_width (requested_outer_width root_layout))
             should;
  for_each allocated_width_step ordered_components should.

(** 3. Update natural & requested height *)
Definition natural_height_pass (ordered_components : list Component)
    (should : gmap Z LayoutRecord) : result (gmap Z LayoutRecord) :=
  for_each natural_height_step (reverse ordered_components) should.

(** 4. Update allocated height *)
Definition allocated_height_pass (ordered_components : list Component)
    (should : gmap Z LayoutRecord) : result (gmap Z LayoutRecord) :=
  should ← setattr (cid self_root) TopInViewportOuter 0%Q should;
  root_layout ← getitem should (cid self_root);
  should ← setattr (cid self_root) AllocatedOuterHeight
             (py_max self_window_height (requested_outer_height root_layout))
             should;
  for_each allocated_height_step ordered_components should.

Definition _compute_layouts_should (ordered_components : list Component)
    (should : gmap Z LayoutRecord) : result (gmap Z LayoutRecord) :=
  should ← natural_width_pass ordered_components should;
  should ← allocated_width_pass ordered_components should;
  should ← natural_height_pass ordered_components should;
  allocated_height_pass ordered_components should.

End Layouter_methods.

(** [Layouter.create]. The awaited answer of the client,
    [session._get_unittest_client_layout_info()], is the argument
    [client_info]. [None] only when [fuel] is too small for the tree
    walk. *)
Definition create (fuel : nat) (root_component : Component)
    (client_info : UnittestClientLayoutInfo) : option (result Layouter) :=
  ordered_components ← _get_toposorted fuel root_component;
  let window_width := client_window_width client_info in
  let window_height := client_window_height client_info in
  let layouts_are := component_layouts client_info in
  (* Make sure the received components match expectations *)
  let component_ids_client : gset Z := dom layouts_are in
  let component_ids_server : gset Z := list_to_set (cid <$> ordered_components) in
  let missing_component_ids := component_ids_server ∖ component_ids_client in
  let superfluous_component_ids := component_ids_client ∖ component_ids_server in
  Some (
    if negb (bool_decide (missing_component_ids = ∅))
    then Raise (AssertionError missing_component_ids)
    else if negb (bool_decide (superfluous_component_ids = ∅))
    then Raise (AssertionError superfluous_component_ids)
    else
      (* Compute server-side layouts *)
      layouts_should ←
        _compute_layouts_should root_component window_width window_height
          layouts_are ordered_components ∅;
      Ok (mkLayouter root_component window_width window_height
            layouts_should layouts_are)).

(** ** The debugging helpers *)

(** [print_tree] writes to [sys.stdout]; the model returns the strings
    passed to [out.write], in order. The text is encoded as UTF-8, as a
    terminal receives it. *)
Definition newline : string := String (Ascii.ascii_of_nat 10) EmptyString.

Section print_children.
Variable print_worker : Component → string → list string.
Variable indent : string.
Variable n_children : Z.

(** The loop [for ii, child in enumerate(children)] of [print_worker],
    from index [ii] on. *)
Fixpoint print_children (ii : Z) (children : list Component) : list string :=
  match children with
  | [] => []
  | child :: rest =>
      (if bool_decide (ii = n_children - 1)%Z
       then [indent +:+ " └─ "] ++ print_worker child (indent +:+ "    ")
       else [indent +:+ " ├─ "] ++ print_worker child (indent +:+ " │  "))
      ++ print_children (ii + 1)%Z rest
  end.
End print_children.

Fixpoint print_worker (component : Component) (indent : string) : list string :=
  [type_name (type_of (attrs component)); newline]
  ++ match component with
     | Fundamental _ children =>
         print_children print_worker indent (Z.of_nat (length children)) 0
           children
     | HighLevel _ build_result =>
         print_children print_worker indent 1 0 [build_result]
     end.

Definition print_tree (self : Layouter) : list string :=
  print_worker (session_root_component self) "".

(** [get_nesting] of [debug_draw]: how deep is the deepest nesting? *)
Fixpoint get_nesting (component : Component) (level : Z) : Z :=
  match component with
  | Fundamental _ children =>
      fold_left
        (fun result child => Z.max result (get_nesting child (level + 1)))
        children level
  | HighLevel _ build_result =>
      fold_left
        (fun result child => Z.max result (get_nesting child (level + 1)))
        [build_result] level
  end.

(** Python's [round] to an integer: to the nearest, ties to the even
    one. *)
Definition py_round (x : Q) : Z :=
  let below := Qfloor x in
  match (x - inject_Z below ?= 1 # 2)%Q with
  | Lt => below
  | Gt => (below + 1)%Z
  | Eq => if Z.even below then below else (below + 1)%Z
  end.

(** The calls on the [PIL.ImageDraw] object: [draw.rectangle(xy, fill)]
    with an RGB colour, and [draw.text(xy, text, fill="blue", font)] with
    the default font. The model records the calls; it does not rasterise
    them. *)
Inductive DrawCall : Type :=
  | rectangle (xy : Q * Q * Q * Q) (fill : Z * Z * Z)
  | text (xy : Q * Q) (label : string).

Inductive Which : Type := should | are.

Section debug_draw.
(** [draw.textlength(label_str, font=PIL.ImageFont.load_default())], a
    function of the installed font. *)
Variable textlength : string → Q.
Variable layouts : gmap Z LayoutRecord.
Variable pixels_per_unit : Q.
Variable n_layers : Z.

(** The body of [draw_component] before it chains to the children: one
    rectangle and one label. The division is Python's true division;
    [n_layers + 1] is at least 2 in [debug_draw], so that it never divides
    by zero. *)
Definition draw_one (component : Component) (level : Z)
    (draw : list DrawCall) : result (list DrawCall) :=
  (* Determine the color. The deeper the darker *)
  let nesting_fraction := (inject_Z level / inject_Z (n_layers + 1))%Q in
  let color_8bit := py_round (255 * nesting_fraction) in
  let color := (color_8bit, color_8bit, color_8bit) in
  (* Draw the component *)
  layout ← getitem layouts (cid component);
  let rect_left := (left_in_viewport_inner layout * pixels_per_unit)%Q in
  let rect_top := (top_in_viewport_inner layout * pixels_per_unit)%Q in
  let rect_right :=
    ((left_in_viewport_inner layout + allocated_inner_width layout)
     * pixels_per_unit)%Q in
  let rect_bottom :=
    ((top_in_viewport_inner layout + allocated_inner_height layout)
     * pixels_per_unit)%Q in
  let draw := draw ++ [rectangle (rect_left, rect_top, rect_right, rect_bottom)
                         color] in
  (* Label it *)
  let label_str := type_name (type_of (attrs component)) in
  let text_width := textlength label_str in
  let text_height := (pixels_per_unit * (3 # 2))%Q in
  Ok (draw ++ [text ((rect_left + (rect_right - rect_left - text_width) / 2)%Q,
                     (rect_top + (rect_bottom - rect_top - text_height) / 2)%Q)
                 label_str]).

Section draw_children.
Variable draw_component : Component → Z → list DrawCall → result (list DrawCall).
Variable level : Z.

(** The loop [for child in ...: draw_component(child, level + 1)]. *)
Fixpoint draw_children (children : list Component) (draw : list DrawCall)
  : result (list DrawCall) :=
  match children with
  | [] => Ok draw
  | child :: rest =>
      draw ← draw_component child (level + 1)%Z draw;
      draw_children rest draw
  end.
End draw_children.

Fixpoint draw_component (component : Component) (level : Z)
    (draw : list DrawCall) : result (list DrawCall) :=
  draw ← draw_one component level draw;
  (* Chain to children *)
  match component with
  | Fundamental _ children => draw_children draw_component level children draw
  | HighLevel _ build_result =>
      draw_children draw_component level [build_result] draw
  end.
End debug_draw.

(** [debug_draw]: the size of the new white image and the calls made on
    its [ImageDraw] object. [pixels_per_unit] is the keyword argument,
    which defaults to 10. *)
Definition debug_draw (textlength : string → Q) (self : Layouter)
    (which : Which) (pixels_per_unit : Q)
  : result ((Z * Z) * list DrawCall) :=
  let size := (py_round (window_width self * pixels_per_unit),
               py_round (window_height self * pixels_per_unit)) in
  let layouts :=
    match which with
    | should => _layouts_should self
    | are => _layouts_are self
    end in
  let n_layers := get_nesting (session_root_component self) 1 in
  draw ← draw_component textlength layouts pixels_per_unit n_layers
            (session_root_component self) 1 [];
  Ok (size, draw).

(** ** Notions used to state the properties *)

(** The ids of the tree children of a component. *)
Definition child_ids (c : Component) : list Z :=
  cid <$> iter_direct_tree_children c.

(** The ids of a tree are pairwise distinct. *)
Definition ids_unique (root : Component) : Prop := NoDup (cid <$> nodes root).

(** The attribute [f] of the record stored under [k], if there is one. *)
Definition field (d : gmap Z LayoutRecord) (k : Z) (f : Field) : option Q :=
  getf f <$> d !! k.

(** The record of component [ch] has the value [v] in attribute [f]. *)
Definition has_field (f : Field) (d : gmap Z LayoutRecord) (ch : Component)
    (v : Q) : Prop :=
  field d (cid ch) f = Some v.

(** A footprint: the computation [m], when it returns, has left every
    attribute outside [W] as it was. *)
Definition writes_only (W : Z → Field → Prop)
    (m : gmap Z LayoutRecord → result (gmap Z LayoutRecord)) : Prop :=
  ∀ d d', m d = Ok d' → ∀ j g, ¬ W j g → field d' j g = field d j g.

(** The footprints of [_update_allocated_width] and
    [_update_allocated_height] on a component: attributes of its
    children. Only the specialized width methods assign the left position;
    only the default height method does. *)
Definition W_allocated_width (c : Component) (j : Z) (g : Field) : Prop :=
  j ∈ child_ids c ∧
  (g = AllocatedOuterWidth
   ∨ (g = LeftInViewportOuter ∧ strategy_of c ≠ DefaultStrategy)).

Definition W_allocated_height (c : Component) (j : Z) (g : Field) : Prop :=
  j ∈ child_ids c ∧
  (g = AllocatedOuterHeight ∨ g = TopInViewportOuter
   ∨ (g = LeftInViewportOuter ∧ strategy_of c = DefaultStrategy)).

(** The footprints of the bodies of the four loops of
    [_compute_layouts_should]. *)
Definition W_natural_width_step (c : Component) (j : Z) (g : Field) : Prop :=
  j = cid c.

Definition W_allocated_width_step (c : Component) (j : Z) (g : Field) : Prop :=
  (j = cid c ∧ (g = LeftInViewportInner ∨ g = AllocatedInnerWidth))
  ∨ W_allocated_width c j g.

Definition W_natural_height_step (c : Component) (j : Z) (g : Field) : Prop :=
  j = cid c ∧
  (g = NaturalHeight ∨ g = RequestedInnerHeight ∨ g = RequestedOuterHeight).

Definition W_allocated_height_step (c : Component) (j : Z) (g : Field) : Prop :=
  (j = cid c ∧ (g = TopInViewportInner ∨ g = AllocatedInnerHeight))
  ∨ W_allocated_height c j g.

(** The offsets and sizes of sequential placement, from a starting
    offset: a closed form of the loop of
    [_linear_container_get_major_axis_allocated_sizes]. *)
Fixpoint placements (cur_x : Q) (sizes : list Q) (spacing : Q) : list (Q * Q) :=
  match sizes with
  | [] => []
  | sz :: rest => (cur_x, sz) :: placements (cur_x + (sz + spacing))%Q rest spacing
  end.

(** The sum of a list of numbers. *)
Definition Qsum (l : list Q) : Q := foldr Qplus 0%Q l.

(** [starts] are the offsets of sizes [sizes] laid out one after the other
    from offset 0 with [spacing] in between. *)
Definition sequential_starts (spacing : Q) (sizes starts : list Q) : Prop :=
  length starts = length sizes
  ∧ (∀ start, starts !! 0%nat = Some start → start = 0%Q)
  ∧ (∀ i start sz start',
       starts !! i = Some start → sizes !! i = Some sz →
       starts !! S i = Some start' →
       start' = (start + (sz + spacing))%Q).

(** Every exception that [r] may be is one of [E]. *)
Definition raises_only {A} (E : PyError → Prop) (r : result A) : Prop :=
  ∀ e, r = Raise e → E e.

Definition is_KeyError (e : PyError) : Prop :=
  match e with KeyError _ => True | _ => False end.

Definition not_AssertionError (e : PyError) : Prop :=
  match e with AssertionError _ => False | _ => True end.

(** The computation [m] returns on every dictionary that has records for
    the ids [D], and keeps the keys of the dictionary. *)
Definition succeeds_on (D : gset Z)
    (m : gmap Z LayoutRecord → result (gmap Z LayoutRecord)) : Prop :=
  ∀ d, D ⊆ dom d → ∃ d', m d = Ok d' ∧ dom d' = dom d.

(** What the layout methods need of a component: no [proportions] on a
    row or column, a [content] on an overlay. *)
Definition layoutable (c : Component) : Prop :=
  match strategy_of c with
  | RowStrategy | ColumnStrategy => proportions (attrs c) = None
  | OverlayStrategy => ∃ ch, content c = Ok ch
  | _ => True
  end.

(** The classes of the tree that [specialized] sends to the methods of
    rows, columns and overlays are [rio.Row], [rio.Column] and
    [rio.Overlay] themselves, not other classes that only bear one of
    these names. The methods read [spacing], [proportions] and [content],
    which the classes of [rio] have; on a class that lacks them the read
    raises [AttributeError] in Python, a case that the total record
    [Attrs] has no value for. *)
Definition genuine_layout_class (c : Component) : Prop :=
  match strategy_of c with
  | RowStrategy => type_of (attrs c) = Row
  | ColumnStrategy => type_of (attrs c) = Column
  | OverlayStrategy => type_of (attrs c) = Overlay
  | SingleContainerStrategy | DefaultStrategy => True
  end.

(** The alignment calculator as section 4.4 of the specification words it:
    the pair (offset, size), for "fill" ([None]) and for a fraction [f]. *)
Definition alignment_reference
    (outer requested_inner margin_start margin_end : Q) (alignment : option Q)
  : Q * Q :=
  match alignment with
  | None => (margin_start, outer - margin_start - margin_end)%Q
  | Some f =>
      ((margin_start
        + f * (outer - requested_inner - margin_start - margin_end))%Q,
       requested_inner)
  end.

(** The computation [m], when it returns, has kept the keys of the
    dictionary. *)
Definition keeps_dom (m : gmap Z LayoutRecord → result (gmap Z LayoutRecord))
  : Prop :=
  ∀ d d', m d = Ok d' → dom d' = dom d.

(** An alignment that [calculate_alignment] is meant for: unset, or a
    fraction between 0 and 1. *)
Definition valid_alignment (align : option Q) : Prop :=
  match align with
  | Some f => (0 <= f)%Q ∧ (f <= 1)%Q
  | None => True
  end.

(** The components below [c] in document order, each with its nesting
    level when [c] has the level [level]. *)
Fixpoint levelled (c : Component) (level : Z) : list (Component * Z) :=
  (c, level) ::
  match c with
  | Fundamental _ children =>
      concat ((fun ch => levelled ch (level + 1)) <$> children)
  | HighLevel _ b => levelled b (level + 1)
  end.

(** A line of [print_tree] for a component [x] below the root: the write
    of a prefix that extends [indent] and ends in a branch marker, then
    the write of the type name, then the write of the newline. *)
Definition is_branch_line (indent : string) (x : Component)
    (line : list string) : Prop :=
  ∃ ind marker,
    (marker = " └─ " ∨ marker = " ├─ ")
    ∧ line = [indent +:+ ind +:+ marker; type_name (type_of (attrs x)); newline].

(** The two calls that [debug_draw] makes for the component [x]: a grey
    rectangle over the inner box of its record, scaled, and its type name
    as the label. *)
Definition draws_component (layouts : gmap Z LayoutRecord)
    (pixels_per_unit : Q) (x : Component) (calls : list DrawCall) : Prop :=
  ∃ layout color xy,
    layouts !! cid x = Some layout
    ∧ (0 <= color <= 255)%Z
    ∧ calls =
      [ rectangle
          ((left_in_viewport_inner layout * pixels_per_unit)%Q,
           (top_in_viewport_inner layout * pixels_per_unit)%Q,
           ((left_in_viewport_inner layout + allocated_inner_width layout)
            * pixels_per_unit)%Q,
           ((top_in_viewport_inner layout + allocated_inner_height layout)
            * pixels_per_unit)%Q)
          (color, color, color);
        text xy (type_name (type_of (attrs x))) ].

(** ** Example inputs *)

Definition ex_attrs (i : Z) (t : ComponentType) (sp : Q) : Attrs :=
  mkAttrs i t None None 0 0 0 0 None None sp None.

Definition ex_text3 : Component :=
  Fundamental (ex_attrs 3 (OtherComponent "Text") 0) [].

Definition ex_text4 : Component :=
  Fundamental (ex_attrs 4 (OtherComponent "Text") 0) [].

(** A row with spacing 5 and two children. *)
Definition ex_row : Component :=
  Fundamental (ex_attrs 2 Row 5) [ex_text3; ex_text4].

(** A row like [ex_row], with [proportions="homogeneous"]. *)
Definition ex_row_homogeneous : Component :=
  Fundamental
    (mkAttrs 2 Row None None 0 0 0 0 None None 5 (Some Homogeneous))
    [ex_text3; ex_text4].

(** A user-defined high level component: no layout method of its own. *)
Definition ex_app : Component :=
  HighLevel (ex_attrs 1 (OtherComponent "MyApp") 0) ex_row.

Definition ex_root : Component :=
  HighLevel (ex_attrs 0 HighLevelRootComponent 0) ex_app.

Definition ex_reported (nw nh left top : Q) : LayoutRecord :=
  mkLayout nw nh nw nh nw nh nw nh nw nh left top left top [].

Definition ex_are : gmap Z LayoutRecord :=
  list_to_map
    [ (0%Z, ex_reported 100 50 0 0); (1%Z, ex_reported 100 50 0 0);
      (2%Z, ex_reported 35 2 0 0); (3%Z, ex_reported 10 1 0 0);
      (4%Z, ex_reported 20 2 15 0) ].

Definition ex_info : UnittestClientLayoutInfo := mkClientInfo 100 50 ex_are.

(** The records of [ex_row] and its children when the row's width is
    allocated: requested outer widths 10 and 20, the row's inner width 35
    and inner left position 3. *)
Definition ex_store : gmap Z LayoutRecord :=
  list_to_map
    [ (2%Z, setf LeftInViewportInner 3 (setf AllocatedInnerWidth 35 fresh_layout));
      (3%Z, setf RequestedOuterWidth 10 fresh_layout);
      (4%Z, setf RequestedOuterWidth 20 fresh_layout) ].

(** An overlay below the root, and its reported layouts. *)
Definition ex_overlay : Component :=
  Fundamental (ex_attrs 1 Overlay 0) [ex_text3].

Definition ex_overlay_root : Component :=
  HighLevel (ex_attrs 0 HighLevelRootComponent 0) ex_overlay.

Definition ex_overlay_info : UnittestClientLayoutInfo :=
  mkClientInfo 100 50
    (list_to_map
       [ (0%Z, ex_reported 100 50 0 0); (1%Z, ex_reported 0 0 40 30);
         (3%Z, ex_reported 10 1 40 30) ]).

(** Reported layouts for the tree [ex_row] that lack the id 4 and carry
    the unknown id 9. *)
Definition ex_desync_info : UnittestClientLayoutInfo :=
  mkClientInfo 100 50
    (list_to_map
       [ (2%Z, ex_reported 35 2 0 0); (3%Z, ex_reported 10 1 0 0);
         (9%Z, ex_reported 20 2 15 0) ]).

(** The layouter that [create] returns for an example, when it returns
    one. *)
Definition created (root : Component) (info : UnittestClientLayoutInfo)
  : Layouter :=
  match create (S (tree_size root)) root info with
  | Some (Ok layouter) => layouter
  | _ => mkLayouter root 0 0 ∅ ∅
  end.

(** * Properties *)

(** ** Facts about trees *)

Section Component_induction.
Variable P : Component → Prop.
Hypothesis Hnode : ∀ c, Forall P (iter_direct_tree_children c) → P c.

Fixpoint Component_tree_ind (c : Component) : P c :=
  match c with
  | Fundamental a children =>
      Hnode (Fundamental a children)
        ((fix go (l : list Component) : Forall P l :=
            match l with
            | [] => Forall_nil_2 P
            | x :: l' => Forall_cons_2 P x l' (Component_tree_ind x) (go l')
            end) children)
  | HighLevel a b =>
      Hnode (HighLevel a b)
        (Forall_cons_2 P b [] (Component_tree_ind b) (Forall_nil_2 P))
  end.
End Component_induction.

Lemma rev_preorder_unfold c :
  rev_preorder c =
  c :: concat (reverse (rev_preorder <$> iter_direct_tree_children c)).
Proof. destruct c; simpl; [done|]. by rewrite app_nil_r. Qed.

Lemma nodes_unfold c :
  nodes c = c :: concat (nodes <$> iter_direct_tree_children c).
Proof. destruct c; simpl; [done|]. by rewrite app_nil_r. Qed.

Lemma tree_size_unfold c :
  tree_size c = S (list_sum (tree_size <$> iter_direct_tree_children c)).
Proof. destruct c; simpl; [done|]. by rewrite Nat.add_0_r. Qed.

Lemma pop_nil {A} : pop (@nil A) = None.
Proof. done. Qed.

Lemma pop_snoc {A} (l : list A) x : pop (l ++ [x]) = Some (l, x).
Proof. unfold pop. by rewrite reverse_snoc, reverse_involutive. Qed.

Lemma list_snoc_cases {A} (l : list A) : l = [] ∨ ∃ l' x, l = l' ++ [x].
Proof.
  induction l as [|y l IH] using rev_ind; [by left|right; eauto].
Qed.

(** The loop, started on any stack with enough fuel, yields the reversed
    pre-orders of the stacked trees, topmost (last) first. *)
Lemma toposort_loop_spec fuel : ∀ to_do,
  list_sum (tree_size <$> to_do) < fuel →
  toposort_loop fuel to_do =
  Some (concat (rev_preorder <$> reverse to_do)).
Proof.
  induction fuel as [|fuel IH]; intros to_do Hfuel; [lia|].
  destruct (list_snoc_cases to_do) as [->|(l & x & ->)]; [done|].
  simpl. rewrite pop_snoc.
  rewrite fmap_app, list_sum_app in Hfuel. simpl in Hfuel.
  rewrite tree_size_unfold in Hfuel.
  rewrite IH by (rewrite fmap_app, list_sum_app; lia).
  simpl. rewrite reverse_snoc. simpl.
  rewrite reverse_app, fmap_app, concat_app.
  rewrite (rev_preorder_unfold x). simpl.
  by rewrite fmap_reverse.
Qed.

Lemma _get_toposorted_spec fuel root :
  tree_size root < fuel →
  _get_toposorted fuel root = Some (rev_preorder root).
Proof.
  intros Hfuel. unfold _get_toposorted.
  rewrite toposort_loop_spec by (simpl; lia).
  simpl. by rewrite app_nil_r.
Qed.

Lemma concat_Forall_Permutation {A B} (f g : A → list B) l :
  Forall (λ x, f x ≡ₚ g x) l → concat (f <$> l) ≡ₚ concat (g <$> l).
Proof.
  induction 1 as [|x l Hx _ IH]; simpl; [done|]. by rewrite Hx, IH.
Qed.

Lemma concat_reverse_Permutation {A} (l : list (list A)) :
  concat (reverse l) ≡ₚ concat l.
Proof.
  induction l as [|x l IH]; simpl; [done|].
  rewrite reverse_cons, concat_app. simpl.
  rewrite app_nil_r, IH. apply Permutation_app_comm.
Qed.

Lemma rev_preorder_Permutation c : rev_preorder c ≡ₚ nodes c.
Proof.
  induction c as [c IH] using Component_tree_ind.
  rewrite rev_preorder_unfold, nodes_unfold. constructor.
  rewrite concat_reverse_Permutation. by apply concat_Forall_Permutation.
Qed.

Lemma elem_of_concat {A} (x : A) (l : list (list A)) :
  x ∈ concat l ↔ ∃ y, x ∈ y ∧ y ∈ l.
Proof.
  induction l as [|z l IH]; simpl.
  - split; [by intros ?%elem_of_nil|by intros (? & _ & ?%elem_of_nil)].
  - rewrite elem_of_app, IH. split.
    + intros [?|(y & ? & ?)]; [exists z|exists y]; split; auto; by constructor.
    + intros (y & Hx & [->|?]%elem_of_cons); eauto.
Qed.

Lemma elem_of_concat_split {A} (x : list A) (l : list (list A)) :
  x ∈ l → ∃ a b, concat l = a ++ x ++ b.
Proof.
  intros (l1 & l2 & ->)%list_elem_of_split.
  exists (concat l1), (concat l2). by rewrite concat_app.
Qed.

(** The walk of a tree contains the walk of each of its subtrees as a
    contiguous block. *)
Lemma rev_preorder_subtree t : ∀ p,
  p ∈ nodes t → ∃ a b, rev_preorder t = a ++ rev_preorder p ++ b.
Proof.
  induction t as [t IH] using Component_tree_ind. intros p Hp.
  rewrite nodes_unfold in Hp. apply elem_of_cons in Hp as [->|Hp].
  { exists [], []. by rewrite app_nil_r. }
  apply elem_of_concat in Hp as (ns & Hp & Hns).
  apply list_elem_of_fmap in Hns as (c & -> & Hc).
  rewrite Forall_forall in IH.
  destruct (IH c Hc p Hp) as (a & b & Hab).
  assert (rev_preorder c ∈ reverse (rev_preorder <$> iter_direct_tree_children t)) as Hin.
  { apply elem_of_reverse, list_elem_of_fmap. eauto. }
  apply elem_of_concat_split in Hin as (a' & b' & Hcat).
  rewrite rev_preorder_unfold, Hcat, Hab.
  exists (t :: a' ++ a), (b ++ b').
  by repeat (rewrite <- app_assoc || rewrite <- app_comm_cons).
Qed.

Lemma nodes_self c : c ∈ nodes c.
Proof. rewrite nodes_unfold. left. Qed.

Lemma nodes_child p ch :
  ch ∈ iter_direct_tree_children p → ch ∈ nodes p.
Proof.
  intros Hch. rewrite nodes_unfold. right.
  apply elem_of_concat. exists (nodes ch). split; [apply nodes_self|].
  apply list_elem_of_fmap. eauto.
Qed.

Lemma nodes_trans t : ∀ p q, p ∈ nodes t → q ∈ nodes p → q ∈ nodes t.
Proof.
  induction t as [t IH] using Component_tree_ind. intros p q Hp Hq.
  rewrite nodes_unfold in Hp. apply elem_of_cons in Hp as [->|Hp]; [done|].
  apply elem_of_concat in Hp as (ns & Hp & Hns).
  apply list_elem_of_fmap in Hns as (c & -> & Hc).
  rewrite Forall_forall in IH.
  rewrite nodes_unfold. right. apply elem_of_concat.
  exists (nodes c). split; [by eapply IH|]. apply list_elem_of_fmap. eauto.
Qed.

(** A parent is walked before each of its children. *)
Lemma rev_preorder_parent_first t p ch :
  p ∈ nodes t → ch ∈ iter_direct_tree_children p →
  ∃ l1 l2 l3, rev_preorder t = l1 ++ p :: l2 ++ ch :: l3.
Proof.
  intros Hp Hch.
  destruct (rev_preorder_subtree t p Hp) as (a & b & ->).
  assert (rev_preorder ch ∈ reverse (rev_preorder <$> iter_direct_tree_children p)) as Hin.
  { apply elem_of_reverse, list_elem_of_fmap. eauto. }
  apply elem_of_concat_split in Hin as (a' & b' & Hcat).
  rewrite (rev_preorder_unfold p), Hcat, (rev_preorder_unfold ch).
  exists a, a',
    (concat (reverse (rev_preorder <$> iter_direct_tree_children ch)) ++ b' ++ b).
  by repeat (rewrite <- app_assoc || rewrite <- app_comm_cons).
Qed.

(** Of two children of one node, the one declared later is walked
    first. *)
Lemma rev_preorder_siblings_reversed t p cs1 a cs2 b cs3 :
  p ∈ nodes t →
  iter_direct_tree_children p = cs1 ++ a :: cs2 ++ b :: cs3 →
  ∃ l1 l2 l3, rev_preorder t = l1 ++ b :: l2 ++ a :: l3.
Proof.
  intros Hp Hcs.
  destruct (rev_preorder_subtree t p Hp) as (x & y & ->).
  rewrite (rev_preorder_unfold p), Hcs.
  rewrite !fmap_app, !fmap_cons, !fmap_app, !fmap_cons.
  rewrite reverse_app, reverse_cons, reverse_app, reverse_cons.
  rewrite !concat_app. simpl. rewrite !app_nil_r.
  rewrite (rev_preorder_unfold a), (rev_preorder_unfold b).
  exists (x ++ p :: concat (reverse (rev_preorder <$> cs3))),
    (concat (reverse (rev_preorder <$> iter_direct_tree_children b))
     ++ concat (reverse (rev_preorder <$> cs2))),
    (concat (reverse (rev_preorder <$> iter_direct_tree_children a))
     ++ concat (reverse (rev_preorder <$> cs1)) ++ y).
  by repeat (rewrite <- app_assoc || rewrite <- app_comm_cons).
Qed.

(** Of two children of one node, the whole subtree of the one declared
    later is walked before the whole subtree of the other. *)
Lemma rev_preorder_subtrees_reversed t p cs1 a cs2 b cs3 :
  p ∈ nodes t →
  iter_direct_tree_children p = cs1 ++ a :: cs2 ++ b :: cs3 →
  ∃ l1 l2 l3,
    rev_preorder t = l1 ++ rev_preorder b ++ l2 ++ rev_preorder a ++ l3.
Proof.
  intros Hp Hcs.
  destruct (rev_preorder_subtree t p Hp) as (x & y & ->).
  rewrite (rev_preorder_unfold p), Hcs.
  rewrite !fmap_app, !fmap_cons, !fmap_app, !fmap_cons.
  rewrite reverse_app, reverse_cons, reverse_app, reverse_cons.
  rewrite !concat_app. simpl. rewrite !app_nil_r.
  exists (x ++ p :: concat (reverse (rev_preorder <$> cs3))),
    (concat (reverse (rev_preorder <$> cs2))),
    (concat (reverse (rev_preorder <$> cs1)) ++ y).
  by repeat (rewrite <- app_assoc || rewrite <- app_comm_cons).
Qed.

Lemma rev_preorder_subtree_nodes_first t p cs1 a cs2 b cs3 x y :
  p ∈ nodes t →
  iter_direct_tree_children p = cs1 ++ a :: cs2 ++ b :: cs3 →
  x ∈ nodes b → y ∈ nodes a →
  ∃ l1 l2 l3, rev_preorder t = l1 ++ x :: l2 ++ y :: l3.
Proof.
  intros Hp Hcs Hx Hy.
  destruct (rev_preorder_subtrees_reversed t p cs1 a cs2 b cs3 Hp Hcs)
    as (l1 & l2 & l3 & ->).
  rewrite <- (rev_preorder_Permutation b) in Hx.
  rewrite <- (rev_preorder_Permutation a) in Hy.
  apply list_elem_of_split in Hx as (u & v & ->).
  apply list_elem_of_split in Hy as (u' & v' & ->).
  exists (l1 ++ u), (v ++ l2 ++ u'), (v' ++ l3).
  by repeat (rewrite <- app_assoc || rewrite <- app_comm_cons).
Qed.

Lemma concat_fmap_Permutation {A B} (f : A → list B) l l' :
  l ≡ₚ l' → concat (f <$> l) ≡ₚ concat (f <$> l').
Proof.
  induction 1 as [|x l l' _ IH|x y l|l l' l'' _ IH1 _ IH2]; simpl.
  - done.
  - by rewrite IH.
  - rewrite !app_assoc. f_equiv. apply Permutation_app_comm.
  - by rewrite IH1.
Qed.

Lemma nodes_ids_children cs :
  Forall (λ c, cid <$> nodes c ≡ₚ cid c :: concat (child_ids <$> nodes c)) cs →
  cid <$> concat (nodes <$> cs) ≡ₚ
  (cid <$> cs) ++ concat (child_ids <$> concat (nodes <$> cs)).
Proof.
  induction 1 as [|c cs Hc _ IH]; simpl; [done|].
  rewrite !fmap_app, concat_app, Hc, IH. simpl. constructor.
  rewrite !app_assoc. f_equiv; [apply Permutation_app_comm|done].
Qed.

(** Every id of a tree is the root's or that of exactly one child. *)
Lemma nodes_ids_Permutation t :
  cid <$> nodes t ≡ₚ cid t :: concat (child_ids <$> nodes t).
Proof.
  induction t as [t IH] using Component_tree_ind.
  rewrite nodes_unfold. simpl. constructor.
  apply nodes_ids_children in IH. rewrite IH. done.
Qed.

Lemma ids_unique_walk root :
  ids_unique root →
  NoDup (cid <$> rev_preorder root) ∧
  NoDup (cid root :: concat (child_ids <$> rev_preorder root)).
Proof.
  unfold ids_unique. intros Hnd. split.
  - by rewrite rev_preorder_Permutation.
  - erewrite concat_fmap_Permutation by apply rev_preorder_Permutation.
    by rewrite <- nodes_ids_Permutation.
Qed.

(** ** The [result] monad and dictionary accesses *)

Lemma bind_Ok {A B} (m : result A) (f : A → result B) b :
  m ≫= f = Ok b ↔ ∃ a, m = Ok a ∧ f a = Ok b.
Proof.
  split.
  - destruct m; simpl; [eauto|done].
  - by intros (a & -> & ?).
Qed.

Lemma for_each_app {A S} (body : A → S → result S) l1 l2 s :
  for_each body (l1 ++ l2) s = for_each body l1 s ≫= for_each body l2.
Proof.
  revert s. induction l1 as [|x l1 IH]; intros s; simpl; [done|].
  destruct (body x s); simpl; auto.
Qed.

Lemma for_each_split {A S} (body : A → S → result S) l1 x l2 s s' :
  for_each body (l1 ++ x :: l2) s = Ok s' →
  ∃ s1 s2, for_each body l1 s = Ok s1 ∧ body x s1 = Ok s2
           ∧ for_each body l2 s2 = Ok s'.
Proof.
  rewrite for_each_app. intros (s1 & H1 & H2)%bind_Ok. simpl in H2.
  apply bind_Ok in H2 as (s2 & H2 & H3). eauto.
Qed.

Lemma getf_setf_eq f v r : getf f (setf f v r) = v.
Proof. by destruct r, f. Qed.

Lemma getf_setf_ne f g v r : f ≠ g → getf g (setf f v r) = getf g r.
Proof. by destruct r, f, g. Qed.

Lemma getitem_Ok d k r : getitem d k = Ok r ↔ d !! k = Some r.
Proof. unfold getitem. destruct (d !! k); split; congruence. Qed.

Lemma getitem_field d k r f : getitem d k = Ok r → field d k f = Some (getf f r).
Proof. intros H%getitem_Ok. unfold field. by rewrite H. Qed.

Lemma setattr_Ok k f v d d' :
  setattr k f v d = Ok d' ↔
  ∃ r, d !! k = Some r ∧ d' = <[k := setf f v r]> d.
Proof.
  unfold setattr. rewrite bind_Ok. setoid_rewrite getitem_Ok.
  split; intros (r & Hr & Hd); exists r; split; congruence.
Qed.

Lemma setattr_field_eq k f v d d' :
  setattr k f v d = Ok d' → field d' k f = Some v.
Proof.
  intros (r & Hr & ->)%setattr_Ok. unfold field.
  by rewrite lookup_insert_eq; simpl; rewrite getf_setf_eq.
Qed.

Lemma setattr_field_ne k f v d d' j g :
  setattr k f v d = Ok d' → ¬ (j = k ∧ g = f) → field d' j g = field d j g.
Proof.
  intros (r & Hr & ->)%setattr_Ok Hne. unfold field.
  destruct (decide (j = k)) as [->|Hjk].
  - rewrite lookup_insert_eq, Hr. simpl. f_equal. apply getf_setf_ne.
    intros ->. by apply Hne.
  - by rewrite lookup_insert_ne.
Qed.

Lemma setattr_dom k f v d d' :
  setattr k f v d = Ok d' → dom d' = dom d.
Proof.
  intros (r & Hr & ->)%setattr_Ok. rewrite dom_insert_L.
  apply elem_of_dom_2 in Hr. set_solver.
Qed.

(** ** Footprints: which attributes of which records a computation may
    assign *)

Lemma writes_only_mono (W W' : Z → Field → Prop) m :
  (∀ j g, W j g → W' j g) → writes_only W m → writes_only W' m.
Proof. intros HW Hm d d' Hd j g Hn. eapply Hm; eauto. Qed.

Lemma writes_only_ret W : writes_only W Ok.
Proof. intros d d' [= ->]. done. Qed.

Lemma writes_only_setattr (W : Z → Field → Prop) k f v :
  W k f → writes_only W (setattr k f v).
Proof.
  intros HW d d' Hd j g Hn. eapply setattr_field_ne; [done|].
  intros [-> ->]. done.
Qed.

Lemma writes_only_seq W m1 m2 :
  writes_only W m1 → writes_only W m2 →
  writes_only W (λ d, d1 ← m1 d; m2 d1).
Proof.
  intros H1 H2 d d' (d1 & Hd1 & Hd')%bind_Ok j g Hn.
  rewrite (H2 _ _ Hd' j g Hn). by apply (H1 _ _ Hd1).
Qed.

Lemma writes_only_read {A} W (r : gmap Z LayoutRecord → result A) k :
  (∀ a, writes_only W (k a)) →
  writes_only W (λ d, a ← r d; k a d).
Proof. intros Hk d d' (a & _ & Hd')%bind_Ok. by eapply Hk. Qed.

Lemma writes_only_for_each {A} W (body : A → _) l :
  (∀ x, x ∈ l → writes_only W (body x)) →
  writes_only W (for_each body l).
Proof.
  induction l as [|x l IH]; intros Hb; simpl.
  - apply writes_only_ret.
  - apply writes_only_seq.
    + apply Hb. left.
    + apply IH. intros y Hy. apply Hb. by right.
Qed.

Lemma writes_only_for_each_indexed {A} (W : A → Z → Field → Prop)
    (body : A → _) l :
  (∀ x, writes_only (W x) (body x)) →
  writes_only (λ j g, ∃ x, x ∈ l ∧ W x j g) (for_each body l).
Proof.
  intros Hb. apply writes_only_for_each. intros x Hx.
  eapply writes_only_mono; [|apply Hb]. simpl. eauto.
Qed.

(** A property that one iteration establishes and every iteration keeps
    holds after the loop. *)
Lemma for_each_establish {A S} (body : A → S → result S) (P : S → Prop) x l :
  x ∈ l →
  (∀ s s', body x s = Ok s' → P s') →
  (∀ y s s', y ∈ l → P s → body y s = Ok s' → P s') →
  ∀ s s', for_each body l s = Ok s' → P s'.
Proof.
  intros (l1 & l2 & ->)%list_elem_of_split Hx Hkeep s s' Hs.
  apply for_each_split in Hs as (s1 & s2 & _ & H2 & H3).
  apply Hx in H2. clear Hx s s1.
  assert (∀ y, y ∈ l2 → ∀ s s', P s → body y s = Ok s' → P s') as Hk.
  { intros y Hy s0 s0' HP Hb. eapply Hkeep; [|exact HP|exact Hb].
    apply elem_of_app. right. by right. }
  clear Hkeep. revert s2 H2 H3.
  induction l2 as [|y l2 IH]; intros s2 H2 H3; simpl in H3.
  - by injection H3 as <-.
  - apply bind_Ok in H3 as (s3 & Hy & H3).
    eapply IH; [|eapply Hk; [left|exact H2|exact Hy]|exact H3].
    intros z Hz. apply Hk. by right.
Qed.

Lemma setattr_field k f v d d' j g :
  setattr k f v d = Ok d' →
  field d' j g = if decide (j = k ∧ g = f) then Some v else field d j g.
Proof.
  intros H. case_decide as Hd.
  - destruct Hd as [-> ->]. by eapply setattr_field_eq.
  - by eapply setattr_field_ne.
Qed.

(** ** Dispatch *)

Lemma specialized_strategy (mR mC mO mS func : Method) c :
  specialized
    [("Row", mR); ("Column", mC); ("Overlay", mO); ("SingleContainer", mS)]
    func c =
  match strategy_of c with
  | RowStrategy => mR c
  | ColumnStrategy => mC c
  | OverlayStrategy => mO c
  | SingleContainerStrategy => mS c
  | DefaultStrategy => func c
  end.
Proof.
  unfold specialized, strategy_of, getattr.
  repeat case_bool_decide; try done; congruence.
Qed.

(** ** Footprints of the methods *)

Section footprints.
Variable self_root : Component.
Variable self_window_width self_window_height : Q.
Variable self_layouts_are : gmap Z LayoutRecord.

Ltac footprint :=
  repeat first
    [ apply writes_only_ret
    | apply writes_only_setattr
    | apply writes_only_for_each; intros ? ?
    | apply writes_only_seq
    | apply writes_only_read; intros ? ].

Lemma iter_direct_children_subset c ch :
  ch ∈ _iter_direct_children c → ch ∈ iter_direct_tree_children c.
Proof. destruct c; simpl; [done|]. by intros ?%elem_of_nil. Qed.

Lemma content_child c ch :
  content c = Ok ch → ch ∈ iter_direct_tree_children c.
Proof.
  unfold content. intros H. apply iter_direct_children_subset.
  destruct (_iter_direct_children c) as [|x [|y l]]; try done.
  injection H as ->. left.
Qed.

Lemma child_ids_elem c ch :
  ch ∈ iter_direct_tree_children c → cid ch ∈ child_ids c.
Proof. intros H. unfold child_ids. apply list_elem_of_fmap. eauto. Qed.

Lemma max_over_children_writes f g c children :
  writes_only (λ j h, j = cid c ∧ h = f) (max_over_children f g c children).
Proof. unfold max_over_children. footprint. done. Qed.

Lemma pass_on_all_space_writes pos size ip isz c children :
  writes_only (λ j h, j ∈ (cid <$> children) ∧ (h = pos ∨ h = size))
    (pass_on_all_space pos size ip isz c children).
Proof.
  unfold pass_on_all_space. footprint;
    (split; [apply list_elem_of_fmap; eauto|auto]).
Qed.

Lemma place_children_writes pos size inner c children : ∀ ss,
  writes_only (λ j h, j ∈ (cid <$> children) ∧ (h = pos ∨ h = size))
    (place_children pos size inner c children ss).
Proof.
  induction children as [|ch children IH]; intros [|[start sz] ss]; simpl;
    try apply writes_only_ret.
  footprint.
  - split; [left|auto].
  - split; [left|auto].
  - eapply writes_only_mono; [|apply IH]. simpl.
    intros j h [Hj Hh]. split; [by right|done].
Qed.

Lemma _update_natural_width_writes c :
  writes_only (λ j g, j = cid c ∧ g = NaturalWidth)
    (_update_natural_width self_layouts_are c).
Proof.
  unfold _update_natural_width. rewrite specialized_strategy.
  destruct (strategy_of c);
    [ unfold _update_natural_width_Row
    | unfold _update_natural_width_Column
    | unfold _update_natural_width_Overlay
    | unfold _update_natural_width_SingleContainer
    | unfold _update_natural_width_default ];
    footprint; done.
Qed.

Lemma _update_natural_height_writes c :
  writes_only (λ j g, j = cid c ∧ g = NaturalHeight)
    (_update_natural_height self_layouts_are c).
Proof.
  unfold _update_natural_height. rewrite specialized_strategy.
  destruct (strategy_of c);
    [ unfold _update_natural_height_Row
    | unfold _update_natural_height_Column
    | unfold _update_natural_height_Overlay
    | unfold _update_natural_height_SingleContainer
    | unfold _update_natural_height_default ];
    footprint; done.
Qed.

Lemma direct_children_ids c j :
  j ∈ (cid <$> _iter_direct_children c) → j ∈ child_ids c.
Proof.
  intros (ch & -> & Hch)%list_elem_of_fmap.
  by apply child_ids_elem, iter_direct_children_subset.
Qed.

Ltac child_side :=
  split;
  [ first [ by apply child_ids_elem
          | by apply child_ids_elem, iter_direct_children_subset ]
  | auto 6 ].

Lemma _update_allocated_width_writes c :
  writes_only (W_allocated_width c)
    (_update_allocated_width self_window_width self_layouts_are c).
Proof.
  unfold _update_allocated_width. rewrite specialized_strategy.
  destruct (strategy_of c) eqn:Hs; unfold W_allocated_width; rewrite Hs.
  - unfold _update_allocated_width_Row. footprint.
    eapply writes_only_mono; [|apply place_children_writes]. simpl.
    intros j g [Hj Hg]. split; [by apply direct_children_ids|].
    destruct Hg as [->| ->]; auto.
  - unfold _update_allocated_width_Column. footprint; child_side.
  - unfold _update_allocated_width_Overlay.
    intros d d' (ch & Hch & Hd)%bind_Ok. revert d d' Hd.
    apply content_child in Hch.
    change (writes_only
      (λ j g, j ∈ child_ids c ∧ (g = AllocatedOuterWidth
          ∨ g = LeftInViewportOuter ∧ OverlayStrategy ≠ DefaultStrategy))
      (λ d, _ ← getitem d (cid ch);
            should ← setattr (cid ch) LeftInViewportOuter 0%Q d;
            setattr (cid ch) AllocatedOuterWidth self_window_width should)).
    footprint; child_side.
  - unfold _update_allocated_width_SingleContainer. footprint; child_side.
  - unfold _update_allocated_width_default. footprint; child_side.
Qed.

Lemma _update_allocated_height_writes c :
  writes_only (W_allocated_height c)
    (_update_allocated_height self_window_height self_layouts_are c).
Proof.
  unfold _update_allocated_height. rewrite specialized_strategy.
  destruct (strategy_of c) eqn:Hs; unfold W_allocated_height; rewrite Hs.
  - unfold _update_allocated_height_Row. footprint; child_side.
  - unfold _update_allocated_height_Column. footprint.
    eapply writes_only_mono; [|apply place_children_writes]. simpl.
    intros j g [Hj Hg]. split; [by apply direct_children_ids|].
    destruct Hg as [->| ->]; auto.
  - unfold _update_allocated_height_Overlay.
    intros d d' (ch & Hch & Hd)%bind_Ok. revert d d' Hd.
    apply content_child in Hch.
    change (writes_only
      (λ j g, j ∈ child_ids c ∧ (g = AllocatedOuterHeight
          ∨ g = TopInViewportOuter
          ∨ g = LeftInViewportOuter ∧ OverlayStrategy = DefaultStrategy))
      (λ d, _ ← getitem d (cid ch);
            should ← setattr (cid ch) TopInViewportOuter 0%Q d;
            setattr (cid ch) AllocatedOuterHeight self_window_height should)).
    footprint; child_side.
  - unfold _update_allocated_height_SingleContainer. footprint; child_side.
  - unfold _update_allocated_height_default. footprint; child_side.
Qed.
Lemma natural_width_step_writes c :
  writes_only (W_natural_width_step c) (natural_width_step self_layouts_are c).
Proof.
  unfold natural_width_step, W_natural_width_step.
  intros d d' Hd j g Hj.
  transitivity (field (<[cid c := fresh_layout]> d) j g).
  - revert Hd j g Hj. generalize (<[cid c := fresh_layout]> d). revert d'.
    intros d' d0. revert d0 d'.
    change (writes_only (λ j _, j = cid c)
      (λ should0,
         should ← _update_natural_width self_layouts_are c should0;
         layout_should ← getitem should (cid c);
         should1 ← setattr (cid c) RequestedInnerWidth
                     (py_max (natural_width layout_should)
                        (number_or_zero (width (attrs c)))) should;
         layout_should0 ← getitem should1 (cid c);
         setattr (cid c) RequestedOuterWidth
           (requested_inner_width layout_should0
            + _effective_margin_left (attrs c)
            + _effective_margin_right (attrs c))%Q should1)).
    apply writes_only_seq.
    { eapply writes_only_mono; [|apply _update_natural_width_writes].
      by intros ?? [? _]. }
    apply (writes_only_read _ (λ d, getitem d (cid c))). intros lay.
    apply writes_only_seq; [by apply writes_only_setattr|].
    apply (writes_only_read _ (λ d, getitem d (cid c))). intros lay'.
    by apply writes_only_setattr.
  - unfold field. by rewrite lookup_insert_ne.
Qed.

Lemma natural_height_step_writes c :
  writes_only (W_natural_height_step c)
    (natural_height_step self_layouts_are c).
Proof.
  unfold natural_height_step, W_natural_height_step.
  apply writes_only_read. intros _.
  apply writes_only_seq.
  { eapply writes_only_mono; [|apply _update_natural_height_writes].
    intros ?? [? ->]. auto. }
  apply (writes_only_read _ (λ d, getitem d (cid c))). intros lay.
  apply writes_only_seq; [apply writes_only_setattr; auto|].
  apply (writes_only_read _ (λ d, getitem d (cid c))). intros lay'.
  apply writes_only_setattr; auto.
Qed.

Lemma allocated_width_step_writes c :
  writes_only (W_allocated_width_step c)
    (allocated_width_step self_window_width self_layouts_are c).
Proof.
  unfold allocated_width_step, W_allocated_width_step.
  apply writes_only_read. intros lay.
  destruct (calculate_alignment _ _ _ _ _) as [l w].
  apply writes_only_seq; [apply writes_only_setattr; auto|].
  apply writes_only_seq; [apply writes_only_setattr; auto|].
  eapply writes_only_mono; [|apply _update_allocated_width_writes]. auto.
Qed.

Lemma allocated_height_step_writes c :
  writes_only (W_allocated_height_step c)
    (allocated_height_step self_window_height self_layouts_are c).
Proof.
  unfold allocated_height_step, W_allocated_height_step.
  apply writes_only_read. intros lay.
  destruct (calculate_alignment _ _ _ _ _) as [l w].
  apply writes_only_seq; [apply writes_only_setattr; auto|].
  apply writes_only_seq; [apply writes_only_setattr; auto|].
  eapply writes_only_mono; [|apply _update_allocated_height_writes]. auto.
Qed.


(** *** What the default and overlay methods assign *)

Lemma natural_width_step_default c d d' :
  strategy_of c = DefaultStrategy →
  natural_width_step self_layouts_are c d = Ok d' →
  ∃ r, self_layouts_are !! cid c = Some r
       ∧ field d' (cid c) NaturalWidth = Some (natural_width r).
Proof.
  intros Hs. unfold natural_width_step, _update_natural_width.
  rewrite specialized_strategy, Hs. unfold _update_natural_width_default.
  intros (d1 & H1 & H)%bind_Ok.
  apply bind_Ok in H1 as (_ & _ & H1).
  apply bind_Ok in H1 as (r & Hr%getitem_Ok & H1).
  apply bind_Ok in H as (lay & _ & H).
  apply bind_Ok in H as (d2 & H2 & H).
  apply bind_Ok in H as (lay' & _ & H).
  exists r. split; [done|].
  rewrite (setattr_field _ _ _ _ _ _ _ H), decide_False by (by intros [_ ?]).
  rewrite (setattr_field _ _ _ _ _ _ _ H2), decide_False by (by intros [_ ?]).
  by eapply setattr_field_eq.
Qed.

Lemma natural_height_step_default c d d' :
  strategy_of c = DefaultStrategy →
  natural_height_step self_layouts_are c d = Ok d' →
  ∃ r, self_layouts_are !! cid c = Some r
       ∧ field d' (cid c) NaturalHeight = Some (natural_height r).
Proof.
  intros Hs. unfold natural_height_step, _update_natural_height.
  rewrite specialized_strategy, Hs. unfold _update_natural_height_default.
  intros (_ & _ & H)%bind_Ok.
  apply bind_Ok in H as (d1 & H1 & H).
  apply bind_Ok in H1 as (_ & _ & H1).
  apply bind_Ok in H1 as (r & Hr%getitem_Ok & H1).
  apply bind_Ok in H as (lay & _ & H).
  apply bind_Ok in H as (d2 & H2 & H).
  apply bind_Ok in H as (lay' & _ & H).
  exists r. split; [done|].
  rewrite (setattr_field _ _ _ _ _ _ _ H), decide_False by (by intros [_ ?]).
  rewrite (setattr_field _ _ _ _ _ _ _ H2), decide_False by (by intros [_ ?]).
  by eapply setattr_field_eq.
Qed.

Lemma _update_allocated_width_default_child p ch d d' :
  ch ∈ iter_direct_tree_children p →
  _update_allocated_width_default self_layouts_are p d = Ok d' →
  ∃ r, self_layouts_are !! cid ch = Some r
       ∧ field d' (cid ch) AllocatedOuterWidth = Some (allocated_outer_width r).
Proof.
  intros Hch. unfold _update_allocated_width_default. revert d d'.
  apply (for_each_establish _ _ ch); [done|..].
  - intros s s' (_ & _ & H)%bind_Ok.
    apply bind_Ok in H as (r & Hr%getitem_Ok & H).
    exists r. split; [done|]. by eapply setattr_field_eq.
  - intros y s s' _ (r & Hr & Hf) (_ & _ & H)%bind_Ok.
    apply bind_Ok in H as (r' & Hr'%getitem_Ok & H).
    exists r. split; [done|].
    rewrite (setattr_field _ _ _ _ _ _ _ H). case_decide as Heq; [|done].
    destruct Heq as [Heq _]. rewrite <- Heq in Hr'. congruence.
Qed.

Lemma allocated_width_step_default_child p ch d d' :
  strategy_of p = DefaultStrategy →
  ch ∈ iter_direct_tree_children p →
  allocated_width_step self_window_width self_layouts_are p d = Ok d' →
  ∃ r, self_layouts_are !! cid ch = Some r
       ∧ field d' (cid ch) AllocatedOuterWidth = Some (allocated_outer_width r).
Proof.
  intros Hs Hch. unfold allocated_width_step, _update_allocated_width.
  rewrite specialized_strategy, Hs.
  intros (lay & _ & H)%bind_Ok.
  destruct (calculate_alignment _ _ _ _ _) as [l w].
  apply bind_Ok in H as (d1 & _ & H).
  apply bind_Ok in H as (d2 & _ & H).
  by eapply _update_allocated_width_default_child.
Qed.

Lemma _update_allocated_height_default_child p ch d d' :
  ch ∈ iter_direct_tree_children p →
  _update_allocated_height_default self_layouts_are p d = Ok d' →
  ∃ r, self_layouts_are !! cid ch = Some r
       ∧ field d' (cid ch) AllocatedOuterHeight = Some (allocated_outer_height r)
       ∧ field d' (cid ch) LeftInViewportOuter = Some (left_in_viewport_outer r)
       ∧ field d' (cid ch) TopInViewportOuter = Some (top_in_viewport_outer r).
Proof.
  intros Hch. unfold _update_allocated_height_default. revert d d'.
  apply (for_each_establish _ _ ch); [done|..].
  - intros s s' (_ & _ & H)%bind_Ok.
    apply bind_Ok in H as (r & Hr%getitem_Ok & H).
    apply bind_Ok in H as (s1 & H1 & H).
    apply bind_Ok in H as (s2 & H2 & H).
    exists r. split; [done|].
    rewrite !(setattr_field _ _ _ _ _ _ _ H).
    rewrite !(setattr_field _ _ _ _ _ _ _ H2).
    rewrite !(setattr_field _ _ _ _ _ _ _ H1).
    repeat case_decide; naive_solver.
  - intros y s s' _ (r & Hr & Hf1 & Hf2 & Hf3) (_ & _ & H)%bind_Ok.
    apply bind_Ok in H as (r' & Hr'%getitem_Ok & H).
    apply bind_Ok in H as (s1 & H1 & H).
    apply bind_Ok in H as (s2 & H2 & H).
    exists r. split; [done|].
    rewrite !(setattr_field _ _ _ _ _ _ _ H).
    rewrite !(setattr_field _ _ _ _ _ _ _ H2).
    rewrite !(setattr_field _ _ _ _ _ _ _ H1).
    destruct (decide (cid ch = cid y)) as [Heq|Hne].
    + rewrite <- Heq in Hr'. assert (r' = r) as -> by congruence.
      repeat case_decide; naive_solver.
    + repeat case_decide; naive_solver.
Qed.

Lemma allocated_height_step_default_child p ch d d' :
  strategy_of p = DefaultStrategy →
  ch ∈ iter_direct_tree_children p →
  allocated_height_step self_window_height self_layouts_are p d = Ok d' →
  ∃ r, self_layouts_are !! cid ch = Some r
       ∧ field d' (cid ch) AllocatedOuterHeight = Some (allocated_outer_height r)
       ∧ field d' (cid ch) LeftInViewportOuter = Some (left_in_viewport_outer r)
       ∧ field d' (cid ch) TopInViewportOuter = Some (top_in_viewport_outer r).
Proof.
  intros Hs Hch. unfold allocated_height_step, _update_allocated_height.
  rewrite specialized_strategy, Hs.
  intros (lay & _ & H)%bind_Ok.
  destruct (calculate_alignment _ _ _ _ _) as [l w].
  apply bind_Ok in H as (d1 & _ & H).
  apply bind_Ok in H as (d2 & _ & H).
  by eapply _update_allocated_height_default_child.
Qed.

Lemma allocated_width_step_Overlay o ch d d' :
  strategy_of o = OverlayStrategy →
  content o = Ok ch →
  allocated_width_step self_window_width self_layouts_are o d = Ok d' →
  field d' (cid ch) AllocatedOuterWidth = Some self_window_width
  ∧ field d' (cid ch) LeftInViewportOuter = Some 0%Q.
Proof.
  intros Hs Hch. unfold allocated_width_step, _update_allocated_width.
  rewrite specialized_strategy, Hs. unfold _update_allocated_width_Overlay.
  rewrite Hch.
  intros (lay & _ & H)%bind_Ok.
  destruct (calculate_alignment _ _ _ _ _) as [l w].
  apply bind_Ok in H as (d1 & _ & H).
  apply bind_Ok in H as (d2 & _ & H). simpl in H.
  apply bind_Ok in H as (_ & _ & H).
  apply bind_Ok in H as (d3 & H3 & H).
  rewrite !(setattr_field _ _ _ _ _ _ _ H).
  rewrite !(setattr_field _ _ _ _ _ _ _ H3).
  repeat case_decide; naive_solver.
Qed.

Lemma allocated_height_step_Overlay o ch d d' :
  strategy_of o = OverlayStrategy →
  content o = Ok ch →
  allocated_height_step self_window_height self_layouts_are o d = Ok d' →
  field d' (cid ch) AllocatedOuterHeight = Some self_window_height
  ∧ field d' (cid ch) TopInViewportOuter = Some 0%Q.
Proof.
  intros Hs Hch. unfold allocated_height_step, _update_allocated_height.
  rewrite specialized_strategy, Hs. unfold _update_allocated_height_Overlay.
  rewrite Hch.
  intros (lay & _ & H)%bind_Ok.
  destruct (calculate_alignment _ _ _ _ _) as [l w].
  apply bind_Ok in H as (d1 & _ & H).
  apply bind_Ok in H as (d2 & _ & H). simpl in H.
  apply bind_Ok in H as (_ & _ & H).
  apply bind_Ok in H as (d3 & H3 & H).
  rewrite !(setattr_field _ _ _ _ _ _ _ H).
  rewrite !(setattr_field _ _ _ _ _ _ _ H3).
  repeat case_decide; naive_solver.
Qed.

(** The inner left position that the width allocation step derives for
    the component itself. *)
Lemma allocated_width_step_self c d d' :
  ¬ W_allocated_width c (cid c) LeftInViewportInner →
  allocated_width_step self_window_width self_layouts_are c d = Ok d' →
  ∃ lay, d !! cid c = Some lay
    ∧ field d' (cid c) LeftInViewportInner =
      Some (left_in_viewport_outer lay
            + fst (calculate_alignment
                     (allocated_outer_width lay) (requested_inner_width lay)
                     (_effective_margin_left (attrs c))
                     (_effective_margin_right (attrs c))
                     (align_x (attrs c))))%Q.
Proof.
  intros HW. unfold allocated_width_step.
  intros (lay & Hlay%getitem_Ok & H)%bind_Ok.
  exists lay. split; [done|].
  destruct (calculate_alignment _ _ _ _ _) as [l w]. simpl.
  apply bind_Ok in H as (d1 & H1 & H).
  apply bind_Ok in H as (d2 & H2 & H).
  rewrite (_update_allocated_width_writes _ _ _ H _ _ HW).
  rewrite (setattr_field _ _ _ _ _ _ _ H2), decide_False by (by intros [_ ?]).
  by eapply setattr_field_eq.
Qed.

End footprints.

(** ** The walk of a tree with pairwise distinct ids *)

Lemma elem_of_concat_fmap {A B} (f : A → list B) (l : list A) x y :
  x ∈ l → y ∈ f x → y ∈ concat (f <$> l).
Proof.
  intros Hx Hy. apply elem_of_concat. exists (f x). split; [done|].
  apply list_elem_of_fmap. eauto.
Qed.

Lemma walk_split_props root l1 p l2 :
  ids_unique root →
  rev_preorder root = l1 ++ p :: l2 →
  (∀ x, x ∈ l1 ++ l2 → cid x ≠ cid p)
  ∧ (∀ x ch, x ∈ l1 ++ l2 → ch ∈ iter_direct_tree_children p →
       cid ch ∉ child_ids x)
  ∧ (∀ ch, ch ∈ iter_direct_tree_children p → cid ch ≠ cid root).
Proof.
  intros [Hids Hch]%ids_unique_walk HL. rewrite HL in Hids, Hch.
  split; [|split].
  - intros x Hx Heq.
    rewrite fmap_app, fmap_cons in Hids.
    apply NoDup_app in Hids as (_ & Hdisj & [Hp _]%NoDup_cons).
    assert (cid p ∈ cid <$> l1 ∨ cid p ∈ cid <$> l2) as [Hin|Hin].
    { apply elem_of_app in Hx as [Hx|Hx]; [left|right];
        rewrite <- Heq; apply list_elem_of_fmap; eauto. }
    + apply (Hdisj _ Hin). left.
    + done.
  - intros x ch Hx Hc Hin.
    apply NoDup_cons in Hch as [_ Hch].
    rewrite fmap_app, fmap_cons, concat_app in Hch. simpl in Hch.
    apply NoDup_app in Hch as (_ & Hdisj & Hch).
    apply NoDup_app in Hch as (_ & Hdisj' & _).
    apply child_ids_elem in Hc.
    apply elem_of_app in Hx as [Hx|Hx].
    + apply (Hdisj (cid ch)).
      * by eapply (elem_of_concat_fmap child_ids).
      * apply elem_of_app. by left.
    + apply (Hdisj' _ Hc). by eapply (elem_of_concat_fmap child_ids).
  - intros ch Hc Heq.
    apply NoDup_cons in Hch as [Hr _]. apply Hr. rewrite <- Heq.
    apply (elem_of_concat_fmap child_ids _ p).
    + apply elem_of_app. right. left.
    + by apply child_ids_elem.
Qed.

Lemma walk_split root p :
  p ∈ nodes root → ∃ l1 l2, rev_preorder root = l1 ++ p :: l2.
Proof.
  rewrite <- rev_preorder_Permutation. apply list_elem_of_split.
Qed.

(** ** The passes *)

Section passes.
Variable self_root : Component.
Variable self_window_width self_window_height : Q.
Variable self_layouts_are : gmap Z LayoutRecord.

Lemma for_each_locate {A} (W : A → Z → Field → Prop) (body : A → _)
    m1 c m2 d d' :
  (∀ x, writes_only (W x) (body x)) →
  for_each body (m1 ++ c :: m2) d = Ok d' →
  ∃ da db, for_each body m1 d = Ok da ∧ body c da = Ok db
    ∧ (∀ j g, (∀ x, x ∈ m1 → ¬ W x j g) → field da j g = field d j g)
    ∧ (∀ j g, (∀ x, x ∈ m2 → ¬ W x j g) → field d' j g = field db j g).
Proof.
  intros Hw (da & db & H1 & H2 & H3)%for_each_split.
  exists da, db. repeat split; [done..| |]; intros j g Hn.
  - eapply (writes_only_for_each_indexed W body m1 Hw); [done|].
    intros (x & Hx & HW). by eapply Hn.
  - eapply (writes_only_for_each_indexed W body m2 Hw); [done|].
    intros (x & Hx & HW). by eapply Hn.
Qed.

Lemma for_each_frame {A} (W : A → Z → Field → Prop) (body : A → _) l d d' j g :
  (∀ x, writes_only (W x) (body x)) →
  for_each body l d = Ok d' →
  (∀ x, x ∈ l → ¬ W x j g) → field d' j g = field d j g.
Proof.
  intros Hw Hd Hn.
  eapply (writes_only_for_each_indexed W body l Hw); [done|].
  intros (x & Hx & HW). by eapply Hn.
Qed.

Lemma allocated_width_pass_inv l d d' :
  allocated_width_pass self_root self_window_width self_layouts_are l d = Ok d' →
  ∃ d0,
    (∀ j g, ¬ (j = cid self_root
               ∧ (g = LeftInViewportOuter ∨ g = AllocatedOuterWidth)) →
            field d0 j g = field d j g)
    ∧ for_each (allocated_width_step self_window_width self_layouts_are) l d0
      = Ok d'.
Proof.
  unfold allocated_width_pass.
  intros (lay & _ & H)%bind_Ok.
  apply bind_Ok in H as (d1 & H1 & H).
  apply bind_Ok in H as (d2 & H2 & H).
  exists d2. split; [|done]. intros j g Hn.
  rewrite (setattr_field_ne _ _ _ _ _ _ _ H2) by (intros [-> ->]; auto).
  rewrite (setattr_field_ne _ _ _ _ _ _ _ H1) by (intros [-> ->]; auto).
  done.
Qed.

Lemma allocated_height_pass_inv l d d' :
  allocated_height_pass self_root self_window_height self_layouts_are l d = Ok d' →
  ∃ d0,
    (∀ j g, ¬ (j = cid self_root
               ∧ (g = TopInViewportOuter ∨ g = AllocatedOuterHeight)) →
            field d0 j g = field d j g)
    ∧ for_each (allocated_height_step self_window_height self_layouts_are) l d0
      = Ok d'.
Proof.
  unfold allocated_height_pass.
  intros (d1 & H1 & H)%bind_Ok.
  apply bind_Ok in H as (lay & _ & H).
  apply bind_Ok in H as (d2 & H2 & H).
  exists d2. split; [|done]. intros j g Hn.
  rewrite (setattr_field_ne _ _ _ _ _ _ _ H2) by (intros [-> ->]; auto).
  rewrite (setattr_field_ne _ _ _ _ _ _ _ H1) by (intros [-> ->]; auto).
  done.
Qed.

(** Each pass assigns attributes of its own axis and kind only. *)
Lemma allocated_width_pass_fields l d d' j g :
  allocated_width_pass self_root self_window_width self_layouts_are l d = Ok d' →
  g ∉ [LeftInViewportOuter; AllocatedOuterWidth;
       LeftInViewportInner; AllocatedInnerWidth] →
  field d' j g = field d j g.
Proof.
  intros (d0 & Hseed & Hloop)%allocated_width_pass_inv Hg.
  rewrite (for_each_frame _ _ _ _ _ j g
             (allocated_width_step_writes _ _) Hloop).
  - apply Hseed. intros [_ [->| ->]]; apply Hg; set_solver.
  - intros x _ [[_ [->| ->]]|[_ [->|[-> _]]]]; apply Hg; set_solver.
Qed.

Lemma natural_height_pass_fields l d d' j g :
  natural_height_pass self_layouts_are l d = Ok d' →
  g ∉ [NaturalHeight; RequestedInnerHeight; RequestedOuterHeight] →
  field d' j g = field d j g.
Proof.
  unfold natural_height_pass. intros Hloop Hg.
  rewrite (for_each_frame _ _ _ _ _ j g
             (natural_height_step_writes _) Hloop); [done|].
  intros x _ [_ [->|[->| ->]]]; apply Hg; set_solver.
Qed.

Lemma allocated_height_pass_fields l d d' j g :
  allocated_height_pass self_root self_window_height self_layouts_are l d = Ok d' →
  g ∉ [TopInViewportOuter; AllocatedOuterHeight; TopInViewportInner;
       AllocatedInnerHeight; LeftInViewportOuter] →
  field d' j g = field d j g.
Proof.
  intros (d0 & Hseed & Hloop)%allocated_height_pass_inv Hg.
  rewrite (for_each_frame _ _ _ _ _ j g
             (allocated_height_step_writes _ _) Hloop).
  - apply Hseed. intros [_ [->| ->]]; apply Hg; set_solver.
  - intros x _ [[_ [->| ->]]|[_ [->|[->|[-> _]]]]]; apply Hg; set_solver.
Qed.

Lemma _compute_layouts_should_inv l d S :
  _compute_layouts_should self_root self_window_width self_window_height
    self_layouts_are l d = Ok S →
  ∃ d1 d2 d3,
    natural_width_pass self_layouts_are l d = Ok d1
    ∧ allocated_width_pass self_root self_window_width self_layouts_are l d1
      = Ok d2
    ∧ natural_height_pass self_layouts_are l d2 = Ok d3
    ∧ allocated_height_pass self_root self_window_height self_layouts_are l d3
      = Ok S.
Proof.
  unfold _compute_layouts_should.
  intros (d1 & H1 & H)%bind_Ok.
  apply bind_Ok in H as (d2 & H2 & H).
  apply bind_Ok in H as (d3 & H3 & H). eauto 10.
Qed.

End passes.

(** ** The computed layouts of a tree with pairwise distinct ids *)

Section computed.
Variable root : Component.
Variable ww wh : Q.
Variable are : gmap Z LayoutRecord.
Hypothesis Huniq : ids_unique root.

(** An attribute that only the parent's width allocation step assigns to
    a child keeps the value that step gave it. *)
Lemma width_pass_child_field p ch g v d d' :
  p ∈ nodes root → ch ∈ iter_direct_tree_children p →
  g = AllocatedOuterWidth ∨ g = LeftInViewportOuter →
  (∀ s s', allocated_width_step ww are p s = Ok s' →
           field s' (cid ch) g = Some v) →
  allocated_width_pass root ww are (rev_preorder root) d = Ok d' →
  field d' (cid ch) g = Some v.
Proof.
  intros Hp Hch Hg Hest (d0 & _ & Hloop)%allocated_width_pass_inv.
  destruct (walk_split root p Hp) as (l1 & l2 & HL).
  destruct (walk_split_props root l1 p l2 Huniq HL) as (_ & Hdisj & _).
  rewrite HL in Hloop.
  apply (for_each_locate _ _ _ _ _ _ _ (allocated_width_step_writes ww are))
    in Hloop as (da & db & _ & Hstep & _ & Hafter).
  rewrite Hafter; [by eapply Hest|].
  intros x Hx [[_ [->| ->]]|[Hin _]]; [by destruct Hg..|].
  eapply Hdisj; [|done..]. apply elem_of_app. by right.
Qed.

Lemma height_pass_child_field p ch g v d d' :
  p ∈ nodes root → ch ∈ iter_direct_tree_children p →
  g = AllocatedOuterHeight ∨ g = TopInViewportOuter ∨ g = LeftInViewportOuter →
  (∀ s s', allocated_height_step wh are p s = Ok s' →
           field s' (cid ch) g = Some v) →
  allocated_height_pass root wh are (rev_preorder root) d = Ok d' →
  field d' (cid ch) g = Some v.
Proof.
  intros Hp Hch Hg Hest (d0 & _ & Hloop)%allocated_height_pass_inv.
  destruct (walk_split root p Hp) as (l1 & l2 & HL).
  destruct (walk_split_props root l1 p l2 Huniq HL) as (_ & Hdisj & _).
  rewrite HL in Hloop.
  apply (for_each_locate _ _ _ _ _ _ _ (allocated_height_step_writes wh are))
    in Hloop as (da & db & _ & Hstep & _ & Hafter).
  rewrite Hafter; [by eapply Hest|].
  intros x Hx [[_ [->| ->]]|[Hin _]]; [by destruct Hg as [?|[?|?]]..|].
  eapply Hdisj; [|done..]. apply elem_of_app. by right.
Qed.

(** The left position of a child is not assigned during the height
    allocation pass unless its parent runs the default method. *)
Lemma height_pass_left_frame p ch d d' :
  p ∈ nodes root → ch ∈ iter_direct_tree_children p →
  strategy_of p ≠ DefaultStrategy →
  allocated_height_pass root wh are (rev_preorder root) d = Ok d' →
  field d' (cid ch) LeftInViewportOuter = field d (cid ch) LeftInViewportOuter.
Proof.
  intros Hp Hch Hs (d0 & Hseed & Hloop)%allocated_height_pass_inv.
  destruct (walk_split root p Hp) as (l1 & l2 & HL).
  destruct (walk_split_props root l1 p l2 Huniq HL) as (_ & Hdisj & _).
  rewrite (for_each_frame _ _ _ _ _ (cid ch) LeftInViewportOuter
             (allocated_height_step_writes wh are) Hloop).
  - apply Hseed. by intros [_ [?|?]].
  - intros x Hx [[_ [?|?]]|[Hin [?|[?|[_ Hdef]]]]]; try done.
    rewrite HL in Hx.
    apply elem_of_app in Hx as [Hx|[->|Hx]%elem_of_cons]; [|done|].
    + eapply Hdisj; [|done..]. apply elem_of_app. by left.
    + eapply Hdisj; [|done..]. apply elem_of_app. by right.
Qed.

(** An attribute of its own record that only a component's own step of a
    bottom-up pass assigns keeps the value that step gave it. *)
Lemma natural_width_pass_self_field c g v d d' :
  c ∈ nodes root →
  (∀ s s', natural_width_step are c s = Ok s' → field s' (cid c) g = Some v) →
  natural_width_pass are (rev_preorder root) d = Ok d' →
  field d' (cid c) g = Some v.
Proof.
  intros Hc Hest Hloop. unfold natural_width_pass in Hloop.
  destruct (walk_split root c Hc) as (l1 & l2 & HL).
  destruct (walk_split_props root l1 c l2 Huniq HL) as (Hne & _ & _).
  rewrite HL, reverse_app, reverse_cons, <- app_assoc in Hloop.
  simpl in Hloop.
  apply (for_each_locate _ _ _ _ _ _ _ (natural_width_step_writes are))
    in Hloop as (da & db & _ & Hstep & _ & Hafter).
  rewrite Hafter; [by eapply Hest|].
  intros x Hx Heq. rewrite elem_of_reverse in Hx.
  unfold W_natural_width_step in Heq.
  eapply Hne; [|symmetry; exact Heq]. apply elem_of_app. by left.
Qed.

Lemma natural_height_pass_self_field c g v d d' :
  c ∈ nodes root →
  (∀ s s', natural_height_step are c s = Ok s' → field s' (cid c) g = Some v) →
  natural_height_pass are (rev_preorder root) d = Ok d' →
  field d' (cid c) g = Some v.
Proof.
  intros Hc Hest Hloop. unfold natural_height_pass in Hloop.
  destruct (walk_split root c Hc) as (l1 & l2 & HL).
  destruct (walk_split_props root l1 c l2 Huniq HL) as (Hne & _ & _).
  rewrite HL, reverse_app, reverse_cons, <- app_assoc in Hloop.
  simpl in Hloop.
  apply (for_each_locate _ _ _ _ _ _ _ (natural_height_step_writes are))
    in Hloop as (da & db & _ & Hstep & _ & Hafter).
  rewrite Hafter; [by eapply Hest|].
  intros x Hx [Heq _]. rewrite elem_of_reverse in Hx.
  eapply Hne; [|symmetry; exact Heq]. apply elem_of_app. by left.
Qed.

Ltac other_field := (intro; set_solver).

(** The natural sizes of a component without a specialized method are
    the reported ones. *)
Lemma computed_natural_default c d S :
  _compute_layouts_should root ww wh are (rev_preorder root) d = Ok S →
  c ∈ nodes root → strategy_of c = DefaultStrategy →
  ∃ r, are !! cid c = Some r
    ∧ field S (cid c) NaturalWidth = Some (natural_width r)
    ∧ field S (cid c) NaturalHeight = Some (natural_height r).
Proof.
  intros Hrun Hc Hs.
  apply _compute_layouts_should_inv in Hrun
    as (d1 & d2 & d3 & H1 & H2 & H3 & H4).
  assert (∃ r, are !! cid c = Some r) as [r Hr].
  { unfold natural_width_pass in H1.
    destruct (walk_split root c Hc) as (l1 & l2 & HL).
    rewrite HL, reverse_app, reverse_cons, <- app_assoc in H1.
    apply for_each_split in H1 as (? & ? & _ & Hstep & _).
    apply natural_width_step_default in Hstep as (r & ? & _); eauto. }
  exists r. split; [done|]. split.
  - rewrite (allocated_height_pass_fields _ _ _ _ _ _ _ _ H4) by other_field.
    rewrite (natural_height_pass_fields _ _ _ _ _ _ H3) by other_field.
    rewrite (allocated_width_pass_fields _ _ _ _ _ _ _ _ H2) by other_field.
    eapply natural_width_pass_self_field; [done| |done].
    intros s s' (r' & Hr' & ->)%natural_width_step_default; [|done].
    congruence.
  - rewrite (allocated_height_pass_fields _ _ _ _ _ _ _ _ H4) by other_field.
    eapply natural_height_pass_self_field; [done| |done].
    intros s s' (r' & Hr' & ->)%natural_height_step_default; [|done].
    congruence.
Qed.
(** The allocation of the children of a component without a specialized
    method is the reported one. *)
Lemma computed_children_default p ch d S :
  _compute_layouts_should root ww wh are (rev_preorder root) d = Ok S →
  p ∈ nodes root → strategy_of p = DefaultStrategy →
  ch ∈ iter_direct_tree_children p →
  ∃ r, are !! cid ch = Some r
    ∧ field S (cid ch) AllocatedOuterWidth = Some (allocated_outer_width r)
    ∧ field S (cid ch) AllocatedOuterHeight = Some (allocated_outer_height r)
    ∧ field S (cid ch) LeftInViewportOuter = Some (left_in_viewport_outer r)
    ∧ field S (cid ch) TopInViewportOuter = Some (top_in_viewport_outer r).
Proof.
  intros Hrun Hp Hs Hch.
  apply _compute_layouts_should_inv in Hrun
    as (d1 & d2 & d3 & H1 & H2 & H3 & H4).
  assert (∃ r, are !! cid ch = Some r) as [r Hr].
  { apply allocated_width_pass_inv in H2 as (d0 & _ & Hloop).
    destruct (walk_split root p Hp) as (l1 & l2 & HL). rewrite HL in Hloop.
    apply for_each_split in Hloop as (? & ? & _ & Hstep & _).
    eapply allocated_width_step_default_child in Hstep as (r & ? & _); eauto. }
  exists r. split; [done|]. repeat split.
  - rewrite (allocated_height_pass_fields _ _ _ _ _ _ _ _ H4) by other_field.
    rewrite (natural_height_pass_fields _ _ _ _ _ _ H3) by other_field.
    eapply width_pass_child_field; [done|done|by left| |done].
    intros s s' Hstep.
    eapply allocated_width_step_default_child in Hstep as (r' & Hr' & ->);
      [congruence|done..].
  - eapply height_pass_child_field; [done|done|by left| |done].
    intros s s' Hstep.
    eapply allocated_height_step_default_child in Hstep
      as (r' & Hr' & -> & _); [congruence|done..].
  - eapply height_pass_child_field; [done|done|by right; right| |done].
    intros s s' Hstep.
    eapply allocated_height_step_default_child in Hstep
      as (r' & Hr' & _ & -> & _); [congruence|done..].
  - eapply height_pass_child_field; [done|done|by right; left| |done].
    intros s s' Hstep.
    eapply allocated_height_step_default_child in Hstep
      as (r' & Hr' & _ & _ & ->); [congruence|done..].
Qed.

(** The child of an overlay gets the window, at the origin. *)
Lemma computed_overlay_child o ch d S :
  _compute_layouts_should root ww wh are (rev_preorder root) d = Ok S →
  o ∈ nodes root → strategy_of o = OverlayStrategy → content o = Ok ch →
  field S (cid ch) AllocatedOuterWidth = Some ww
  ∧ field S (cid ch) LeftInViewportOuter = Some 0%Q
  ∧ field S (cid ch) AllocatedOuterHeight = Some wh
  ∧ field S (cid ch) TopInViewportOuter = Some 0%Q.
Proof.
  intros Hrun Ho Hs Hcontent.
  pose proof (content_child _ _ Hcontent) as Hch.
  apply _compute_layouts_should_inv in Hrun
    as (d1 & d2 & d3 & H1 & H2 & H3 & H4).
  repeat split.
  - rewrite (allocated_height_pass_fields _ _ _ _ _ _ _ _ H4) by other_field.
    rewrite (natural_height_pass_fields _ _ _ _ _ _ H3) by other_field.
    eapply width_pass_child_field; [done|done|by left| |done].
    intros s s' Hstep.
    by eapply allocated_width_step_Overlay in Hstep as [-> _].
  - rewrite (height_pass_left_frame o ch _ _ Ho Hch) by (done || congruence).
    rewrite (natural_height_pass_fields _ _ _ _ _ _ H3) by other_field.
    eapply width_pass_child_field; [done|done|by right| |done].
    intros s s' Hstep.
    by eapply allocated_width_step_Overlay in Hstep as [_ ->].
  - eapply height_pass_child_field; [done|done|by left| |done].
    intros s s' Hstep.
    by eapply allocated_height_step_Overlay in Hstep as [-> _].
  - eapply height_pass_child_field; [done|done|by right; left| |done].
    intros s s' Hstep.
    by eapply allocated_height_step_Overlay in Hstep as [_ ->].
Qed.

(** After its natural width step, the attributes of a component other than
    the natural and requested widths hold the sentinel. *)
Lemma natural_width_step_fresh c g s s' :
  g ∉ [NaturalWidth; RequestedInnerWidth; RequestedOuterWidth] →
  natural_width_step are c s = Ok s' →
  field s' (cid c) g = Some sentinel.
Proof.
  intros Hg. unfold natural_width_step.
  intros (d1 & H1 & H)%bind_Ok.
  apply bind_Ok in H as (lay & _ & H).
  apply bind_Ok in H as (d2 & H2 & H).
  apply bind_Ok in H as (lay' & _ & H).
  rewrite (setattr_field_ne _ _ _ _ _ _ _ H)
    by (intros [_ ->]; apply Hg; set_solver).
  rewrite (setattr_field_ne _ _ _ _ _ _ _ H2)
    by (intros [_ ->]; apply Hg; set_solver).
  rewrite (_update_natural_width_writes _ _ _ _ H1)
    by (intros [_ ->]; apply Hg; set_solver).
  unfold field. rewrite lookup_insert_eq. by destruct g.
Qed.

Lemma field_Some d j g v :
  field d j g = Some v ↔ ∃ r, d !! j = Some r ∧ getf g r = v.
Proof.
  unfold field. destruct (d !! j) as [r|]; simpl; split.
  - intros [= <-]. eauto.
  - intros (r' & [= <-] & <-). done.
  - done.
  - by intros (? & ? & _).
Qed.

(** The inner left position of a child of a component without a
    specialized method: derived, in the width allocation pass, from an
    outer left position that is still the sentinel. *)
Lemma computed_left_inner_default_child p ch d S :
  _compute_layouts_should root ww wh are (rev_preorder root) d = Ok S →
  p ∈ nodes root → strategy_of p = DefaultStrategy →
  ch ∈ iter_direct_tree_children p →
  ∃ lay, S !! cid ch = Some lay
    ∧ left_in_viewport_inner lay =
      (sentinel
       + fst (calculate_alignment
                (allocated_outer_width lay) (requested_inner_width lay)
                (_effective_margin_left (attrs ch))
                (_effective_margin_right (attrs ch))
                (align_x (attrs ch))))%Q.
Proof.
  intros Hrun Hp Hs Hch.
  apply _compute_layouts_should_inv in Hrun
    as (d1 & d2 & d3 & H1 & H2 & H3 & H4).
  assert (ch ∈ nodes root) as Hchn.
  { eapply nodes_trans; [done|]. by apply nodes_child. }
  destruct (rev_preorder_parent_first root p ch Hp Hch) as (l1 & l2 & l3 & HL).
  destruct (walk_split_props root l1 p (l2 ++ ch :: l3) Huniq HL)
    as (_ & Hdisj & Hroot).
  assert (rev_preorder root = (l1 ++ p :: l2) ++ ch :: l3) as HL'.
  { rewrite HL. by rewrite <- app_assoc. }
  destruct (walk_split_props root _ ch l3 Huniq HL') as (Hne & _ & _).
  (* 1. the outer left position after the first pass *)
  assert (field d1 (cid ch) LeftInViewportOuter = Some sentinel) as Hlo1.
  { eapply natural_width_pass_self_field; [done| |done].
    intros s s'. apply natural_width_step_fresh. set_solver. }
  (* 2. the width allocation pass *)
  pose proof H2 as H2'.
  apply allocated_width_pass_inv in H2 as (d0 & Hseed & Hloop).
  rewrite HL' in Hloop.
  apply (for_each_locate _ _ _ _ _ _ _ (allocated_width_step_writes ww are))
    in Hloop as (da & db & _ & Hstep & Hbefore & Hafter).
  assert (field da (cid ch) LeftInViewportOuter = Some sentinel) as Hloa.
  { rewrite Hbefore.
    - rewrite Hseed; [done|]. intros [Heq _]. by eapply Hroot.
    - intros x Hx [[_ [?|?]]|[Hin [?|[_ Hnd]]]]; try done.
      apply elem_of_app in Hx as [Hx|[->|Hx]%elem_of_cons]; [|done|].
      + eapply Hdisj; [|done..]. apply elem_of_app. by left.
      + eapply Hdisj; [|done..]. apply elem_of_app. right.
        apply elem_of_app. by left. }
  pose proof Hstep as Hself.
  apply allocated_width_step_self in Hself as (lay0 & Hlay0 & Hli);
    [|by intros [_ [?|[? _]]]].
  assert (left_in_viewport_outer lay0 = sentinel) as Hlo0.
  { apply field_Some in Hloa as (r & Hr & Hg). simpl in Hg. congruence. }
  rewrite Hlo0 in Hli.
  (* 3. nothing assigns the attributes involved afterwards *)
  assert (field S (cid ch) LeftInViewportInner
          = field db (cid ch) LeftInViewportInner) as HfLI.
  { rewrite (allocated_height_pass_fields _ _ _ _ _ _ _ _ H4) by other_field.
    rewrite (natural_height_pass_fields _ _ _ _ _ _ H3) by other_field.
    apply Hafter. intros x Hx [[Heq _]|[_ [?|[? _]]]]; try done.
    eapply Hne; [|symmetry; exact Heq]. apply elem_of_app. by right. }
  assert (field S (cid ch) AllocatedOuterWidth
          = field da (cid ch) AllocatedOuterWidth) as HfAOW.
  { rewrite (allocated_height_pass_fields _ _ _ _ _ _ _ _ H4) by other_field.
    rewrite (natural_height_pass_fields _ _ _ _ _ _ H3) by other_field.
    rewrite Hafter.
    - apply (allocated_width_step_writes ww are ch _ _ Hstep).
      intros [[_ [?|?]]|[Hin _]]; try done.
      eapply (Hdisj ch ch); [|done..]. apply elem_of_app. right.
      apply elem_of_app. right. left.
    - intros x Hx [[_ [?|?]]|[Hin _]]; try done.
      eapply Hdisj; [|done..]. apply elem_of_app. right.
      apply elem_of_app. right. by right. }
  assert (field S (cid ch) RequestedInnerWidth
          = field da (cid ch) RequestedInnerWidth) as HfRIW.
  { rewrite (allocated_height_pass_fields _ _ _ _ _ _ _ _ H4) by other_field.
    rewrite (natural_height_pass_fields _ _ _ _ _ _ H3) by other_field.
    rewrite Hafter by (intros x Hx [[_ [?|?]]|[_ [?|[? _]]]]; done).
    apply (allocated_width_step_writes ww are ch _ _ Hstep).
    by intros [[_ [?|?]]|[_ [?|[? _]]]]. }
  rewrite Hli in HfLI.
  apply field_Some in HfLI as (lay & Hlay & HLI). exists lay. split; [done|].
  unfold field in HfAOW, HfRIW. rewrite Hlay, Hlay0 in HfAOW, HfRIW.
  simpl in HfAOW, HfRIW, HLI.
  injection HfAOW as ->. injection HfRIW as ->. done.
Qed.

End computed.

(** ** The pure functions *)

Lemma allocated_sizes_loop sizes spacing : ∀ cur_x acc,
  snd (fold_left
         (fun '(cur_x, starts_and_sizes) child_requested_size =>
            ((cur_x + (child_requested_size + spacing))%Q,
             starts_and_sizes ++ [(cur_x, child_requested_size)]))
         sizes (cur_x, acc))
  = acc ++ placements cur_x sizes spacing.
Proof.
  induction sizes as [|sz sizes IH]; intros cur_x acc; simpl.
  - by rewrite app_nil_r.
  - rewrite IH. by rewrite <- app_assoc.
Qed.

Lemma allocated_sizes_None a sizes spacing :
  _linear_container_get_major_axis_allocated_sizes a sizes spacing None
  = Ok (placements 0%Q sizes spacing).
Proof.
  unfold _linear_container_get_major_axis_allocated_sizes.
  by rewrite allocated_sizes_loop.
Qed.

Lemma placements_length cur sizes spacing :
  length (placements cur sizes spacing) = length sizes.
Proof. revert cur. induction sizes; intros; simpl; auto. Qed.

Lemma placements_size sizes spacing : ∀ cur i sz,
  sizes !! i = Some sz →
  ∃ start, placements cur sizes spacing !! i = Some (start, sz).
Proof.
  induction sizes as [|s sizes IH]; intros cur [|i] sz Hi; simpl in *;
    try done.
  - injection Hi as ->. eauto.
  - by apply IH.
Qed.

Lemma placements_next sizes spacing : ∀ cur i start sz start' sz',
  placements cur sizes spacing !! i = Some (start, sz) →
  placements cur sizes spacing !! S i = Some (start', sz') →
  start' = (start + (sz + spacing))%Q.
Proof.
  induction sizes as [|s sizes IH]; intros cur [|i] start sz start' sz' H1 H2;
    simpl in *; try done.
  - injection H1 as <- <-. destruct sizes; simpl in *; [done|].
    by injection H2 as <- _.
  - by eapply IH.
Qed.

Lemma fold_left_Qplus l : ∀ acc, (fold_left Qplus l acc == acc + Qsum l)%Q.
Proof.
  induction l as [|x l IH]; intros acc; simpl.
  - ring.
  - rewrite IH. unfold Qsum. simpl. ring.
Qed.

Lemma natural_size_sum sizes spacing :
  (_linear_container_get_major_axis_natural_size sizes spacing
   == Qsum sizes + spacing * inject_Z (Z.of_nat (length sizes) - 1))%Q.
Proof.
  unfold _linear_container_get_major_axis_natural_size.
  rewrite fold_left_Qplus. ring.
Qed.

(** ** The loops of the linear containers *)

Lemma getitem_Some d k r : d !! k = Some r → getitem d k = Ok r.
Proof. by intros ?%getitem_Ok. Qed.

Lemma setattr_Some k f v d r :
  d !! k = Some r → setattr k f v d = Ok (<[k := setf f v r]> d).
Proof. intros H. apply setattr_Ok. eauto. Qed.

Lemma setattr_is_Some k f v d d' j :
  setattr k f v d = Ok d' → is_Some (d' !! j) ↔ is_Some (d !! j).
Proof. intros H%setattr_dom. by rewrite <- !elem_of_dom, H. Qed.

Lemma collect_spec f d children :
  (∀ ch, ch ∈ children → is_Some (d !! cid ch)) →
  ∃ sizes, collect f d children = Ok sizes
           ∧ Forall2 (has_field f d) children sizes.
Proof.
  induction children as [|ch children IH]; intros Hall; simpl.
  - exists []. by split.
  - destruct (Hall ch) as [r Hr]; [left|].
    destruct IH as (sizes & -> & HF); [intros; apply Hall; by right|].
    rewrite (getitem_Some _ _ _ Hr). simpl.
    exists (getf f r :: sizes). split; [done|]. constructor; [|done].
    unfold has_field, field. by rewrite Hr.
Qed.

Lemma place_children_spec pos size inner c :
  pos ≠ inner → size ≠ inner → pos ≠ size →
  ∀ children ss d v,
    NoDup (cid <$> children) →
    length ss = length children →
    field d (cid c) inner = Some v →
    (∀ ch, ch ∈ children → is_Some (d !! cid ch)) →
    ∃ d', place_children pos size inner c children ss d = Ok d'
      ∧ ∀ i ch st sz,
          children !! i = Some ch → ss !! i = Some (st, sz) →
          field d' (cid ch) pos = Some (v + st)%Q
          ∧ field d' (cid ch) size = Some sz.
Proof.
  intros Hpi Hsi Hps.
  induction children as [|ch children IH];
    intros [|[st sz] ss] d v Hnd Hlen Hv Hall; simpl in *; try done.
  { exists d. split; [done|]. intros i ?; by destruct i. }
  apply NoDup_cons in Hnd as [Hnotin Hnd].
  destruct (Hall ch) as [r Hr]; [left|].
  rewrite (getitem_Some _ _ _ Hr). simpl.
  apply field_Some in Hv as (lay & Hlay & Hget).
  rewrite (getitem_Some _ _ _ Hlay). simpl.
  pose proof (setattr_Some (cid ch) pos (getf inner lay + st)%Q d r Hr) as H1.
  rewrite H1. simpl.
  set (d1 := <[cid ch := setf pos (getf inner lay + st)%Q r]> d) in *.
  assert (is_Some (d1 !! cid ch)) as [r1 Hr1].
  { apply (setattr_is_Some _ _ _ _ _ _ H1). eauto. }
  pose proof (setattr_Some (cid ch) size sz d1 r1 Hr1) as H2.
  rewrite H2. simpl.
  set (d2 := <[cid ch := setf size sz r1]> d1) in *.
  destruct (IH ss d2 v) as (d' & Hd' & Hplaced); [done|lia| |  |].
  { rewrite (setattr_field_ne _ _ _ _ _ _ _ H2) by (intros [_ ?]; done).
    rewrite (setattr_field_ne _ _ _ _ _ _ _ H1) by (intros [_ ?]; done).
    unfold field. rewrite Hlay. simpl. by rewrite Hget. }
  { intros ch' Hch'.
    apply (setattr_is_Some _ _ _ _ _ _ H2), (setattr_is_Some _ _ _ _ _ _ H1).
    apply Hall. by right. }
  exists d'. split; [done|].
  intros [|i] ch' st' sz' Hi Hs; simpl in *.
  - injection Hi as <-. injection Hs as <- <-.
    assert (∀ g, g = pos ∨ g = size →
                 field d' (cid ch) g = field d2 (cid ch) g) as Hframe.
    { intros g Hg.
      eapply (place_children_writes pos size inner c children ss); [done|].
      by intros [? _]. }
    rewrite !Hframe by auto.
    rewrite !(setattr_field _ _ _ _ _ _ _ H2).
    rewrite !(setattr_field _ _ _ _ _ _ _ H1).
    rewrite Hget. repeat case_decide; naive_solver.
  - by eapply Hplaced.
Qed.

Lemma placements_sequential sizes spacing :
  sequential_starts spacing sizes (fst <$> placements 0%Q sizes spacing).
Proof.
  split; [|split].
  - by rewrite length_fmap, placements_length.
  - destruct sizes; simpl; [done|]. by intros ? [= <-].
  - intros i start sz start' H1 Hsz H2.
    rewrite list_lookup_fmap in H1, H2.
    destruct (placements_size sizes spacing 0%Q i sz Hsz) as [st Hst].
    rewrite Hst in H1. simpl in H1. injection H1 as <-.
    destruct (placements 0%Q sizes spacing !! S i) as [[st' sz']|] eqn:Hst';
      simpl in H2; [|done].
    injection H2 as <-. by eapply placements_next.
Qed.

Lemma linear_allocation_spec pos size inner innersz req c d lay :
  pos ≠ inner → size ≠ inner → pos ≠ size →
  proportions (attrs c) = None →
  d !! cid c = Some lay →
  NoDup (cid <$> _iter_direct_children c) →
  (∀ ch, ch ∈ _iter_direct_children c → is_Some (d !! cid ch)) →
  ∃ d' sizes starts,
    (layout ← getitem d (cid c);
     child_sizes ← collect req d (_iter_direct_children c);
     starts_and_sizes ←
       _linear_container_get_major_axis_allocated_sizes
         (getf innersz layout) child_sizes
         (spacing (attrs c)) (proportions (attrs c));
     place_children pos size inner c (_iter_direct_children c)
       starts_and_sizes d) = Ok d'
    ∧ Forall2 (has_field req d) (_iter_direct_children c) sizes
    ∧ sequential_starts (spacing (attrs c)) sizes starts
    ∧ ∀ i ch, _iter_direct_children c !! i = Some ch →
        ∃ start sz, starts !! i = Some start ∧ sizes !! i = Some sz
          ∧ field d' (cid ch) pos = Some (getf inner lay + start)%Q
          ∧ field d' (cid ch) size = Some sz.
Proof.
  intros Hpi Hsi Hps Hprop Hlay Hnd Hall.
  destruct (collect_spec req d _ Hall) as (sizes & Hcollect & HF).
  pose proof (Forall2_length _ _ _ HF) as Hlen.
  destruct (place_children_spec pos size inner c Hpi Hsi Hps
              (_iter_direct_children c)
              (placements 0%Q sizes (spacing (attrs c))) d (getf inner lay))
    as (d' & Hplace & Hplaced); [done| | |done|].
  { by rewrite placements_length. }
  { unfold field. by rewrite Hlay. }
  exists d', sizes, (fst <$> placements 0%Q sizes (spacing (attrs c))).
  split; [|split; [done|split; [apply placements_sequential|]]].
  - rewrite (getitem_Some _ _ _ Hlay). simpl. rewrite Hcollect. simpl.
    rewrite Hprop, allocated_sizes_None. done.
  - intros i ch Hi.
    destruct (Forall2_lookup_l _ _ _ _ _ HF Hi) as (sz & Hsz & _).
    destruct (placements_size sizes (spacing (attrs c)) 0%Q i sz Hsz)
      as [st Hst].
    exists st, sz. rewrite list_lookup_fmap, Hst. repeat split; try done.
    all: by eapply Hplaced.
Qed.

(** ** Which exceptions the methods raise *)

Lemma raises_only_Ok {A} E (a : A) : raises_only E (Ok a).
Proof. by intros e. Qed.

Lemma raises_only_mono {A} (E E' : PyError → Prop) (r : result A) :
  (∀ e, E e → E' e) → raises_only E r → raises_only E' r.
Proof. intros HE Hr e He. by apply HE, Hr. Qed.

Lemma raises_only_bind {A B} E (m : result A) (f : A → result B) :
  raises_only E m → (∀ a, raises_only E (f a)) → raises_only E (m ≫= f).
Proof.
  intros Hm Hf e. destruct m as [a|e']; simpl.
  - apply Hf.
  - intros [= <-]. by apply Hm.
Qed.

Lemma raises_only_for_each {A S} E (body : A → S → result S) l :
  (∀ x s, raises_only E (body x s)) → ∀ s, raises_only E (for_each body l s).
Proof.
  intros Hb. induction l as [|x l IH]; intros s; simpl.
  - apply raises_only_Ok.
  - apply raises_only_bind; auto.
Qed.

Lemma getitem_raises d k : raises_only is_KeyError (getitem d k).
Proof. unfold getitem. destruct (d !! k); intros e [= <-]. done. Qed.

Lemma setattr_raises k f v d : raises_only is_KeyError (setattr k f v d).
Proof.
  unfold setattr. apply raises_only_bind; [apply getitem_raises|].
  intros r. apply raises_only_Ok.
Qed.

Lemma collect_raises f d children :
  raises_only is_KeyError (collect f d children).
Proof.
  induction children as [|ch children IH]; simpl; [apply raises_only_Ok|].
  apply raises_only_bind; [apply getitem_raises|]. intros r.
  apply raises_only_bind; [done|]. intros sizes. apply raises_only_Ok.
Qed.

Ltac raises :=
  repeat first
    [ apply raises_only_Ok
    | apply getitem_raises
    | apply setattr_raises
    | apply collect_raises
    | apply raises_only_for_each; intros ? ?
    | apply raises_only_bind; [|intros ?] ].

Lemma place_children_raises pos size inner c children : ∀ ss d,
  raises_only is_KeyError (place_children pos size inner c children ss d).
Proof.
  induction children as [|ch children IH]; intros [|[st sz] ss] d; simpl;
    try apply raises_only_Ok.
  raises. apply IH.
Qed.

Lemma max_over_children_raises f g c children d :
  raises_only is_KeyError (max_over_children f g c children d).
Proof. unfold max_over_children. raises. Qed.

Lemma pass_on_all_space_raises pos size ip isz c children d :
  raises_only is_KeyError (pass_on_all_space pos size ip isz c children d).
Proof. unfold pass_on_all_space. raises. Qed.

Lemma allocated_sizes_raises a sizes sp p :
  raises_only not_AssertionError
    (_linear_container_get_major_axis_allocated_sizes a sizes sp p).
Proof. destruct p; intros e [= <-]; done. Qed.

Lemma is_KeyError_not_AssertionError e : is_KeyError e → not_AssertionError e.
Proof. by destruct e. Qed.

Lemma content_raises c : raises_only not_AssertionError (content c).
Proof.
  unfold content. destruct (_iter_direct_children c) as [|? [|? ?]];
    intros e [= <-]; done.
Qed.

Ltac raises_weak :=
  repeat first
    [ apply raises_only_Ok
    | apply allocated_sizes_raises
    | apply content_raises
    | apply (raises_only_mono is_KeyError);
        [ apply is_KeyError_not_AssertionError
        | first [ apply getitem_raises | apply setattr_raises
                | apply collect_raises | apply place_children_raises
                | apply max_over_children_raises
                | apply pass_on_all_space_raises ] ]
    | apply raises_only_for_each; intros ? ?
    | apply raises_only_bind; [|intros ?] ].

Section raises.
Variable self_root : Component.
Variable self_window_width self_window_height : Q.
Variable self_layouts_are : gmap Z LayoutRecord.

Lemma _update_natural_width_raises c d :
  raises_only not_AssertionError (_update_natural_width self_layouts_are c d).
Proof.
  unfold _update_natural_width. rewrite specialized_strategy.
  destruct (strategy_of c);
    [ unfold _update_natural_width_Row
    | unfold _update_natural_width_Column
    | unfold _update_natural_width_Overlay
    | unfold _update_natural_width_SingleContainer
    | unfold _update_natural_width_default ]; raises_weak.
Qed.

Lemma _update_natural_height_raises c d :
  raises_only not_AssertionError (_update_natural_height self_layouts_are c d).
Proof.
  unfold _update_natural_height. rewrite specialized_strategy.
  destruct (strategy_of c);
    [ unfold _update_natural_height_Row
    | unfold _update_natural_height_Column
    | unfold _update_natural_height_Overlay
    | unfold _update_natural_height_SingleContainer
    | unfold _update_natural_height_default ]; raises_weak.
Qed.

Lemma _update_allocated_width_raises c d :
  raises_only not_AssertionError
    (_update_allocated_width self_window_width self_layouts_are c d).
Proof.
  unfold _update_allocated_width. rewrite specialized_strategy.
  destruct (strategy_of c);
    [ unfold _update_allocated_width_Row
    | unfold _update_allocated_width_Column
    | unfold _update_allocated_width_Overlay
    | unfold _update_allocated_width_SingleContainer
    | unfold _update_allocated_width_default ]; raises_weak.
Qed.

Lemma _update_allocated_height_raises c d :
  raises_only not_AssertionError
    (_update_allocated_height self_window_height self_layouts_are c d).
Proof.
  unfold _update_allocated_height. rewrite specialized_strategy.
  destruct (strategy_of c);
    [ unfold _update_allocated_height_Row
    | unfold _update_allocated_height_Column
    | unfold _update_allocated_height_Overlay
    | unfold _update_allocated_height_SingleContainer
    | unfold _update_allocated_height_default ]; raises_weak.
Qed.

Lemma _compute_layouts_should_raises l d :
  raises_only not_AssertionError
    (_compute_layouts_should self_root self_window_width self_window_height
       self_layouts_are l d).
Proof.
  unfold _compute_layouts_should, natural_width_pass, allocated_width_pass,
    natural_height_pass, allocated_height_pass.
  apply raises_only_bind; [|intros d1; apply raises_only_bind;
    [|intros d2; apply raises_only_bind; [|intros d3]]].
  - apply raises_only_for_each. intros c s. unfold natural_width_step.
    apply raises_only_bind; [apply _update_natural_width_raises|intros ?].
    raises_weak.
  - raises_weak. destruct (calculate_alignment _ _ _ _ _) as [l0 w].
    raises_weak. apply _update_allocated_width_raises.
  - apply raises_only_for_each. intros c s. unfold natural_height_step.
    apply raises_only_bind; [raises_weak|intros ?].
    apply raises_only_bind; [apply _update_natural_height_raises|intros ?].
    raises_weak.
  - raises_weak. destruct (calculate_alignment _ _ _ _ _) as [l0 w].
    raises_weak. apply _update_allocated_height_raises.
Qed.
End raises.

(** ** Construction *)

Lemma toposort_loop_sound fuel : ∀ to_do L,
  toposort_loop fuel to_do = Some L →
  L = concat (rev_preorder <$> reverse to_do).
Proof.
  induction fuel as [|fuel IH]; intros to_do L; simpl; [done|].
  destruct (list_snoc_cases to_do) as [->|(l & x & ->)].
  { by intros [= <-]. }
  rewrite pop_snoc.
  destruct (toposort_loop fuel _) as [rest|] eqn:Hrest; simpl; [|done].
  intros [= <-]. apply IH in Hrest as ->.
  rewrite reverse_snoc. simpl.
  rewrite reverse_app, fmap_app, concat_app.
  rewrite (rev_preorder_unfold x). simpl.
  by rewrite fmap_reverse.
Qed.

Lemma _get_toposorted_sound fuel root L :
  _get_toposorted fuel root = Some L → L = rev_preorder root.
Proof.
  unfold _get_toposorted. intros ->%toposort_loop_sound.
  simpl. by rewrite app_nil_r.
Qed.

(** The ids of the walked components are those of the tree. *)
Lemma walk_ids root :
  list_to_set (cid <$> rev_preorder root) =@{gset Z}
  list_to_set (cid <$> nodes root).
Proof.
  apply set_eq. intros j. rewrite !elem_of_list_to_set.
  by rewrite rev_preorder_Permutation.
Qed.

Lemma create_Ok_inv fuel root info ly :
  create fuel root info = Some (Ok ly) →
  dom (component_layouts info) = list_to_set (cid <$> nodes root)
  ∧ _compute_layouts_should root (client_window_width info)
      (client_window_height info) (component_layouts info)
      (rev_preorder root) ∅ = Ok (_layouts_should ly)
  ∧ _layouts_are ly = component_layouts info
  ∧ window_width ly = client_window_width info
  ∧ window_height ly = client_window_height info.
Proof.
  unfold create.
  destruct (_get_toposorted fuel root) as [L|] eqn:HL; simpl; [|done].
  apply _get_toposorted_sound in HL as ->.
  rewrite walk_ids.
  repeat case_bool_decide; simpl; try done.
  destruct (_compute_layouts_should _ _ _ _ _ _) as [S|e]; simpl; [|done].
  intros [= <-]. simpl. split; [|done].
  apply set_eq. intros j. split; intros Hj.
  - destruct (decide (j ∈ (list_to_set (cid <$> nodes root) : gset Z)));
      [done|]. set_solver.
  - destruct (decide (j ∈ dom (component_layouts info))); [done|]. set_solver.
Qed.

(** ** The properties of the specification *)

(** C1. A row (on the width axis) and a column (on the height axis) with
    [proportions] unset place their children one after the other: child
    [i] gets exactly its requested outer size, the first child starts at
    the container's inner position, every next one at the previous start
    plus the previous size plus the spacing. The container's allocated
    inner size plays no part, so leftover space stays unused. Requested
    widths 10 and 20 with spacing 5 in an inner width of 35 give offsets 0
    and 15. *)
Theorem linear_container_sequential_placement
    (c : Component) (d : gmap Z LayoutRecord) (lay : LayoutRecord) :
  proportions (attrs c) = None →
  d !! cid c = Some lay →
  NoDup (cid <$> _iter_direct_children c) →
  (∀ ch, ch ∈ _iter_direct_children c → is_Some (d !! cid ch)) →
  (∃ d' widths starts,
     _update_allocated_width_Row c d = Ok d'
     ∧ Forall2 (has_field RequestedOuterWidth d) (_iter_direct_children c) widths
     ∧ sequential_starts (spacing (attrs c)) widths starts
     ∧ ∀ i ch, _iter_direct_children c !! i = Some ch →
         ∃ start w, starts !! i = Some start ∧ widths !! i = Some w
           ∧ field d' (cid ch) LeftInViewportOuter
             = Some (left_in_viewport_inner lay + start)%Q
           ∧ field d' (cid ch) AllocatedOuterWidth = Some w)
  ∧ (∃ d' heights starts,
     _update_allocated_height_Column c d = Ok d'
     ∧ Forall2 (has_field RequestedOuterHeight d) (_iter_direct_children c) heights
     ∧ sequential_starts (spacing (attrs c)) heights starts
     ∧ ∀ i ch, _iter_direct_children c !! i = Some ch →
         ∃ start h, starts !! i = Some start ∧ heights !! i = Some h
           ∧ field d' (cid ch) TopInViewportOuter
             = Some (top_in_viewport_inner lay + start)%Q
           ∧ field d' (cid ch) AllocatedOuterHeight = Some h)
  ∧ (∀ a a' sizes sp,
       _linear_container_get_major_axis_allocated_sizes a sizes sp None
       = _linear_container_get_major_axis_allocated_sizes a' sizes sp None)
  ∧ _linear_container_get_major_axis_allocated_sizes 35 [10; 20]%Q 5 None
    = Ok [(0, 10); (15, 20)]%Q.
Proof.
  intros Hprop Hlay Hnd Hall. split; [|split; [|split]].
  - apply (linear_allocation_spec LeftInViewportOuter AllocatedOuterWidth
             LeftInViewportInner AllocatedInnerWidth RequestedOuterWidth
             c d lay); done.
  - apply (linear_allocation_spec TopInViewportOuter AllocatedOuterHeight
             TopInViewportInner AllocatedInnerHeight RequestedOuterHeight
             c d lay); done.
  - intros a a' sizes sp. by rewrite !allocated_sizes_None.
  - reflexivity.
Qed.

Lemma linear_container_sequential_placement_witness :
  ∃ d' widths starts,
    _update_allocated_width_Row ex_row ex_store = Ok d'
    ∧ Forall2 (has_field RequestedOuterWidth ex_store) [ex_text3; ex_text4] widths
    ∧ sequential_starts 5 widths starts
    ∧ ∀ i ch, [ex_text3; ex_text4] !! i = Some ch →
        ∃ start w, starts !! i = Some start ∧ widths !! i = Some w
          ∧ field d' (cid ch) LeftInViewportOuter = Some (3 + start)%Q
          ∧ field d' (cid ch) AllocatedOuterWidth = Some w.
Proof.
  refine (proj1 (linear_container_sequential_placement ex_row ex_store
            (setf LeftInViewportInner 3
               (setf AllocatedInnerWidth 35 fresh_layout)) _ _ _ _)).
  - reflexivity.
  - reflexivity.
  - apply (bool_decide_unpack _). vm_compute. exact I.
  - intros ch Hch. simpl in Hch.
    apply elem_of_cons in Hch as [->|Hch];
      [|apply elem_of_cons in Hch as [->|Hch%elem_of_nil]; [|done]];
      vm_compute; eauto.
Defined.

(** The row of the example: children of requested widths 10 and 20, spacing
    5, the row's inner left position 3. *)
Example ex_row_placement :
  ∃ d', _update_allocated_width_Row ex_row ex_store = Ok d'
    ∧ field d' 3 LeftInViewportOuter = Some 3%Q
    ∧ field d' 3 AllocatedOuterWidth = Some 10%Q
    ∧ field d' 4 LeftInViewportOuter = Some 18%Q
    ∧ field d' 4 AllocatedOuterWidth = Some 20%Q.
Proof. eexists. split; [vm_compute; reflexivity|]. by vm_compute. Qed.

(** C2, as stated, fails: the walk of a row with the children 3 and 4,
    declared in this order, yields child 4 before child 3. *)
Lemma toposorted_siblings_counterexample :
  iter_direct_tree_children ex_row = [ex_text3; ex_text4]
  ∧ _get_toposorted 4 ex_row = Some [ex_row; ex_text4; ex_text3]
  ∧ ¬ ∃ l1 l2 l3,
        [ex_row; ex_text4; ex_text3] = l1 ++ ex_text3 :: l2 ++ ex_text4 :: l3.
Proof.
  split; [reflexivity|]. split; [reflexivity|].
  intros (l1 & l2 & l3 & H).
  destruct l1 as [|? [|? [|? [|? ?]]]]; simpl in H; try discriminate H.
  injection H as _ _ H. destruct l2; discriminate H.
Qed.

(** C2, amended. With enough fuel for the loop, [_get_toposorted] returns
    the pre-order of the tree in which the subtrees of every node are
    taken from last to first. This sequence holds every node of the tree
    exactly once (no id twice, when the ids of the tree are pairwise
    distinct) and every parent before each of its children; of two
    children of one node, the one declared later comes first, together
    with its whole subtree: every node of the subtree of the later one
    comes before every node of the subtree of the earlier one. *)
Theorem toposorted_parents_first_siblings_reversed
    (fuel : nat) (root : Component) :
  tree_size root < fuel →
  ∃ L, _get_toposorted fuel root = Some L
    ∧ L ≡ₚ nodes root
    ∧ (ids_unique root → NoDup (cid <$> L))
    ∧ (∀ p ch, p ∈ nodes root → ch ∈ iter_direct_tree_children p →
         ∃ l1 l2 l3, L = l1 ++ p :: l2 ++ ch :: l3)
    ∧ (∀ p cs1 a cs2 b cs3,
         p ∈ nodes root →
         iter_direct_tree_children p = cs1 ++ a :: cs2 ++ b :: cs3 →
         ∃ l1 l2 l3, L = l1 ++ b :: l2 ++ a :: l3)
    ∧ L = rev_preorder root
    ∧ (∀ p cs1 a cs2 b cs3,
         p ∈ nodes root →
         iter_direct_tree_children p = cs1 ++ a :: cs2 ++ b :: cs3 →
         (∃ l1 l2 l3,
            L = l1 ++ rev_preorder b ++ l2 ++ rev_preorder a ++ l3)
         ∧ rev_preorder b ≡ₚ nodes b
         ∧ rev_preorder a ≡ₚ nodes a
         ∧ ∀ x y, x ∈ nodes b → y ∈ nodes a →
             ∃ l1 l2 l3, L = l1 ++ x :: l2 ++ y :: l3).
Proof.
  intros Hfuel. exists (rev_preorder root).
  split; [by apply _get_toposorted_spec|].
  split; [apply rev_preorder_Permutation|].
  split; [by intros [? _]%ids_unique_walk|].
  split; [|split; [|split; [done|]]].
  - intros p ch. apply rev_preorder_parent_first.
  - intros p cs1 a cs2 b cs3. apply rev_preorder_siblings_reversed.
  - intros p cs1 a cs2 b cs3 Hp Hcs.
    split; [by eapply rev_preorder_subtrees_reversed|].
    split; [apply rev_preorder_Permutation|].
    split; [apply rev_preorder_Permutation|].
    intros x y. by eapply rev_preorder_subtree_nodes_first.
Qed.

Lemma toposorted_parents_first_siblings_reversed_witness :
  ∃ L, _get_toposorted 6 ex_root = Some L
    ∧ L ≡ₚ nodes ex_root
    ∧ (ids_unique ex_root → NoDup (cid <$> L))
    ∧ (∀ p ch, p ∈ nodes ex_root → ch ∈ iter_direct_tree_children p →
         ∃ l1 l2 l3, L = l1 ++ p :: l2 ++ ch :: l3)
    ∧ (∀ p cs1 a cs2 b cs3,
         p ∈ nodes ex_root →
         iter_direct_tree_children p = cs1 ++ a :: cs2 ++ b :: cs3 →
         ∃ l1 l2 l3, L = l1 ++ b :: l2 ++ a :: l3)
    ∧ L = rev_preorder ex_root
    ∧ (∀ p cs1 a cs2 b cs3,
         p ∈ nodes ex_root →
         iter_direct_tree_children p = cs1 ++ a :: cs2 ++ b :: cs3 →
         (∃ l1 l2 l3,
            L = l1 ++ rev_preorder b ++ l2 ++ rev_preorder a ++ l3)
         ∧ rev_preorder b ≡ₚ nodes b
         ∧ rev_preorder a ≡ₚ nodes a
         ∧ ∀ x y, x ∈ nodes b → y ∈ nodes a →
             ∃ l1 l2 l3, L = l1 ++ x :: l2 ++ y :: l3).
Proof.
  apply (toposorted_parents_first_siblings_reversed 6 ex_root).
  vm_compute. lia.
Defined.

(** C3, as stated, fails: with alignment unset the returned size is the
    space left by the margins, so it does not exceed the available space
    even when the allocated outer size is smaller than the requested inner
    size plus the margins. *)
Lemma calculate_alignment_fill_counterexample :
  calculate_alignment 10 50 2 3 None = (2, 5)%Q
  ∧ (10 < 50 + 2 + 3)%Q
  ∧ ¬ (10 - 2 - 3 < snd (calculate_alignment 10 50 2 3 None))%Q
  ∧ ¬ (10 < snd (calculate_alignment 10 50 2 3 None))%Q.
Proof.
  split; [reflexivity|]. split; [reflexivity|].
  split; intros H; discriminate H.
Qed.

(** C3, amended. [calculate_alignment] equals the reference definition of
    section 4.4 for all inputs. With alignment unset it returns the offset
    [margin_start] and the size [allocated_outer - margin_start -
    margin_end], whatever the requested inner size; with a fraction [f] it
    returns the size [requested_inner] and the offset [margin_start + f *
    (allocated_outer - requested_inner - margin_start - margin_end)].
    Nothing is clamped: with a fraction, when [allocated_outer <
    requested_inner + margins], the returned size exceeds the space that
    the margins leave; with alignment unset the returned size is exactly
    that space. Outer 100 and margins (2, 3) give (2, 95) when unset; with
    requested inner size 50 and [f = 1/2] they give (24.5, 50). *)
Theorem calculate_alignment_matches_reference (outer req ms me : Q) :
  (∀ align,
     (fst (calculate_alignment outer req ms me align)
      == fst (alignment_reference outer req ms me align))%Q
     ∧ snd (calculate_alignment outer req ms me align)
       = snd (alignment_reference outer req ms me align))
  ∧ (∀ req', calculate_alignment outer req' ms me None
             = (ms, outer - ms - me)%Q)
  ∧ (∀ f, snd (calculate_alignment outer req ms me (Some f)) = req
          ∧ (fst (calculate_alignment outer req ms me (Some f))
             == ms + f * (outer - req - ms - me))%Q)
  ∧ (∀ f, (outer < req + ms + me)%Q →
          (outer - ms - me < snd (calculate_alignment outer req ms me (Some f)))%Q)
  ∧ (snd (calculate_alignment outer req ms me None) == outer - ms - me)%Q
  ∧ (∀ req', calculate_alignment 100 req' 2 3 None = (2, 95)%Q)
  ∧ calculate_alignment 100 50 2 3 (Some (1 # 2)) = (49 # 2, 50)%Q.
Proof.
  split; [|split; [|split; [|split; [|split; [|split]]]]].
  - intros [f|]; simpl; split; try reflexivity. ring.
  - reflexivity.
  - intros f. simpl. split; [reflexivity|ring].
  - intros f H. simpl.
    apply (Qplus_lt_l _ _ (ms + me)%Q).
    assert (outer - ms - me + (ms + me) == outer)%Q as -> by ring.
    assert (req + (ms + me) == req + ms + me)%Q as -> by ring.
    exact H.
  - simpl. reflexivity.
  - reflexivity.
  - reflexivity.
Qed.

Lemma calculate_alignment_matches_reference_witness :
  (10 < 50 + 2 + 3)%Q
  ∧ (10 - 2 - 3 < snd (calculate_alignment 10 50 2 3 (Some (1 # 2))))%Q.
Proof.
  split; [reflexivity|].
  apply (calculate_alignment_matches_reference 10 50 2 3). reflexivity.
Defined.

(** C4. The natural size of a row on the width axis, and of a column on
    the height axis, is the sum of the children's requested outer sizes
    plus the spacing times the number of children minus one. Requested
    widths 10 and 20 with spacing 5 give 35. *)
Theorem linear_container_natural_size :
  (∀ sizes sp,
     (_linear_container_get_major_axis_natural_size sizes sp
      == Qsum sizes + sp * inject_Z (Z.of_nat (length sizes) - 1))%Q)
  ∧ (∀ c d,
       is_Some (d !! cid c) →
       (∀ ch, ch ∈ _iter_direct_children c → is_Some (d !! cid ch)) →
       ∃ d' widths nw,
         _update_natural_width_Row c d = Ok d'
         ∧ Forall2 (has_field RequestedOuterWidth d) (_iter_direct_children c) widths
         ∧ field d' (cid c) NaturalWidth = Some nw
         ∧ (nw == Qsum widths
                  + spacing (attrs c)
                    * inject_Z (Z.of_nat (length (_iter_direct_children c)) - 1))%Q)
  ∧ (∀ c d,
       is_Some (d !! cid c) →
       (∀ ch, ch ∈ _iter_direct_children c → is_Some (d !! cid ch)) →
       ∃ d' heights nh,
         _update_natural_height_Column c d = Ok d'
         ∧ Forall2 (has_field RequestedOuterHeight d) (_iter_direct_children c) heights
         ∧ field d' (cid c) NaturalHeight = Some nh
         ∧ (nh == Qsum heights
                  + spacing (attrs c)
                    * inject_Z (Z.of_nat (length (_iter_direct_children c)) - 1))%Q)
  ∧ (_linear_container_get_major_axis_natural_size [10; 20] 5 == 35)%Q.
Proof.
  split; [apply natural_size_sum|]. split; [|split].
  - intros c d [r Hr] Hall.
    destruct (collect_spec RequestedOuterWidth d _ Hall) as (ws & Hws & HF).
    unfold _update_natural_width_Row.
    rewrite (getitem_Some _ _ _ Hr). simpl. rewrite Hws. simpl.
    rewrite (setattr_Some _ _ _ _ _ Hr).
    eexists _, ws, _. split; [done|]. split; [done|]. split.
    + eapply setattr_field_eq. by apply setattr_Some.
    + rewrite natural_size_sum. by rewrite (Forall2_length _ _ _ HF).
  - intros c d [r Hr] Hall.
    destruct (collect_spec RequestedOuterHeight d _ Hall) as (hs & Hhs & HF).
    unfold _update_natural_height_Column.
    rewrite (getitem_Some _ _ _ Hr). simpl. rewrite Hhs. simpl.
    rewrite (setattr_Some _ _ _ _ _ Hr).
    eexists _, hs, _. split; [done|]. split; [done|]. split.
    + eapply setattr_field_eq. by apply setattr_Some.
    + rewrite natural_size_sum. by rewrite (Forall2_length _ _ _ HF).
  - reflexivity.
Qed.

Lemma linear_container_natural_size_witness :
  ∃ d' widths nw,
    _update_natural_width_Row ex_row ex_store = Ok d'
    ∧ Forall2 (has_field RequestedOuterWidth ex_store) [ex_text3; ex_text4] widths
    ∧ field d' 2 NaturalWidth = Some nw
    ∧ (nw == Qsum widths + 5 * inject_Z (Z.of_nat 2 - 1))%Q.
Proof.
  refine (proj1 (proj2 linear_container_natural_size) ex_row ex_store _ _).
  - vm_compute. eauto.
  - intros ch Hch. simpl in Hch.
    apply elem_of_cons in Hch as [->|Hch];
      [|apply elem_of_cons in Hch as [->|Hch%elem_of_nil]; [|done]];
      vm_compute; eauto.
Defined.

Lemma linear_allocation_raises_KeyError pos size inner innersz req c d :
  proportions (attrs c) = None →
  raises_only is_KeyError
    (layout ← getitem d (cid c);
     child_sizes ← collect req d (_iter_direct_children c);
     starts_and_sizes ←
       _linear_container_get_major_axis_allocated_sizes
         (getf innersz layout) child_sizes
         (spacing (attrs c)) (proportions (attrs c));
     place_children pos size inner c (_iter_direct_children c)
       starts_and_sizes d).
Proof.
  intros ->.
  apply raises_only_bind; [apply getitem_raises|intros lay].
  apply raises_only_bind; [apply collect_raises|intros sizes].
  rewrite allocated_sizes_None. simpl. apply place_children_raises.
Qed.

(** C8. A linear container whose [proportions] are anything but [None]
    makes the major-axis allocation raise [NotImplementedError], in the
    pure function and in the methods of the row (width) and the column
    (height); with [proportions] [None] that error is never raised. *)
Theorem proportions_not_implemented :
  (∀ a sizes sp p,
     _linear_container_get_major_axis_allocated_sizes a sizes sp (Some p)
     = Raise (NotImplementedError "TODO: Support proportions in linear containers"))
  ∧ (∀ a sizes sp,
       ∃ ss, _linear_container_get_major_axis_allocated_sizes a sizes sp None
             = Ok ss)
  ∧ (∀ c d p,
       proportions (attrs c) = Some p →
       is_Some (d !! cid c) →
       (∀ ch, ch ∈ _iter_direct_children c → is_Some (d !! cid ch)) →
       _update_allocated_width_Row c d
       = Raise (NotImplementedError "TODO: Support proportions in linear containers")
       ∧ _update_allocated_height_Column c d
         = Raise (NotImplementedError "TODO: Support proportions in linear containers"))
  ∧ (∀ c d msg,
       proportions (attrs c) = None →
       _update_allocated_width_Row c d ≠ Raise (NotImplementedError msg)
       ∧ _update_allocated_height_Column c d ≠ Raise (NotImplementedError msg)).
Proof.
  split; [done|]. split; [|split].
  - intros a sizes sp. rewrite allocated_sizes_None. eauto.
  - intros c d p Hp [r Hr] Hall.
    unfold _update_allocated_width_Row, _update_allocated_height_Column.
    rewrite (getitem_Some _ _ _ Hr). simpl.
    destruct (collect_spec RequestedOuterWidth d _ Hall) as (ws & -> & _).
    destruct (collect_spec RequestedOuterHeight d _ Hall) as (hs & -> & _).
    simpl. by rewrite Hp.
  - intros c d msg Hp. split; intros H.
    + by apply (linear_allocation_raises_KeyError
                  LeftInViewportOuter AllocatedOuterWidth LeftInViewportInner
                  AllocatedInnerWidth RequestedOuterWidth c d Hp) in H.
    + by apply (linear_allocation_raises_KeyError
                  TopInViewportOuter AllocatedOuterHeight TopInViewportInner
                  AllocatedInnerHeight RequestedOuterHeight c d Hp) in H.
Qed.

Lemma proportions_not_implemented_witness :
  _update_allocated_width_Row ex_row_homogeneous ex_store
  = Raise (NotImplementedError "TODO: Support proportions in linear containers")
  ∧ _update_allocated_height_Column ex_row_homogeneous ex_store
    = Raise (NotImplementedError "TODO: Support proportions in linear containers").
Proof.
  refine (proj1 (proj2 (proj2 proportions_not_implemented))
            ex_row_homogeneous ex_store Homogeneous _ _ _).
  - reflexivity.
  - vm_compute. eauto.
  - intros ch Hch. simpl in Hch.
    apply elem_of_cons in Hch as [->|Hch];
      [|apply elem_of_cons in Hch as [->|Hch%elem_of_nil]; [|done]];
      vm_compute; eauto.
Defined.

(** A class has no layout method of its own exactly when it is outside
    [FULL_SIZE_SINGLE_CONTAINERS] and its name is none of the method
    suffixes. *)
Lemma strategy_of_default c :
  strategy_of c = DefaultStrategy ↔
  ((type_of (attrs c) ∉ FULL_SIZE_SINGLE_CONTAINERS)
   ∧ (type_name (type_of (attrs c)) ∉ ["Row"; "Column"; "Overlay"; "SingleContainer"])).
Proof.
  unfold strategy_of, method_suffix.
  repeat case_bool_decide; split; try done; try (intros [? ?]; set_solver).
  intros _. split; [done|]. set_solver.
Qed.

Lemma strategy_of_Overlay c :
  type_of (attrs c) = Overlay → strategy_of c = OverlayStrategy.
Proof. unfold strategy_of, method_suffix. by intros ->. Qed.

(** C5. For a component whose class has no layout method of its own and
    is not one of [FULL_SIZE_SINGLE_CONTAINERS], the computed natural
    sizes are the reported ones, and the computed allocated outer sizes
    and outer positions of each of its children are the reported ones. *)
Theorem default_strategy_trusts_client
    (fuel : nat) (root : Component) (info : UnittestClientLayoutInfo)
    (layouter : Layouter) (c : Component) :
  ids_unique root →
  create fuel root info = Some (Ok layouter) →
  c ∈ nodes root →
  type_of (attrs c) ∉ FULL_SIZE_SINGLE_CONTAINERS →
  type_name (type_of (attrs c)) ∉ ["Row"; "Column"; "Overlay"; "SingleContainer"] →
  (∃ should are,
     _layouts_should layouter !! cid c = Some should
     ∧ _layouts_are layouter !! cid c = Some are
     ∧ natural_width should = natural_width are
     ∧ natural_height should = natural_height are)
  ∧ (∀ ch, ch ∈ iter_direct_tree_children c →
       ∃ should are,
         _layouts_should layouter !! cid ch = Some should
         ∧ _layouts_are layouter !! cid ch = Some are
         ∧ allocated_outer_width should = allocated_outer_width are
         ∧ allocated_outer_height should = allocated_outer_height are
         ∧ left_in_viewport_outer should = left_in_viewport_outer are
         ∧ top_in_viewport_outer should = top_in_viewport_outer are).
Proof.
  intros Huniq Hcreate Hc Hfull Hname.
  assert (strategy_of c = DefaultStrategy) as Hs.
  { by apply strategy_of_default. }
  apply create_Ok_inv in Hcreate as (_ & Hrun & -> & _ & _).
  split.
  - destruct (computed_natural_default root _ _ _ Huniq c _ _ Hrun Hc Hs)
      as (r & Hr & Hw & Hh).
    apply field_Some in Hw as (should & Hshould & Hw).
    apply field_Some in Hh as (should' & Hshould' & Hh).
    assert (should' = should) as -> by congruence.
    exists should, r. done.
  - intros ch Hch.
    destruct (computed_children_default root _ _ _ Huniq c ch _ _ Hrun Hc Hs Hch)
      as (r & Hr & Hw & Hh & Hl & Ht).
    apply field_Some in Hw as (should & Hshould & Hw).
    apply field_Some in Hh as (s1 & Hs1 & Hh).
    apply field_Some in Hl as (s2 & Hs2 & Hl).
    apply field_Some in Ht as (s3 & Hs3 & Ht).
    assert (s1 = should) as -> by congruence.
    assert (s2 = should) as -> by congruence.
    assert (s3 = should) as -> by congruence.
    exists should, r. done.
Qed.

Lemma ex_root_ids_unique : ids_unique ex_root.
Proof. apply (bool_decide_unpack _). vm_compute. exact I. Qed.

Lemma ex_root_created :
  create 6 ex_root ex_info = Some (Ok (created ex_root ex_info)).
Proof. vm_compute. reflexivity. Qed.

Lemma default_strategy_trusts_client_witness :
  (∃ should are,
     _layouts_should (created ex_root ex_info) !! 1%Z = Some should
     ∧ _layouts_are (created ex_root ex_info) !! 1%Z = Some are
     ∧ natural_width should = natural_width are
     ∧ natural_height should = natural_height are)
  ∧ (∀ ch, ch ∈ [ex_row] →
       ∃ should are,
         _layouts_should (created ex_root ex_info) !! cid ch = Some should
         ∧ _layouts_are (created ex_root ex_info) !! cid ch = Some are
         ∧ allocated_outer_width should = allocated_outer_width are
         ∧ allocated_outer_height should = allocated_outer_height are
         ∧ left_in_viewport_outer should = left_in_viewport_outer are
         ∧ top_in_viewport_outer should = top_in_viewport_outer are).
Proof.
  refine (default_strategy_trusts_client 6 ex_root ex_info
            (created ex_root ex_info) ex_app _ _ _ _ _).
  - exact ex_root_ids_unique.
  - exact ex_root_created.
  - simpl. right. left.
  - apply (bool_decide_unpack _). vm_compute. exact I.
  - apply (bool_decide_unpack _). vm_compute. exact I.
Defined.

(** C6. The single child of an overlay gets, on each axis, the whole
    window as its allocated outer size and 0 as its outer position,
    whatever the overlay's own allocated size and position. *)
Theorem overlay_child_gets_window
    (fuel : nat) (root : Component) (info : UnittestClientLayoutInfo)
    (layouter : Layouter) (overlay child : Component) :
  ids_unique root →
  create fuel root info = Some (Ok layouter) →
  overlay ∈ nodes root →
  type_of (attrs overlay) = Overlay →
  content overlay = Ok child →
  ∃ should,
    _layouts_should layouter !! cid child = Some should
    ∧ allocated_outer_width should = window_width layouter
    ∧ left_in_viewport_outer should = 0%Q
    ∧ allocated_outer_height should = window_height layouter
    ∧ top_in_viewport_outer should = 0%Q.
Proof.
  intros Huniq Hcreate Ho Htype Hcontent.
  apply strategy_of_Overlay in Htype.
  apply create_Ok_inv in Hcreate as (_ & Hrun & _ & -> & ->).
  destruct (computed_overlay_child root _ _ _ Huniq overlay child _ _
              Hrun Ho Htype Hcontent) as (Hw & Hl & Hh & Ht).
  apply field_Some in Hw as (should & Hshould & Hw).
  apply field_Some in Hl as (s1 & Hs1 & Hl).
  apply field_Some in Hh as (s2 & Hs2 & Hh).
  apply field_Some in Ht as (s3 & Hs3 & Ht).
  assert (s1 = should) as -> by congruence.
  assert (s2 = should) as -> by congruence.
  assert (s3 = should) as -> by congruence.
  exists should. done.
Qed.

Lemma overlay_child_gets_window_witness :
  ∃ should,
    _layouts_should (created ex_overlay_root ex_overlay_info) !! 3%Z
    = Some should
    ∧ allocated_outer_width should = 100%Q
    ∧ left_in_viewport_outer should = 0%Q
    ∧ allocated_outer_height should = 50%Q
    ∧ top_in_viewport_outer should = 0%Q.
Proof.
  refine (overlay_child_gets_window 4 ex_overlay_root ex_overlay_info
            (created ex_overlay_root ex_overlay_info) ex_overlay ex_text3
            _ _ _ _ _).
  - apply (bool_decide_unpack _). vm_compute. exact I.
  - vm_compute. reflexivity.
  - simpl. right. left.
  - reflexivity.
  - reflexivity.
Defined.

(** C10. A child of a component without a layout method of its own ends
    with the inner left position [-1] plus its alignment offset: the width
    allocation pass derives it while the child's outer left position is
    still the sentinel, and the height allocation pass, which assigns the
    reported outer left position, does not derive it again. It is the
    reported outer left position plus that offset only if the reported
    position is itself [-1]. *)
Theorem default_child_inner_left_from_sentinel
    (fuel : nat) (root : Component) (info : UnittestClientLayoutInfo)
    (layouter : Layouter) (parent child : Component) :
  ids_unique root →
  create fuel root info = Some (Ok layouter) →
  parent ∈ nodes root →
  strategy_of parent = DefaultStrategy →
  child ∈ iter_direct_tree_children parent →
  ∃ should are,
    _layouts_should layouter !! cid child = Some should
    ∧ _layouts_are layouter !! cid child = Some are
    ∧ left_in_viewport_inner should =
      (-1 + fst (calculate_alignment
                   (allocated_outer_width should) (requested_inner_width should)
                   (_effective_margin_left (attrs child))
                   (_effective_margin_right (attrs child))
                   (align_x (attrs child))))%Q
    ∧ left_in_viewport_outer should = left_in_viewport_outer are
    ∧ (¬ (left_in_viewport_outer are == -1)%Q →
       ¬ (left_in_viewport_inner should ==
          left_in_viewport_outer are
          + fst (calculate_alignment
                   (allocated_outer_width should) (requested_inner_width should)
                   (_effective_margin_left (attrs child))
                   (_effective_margin_right (attrs child))
                   (align_x (attrs child))))%Q).
Proof.
  intros Huniq Hcreate Hp Hs Hch.
  apply create_Ok_inv in Hcreate as (_ & Hrun & -> & _ & _).
  destruct (computed_left_inner_default_child root _ _ _ Huniq parent child
              _ _ Hrun Hp Hs Hch) as (should & Hshould & Hli).
  destruct (computed_children_default root _ _ _ Huniq parent child _ _
              Hrun Hp Hs Hch) as (r & Hr & _ & _ & Hlo & _).
  apply field_Some in Hlo as (s1 & Hs1 & Hlo).
  assert (s1 = should) as -> by congruence. simpl in Hlo.
  exists should, r. repeat split; try done.
  intros Hne Heq. apply Hne. rewrite Hli in Heq. unfold sentinel in Heq.
  apply Qplus_inj_r in Heq. by symmetry.
Qed.

Lemma default_child_inner_left_from_sentinel_witness :
  ∃ should are,
    _layouts_should (created ex_root ex_info) !! 2%Z = Some should
    ∧ _layouts_are (created ex_root ex_info) !! 2%Z = Some are
    ∧ left_in_viewport_inner should =
      (-1 + fst (calculate_alignment
                   (allocated_outer_width should) (requested_inner_width should)
                   0 0 None))%Q
    ∧ left_in_viewport_outer should = left_in_viewport_outer are
    ∧ (¬ (left_in_viewport_outer are == -1)%Q →
       ¬ (left_in_viewport_inner should ==
          left_in_viewport_outer are
          + fst (calculate_alignment
                   (allocated_outer_width should) (requested_inner_width should)
                   0 0 None))%Q).
Proof.
  refine (default_child_inner_left_from_sentinel 6 ex_root ex_info
            (created ex_root ex_info) ex_app ex_row _ _ _ _ _).
  - exact ex_root_ids_unique.
  - exact ex_root_created.
  - simpl. right. left.
  - reflexivity.
  - simpl. left.
Defined.

(** C7, as stated, fails: when ids are missing and others are superfluous,
    the failure carries the missing ids only. *)
Lemma create_desync_counterexample :
  (list_to_set (cid <$> nodes ex_row) : gset Z)
    ∖ dom (component_layouts ex_desync_info) = {[ 4%Z ]}
  ∧ dom (component_layouts ex_desync_info)
      ∖ (list_to_set (cid <$> nodes ex_row) : gset Z) = {[ 9%Z ]}
  ∧ create 4 ex_row ex_desync_info = Some (Raise (AssertionError {[ 4%Z ]})).
Proof. repeat split; vm_compute; reflexivity. Qed.

(** C7, amended. Whenever the ids of the tree differ from the ids of the
    reported layouts, construction fails, before any layout is computed,
    with an assertion error that carries the missing ids when there are
    any, and the superfluous ids otherwise; when the two sets are equal,
    construction raises no assertion error. *)
Theorem create_checks_component_ids
    (fuel : nat) (root : Component) (info : UnittestClientLayoutInfo) :
  tree_size root < fuel →
  ((list_to_set (cid <$> nodes root) : gset Z)
     ∖ dom (component_layouts info) ≠ ∅ →
   create fuel root info
   = Some (Raise (AssertionError
        ((list_to_set (cid <$> nodes root) : gset Z)
           ∖ dom (component_layouts info)))))
  ∧ ((list_to_set (cid <$> nodes root) : gset Z)
       ∖ dom (component_layouts info) = ∅ →
     dom (component_layouts info)
       ∖ (list_to_set (cid <$> nodes root) : gset Z) ≠ ∅ →
     create fuel root info
     = Some (Raise (AssertionError
          (dom (component_layouts info)
             ∖ (list_to_set (cid <$> nodes root) : gset Z)))))
  ∧ ((list_to_set (cid <$> nodes root) : gset Z)
     ≠ dom (component_layouts info) →
     ∃ ids, ids ≠ ∅
       ∧ create fuel root info = Some (Raise (AssertionError ids)))
  ∧ ((list_to_set (cid <$> nodes root) : gset Z)
     = dom (component_layouts info) →
     ∃ r, create fuel root info = Some r
       ∧ ∀ ids, r ≠ Raise (AssertionError ids)).
Proof.
  intros Hfuel. unfold create.
  rewrite (_get_toposorted_spec _ _ Hfuel). simpl. rewrite walk_ids.
  set (server := (list_to_set (cid <$> nodes root) : gset Z)).
  set (client := dom (component_layouts info)).
  assert (server ∖ client ≠ ∅ →
          Some (if negb (bool_decide (server ∖ client = ∅))
                then Raise (AssertionError (server ∖ client))
                else if negb (bool_decide (client ∖ server = ∅))
                     then Raise (AssertionError (client ∖ server))
                     else
                       layouts_should ←
                         _compute_layouts_should root
                           (client_window_width info)
                           (client_window_height info)
                           (component_layouts info) (rev_preorder root) ∅;
                       Ok (mkLayouter root (client_window_width info)
                             (client_window_height info) layouts_should
                             (component_layouts info)))
          = Some (Raise (AssertionError (server ∖ client)))) as Hmissing.
  { intros Hm. by rewrite bool_decide_eq_false_2. }
  assert (server ∖ client = ∅ → client ∖ server ≠ ∅ →
          Some (if negb (bool_decide (server ∖ client = ∅))
                then Raise (AssertionError (server ∖ client))
                else if negb (bool_decide (client ∖ server = ∅))
                     then Raise (AssertionError (client ∖ server))
                     else
                       layouts_should ←
                         _compute_layouts_should root
                           (client_window_width info)
                           (client_window_height info)
                           (component_layouts info) (rev_preorder root) ∅;
                       Ok (mkLayouter root (client_window_width info)
                             (client_window_height info) layouts_should
                             (component_layouts info)))
          = Some (Raise (AssertionError (client ∖ server)))) as Hsuper.
  { intros Hm Hs.
    by rewrite (bool_decide_eq_true_2 _ Hm), bool_decide_eq_false_2. }
  split; [exact Hmissing|]. split; [exact Hsuper|]. split.
  - intros Hne.
    destruct (decide (server ∖ client = ∅)) as [Hm|Hm].
    + destruct (decide (client ∖ server = ∅)) as [Hs|Hs].
      * exfalso. apply Hne. apply set_eq. intros j.
        split; intros Hj.
        -- destruct (decide (j ∈ client)); [done|]. set_solver.
        -- destruct (decide (j ∈ server)); [done|]. set_solver.
      * exists (client ∖ server). split; [done|]. by apply Hsuper.
    + exists (server ∖ client). split; [done|]. by apply Hmissing.
  - intros Heq. rewrite <- Heq.
    rewrite !bool_decide_eq_true_2 by set_solver. simpl.
    eexists. split; [done|]. intros ids Hr.
    pose proof (_compute_layouts_should_raises root
                  (client_window_width info) (client_window_height info)
                  (component_layouts info) (rev_preorder root) ∅) as Hraises.
    destruct (_compute_layouts_should _ _ _ _ _ _) as [S|e]; simpl in Hr;
      [done|].
    injection Hr as ->. by apply (Hraises _ eq_refl).
Qed.

Lemma create_checks_component_ids_witness :
  ∃ ids, ids ≠ ∅
    ∧ create 4 ex_row ex_desync_info = Some (Raise (AssertionError ids)).
Proof.
  refine (proj1 (proj2 (proj2
            (create_checks_component_ids 4 ex_row ex_desync_info _))) _).
  - vm_compute. lia.
  - intros Heq.
    assert (4%Z ∈ dom (component_layouts ex_desync_info)) as Hin.
    { rewrite <- Heq. vm_compute. reflexivity. }
    vm_compute in Hin. discriminate Hin.
Defined.

(** C9 does not hold of the code: the default width allocation method
    leaves the outer left position of the children untouched. In
    [ex_root], the row (id 2) is the child of a component without a layout
    method; after the width allocation pass its outer left position is
    still [-1], and in the layouts that [create] returns its inner left
    position, derived from that value, is [-1]. *)
Theorem default_child_left_position_unset :
  ∃ d1 d2,
    natural_width_pass ex_are (rev_preorder ex_root) ∅ = Ok d1
    ∧ allocated_width_pass ex_root 100 ex_are (rev_preorder ex_root) d1 = Ok d2
    ∧ field d2 2 LeftInViewportOuter = Some sentinel
    ∧ create 6 ex_root ex_info = Some (Ok (created ex_root ex_info))
    ∧ field (_layouts_should (created ex_root ex_info)) 2 LeftInViewportInner
      = Some sentinel.
Proof.
  eexists _, _. split; [vm_compute; reflexivity|].
  split; [vm_compute; reflexivity|].
  repeat split; vm_compute; reflexivity.
Qed.

(** ** When the computation returns *)

Lemma getitem_dom d k : k ∈ dom d → ∃ r, getitem d k = Ok r.
Proof. intros [r Hr]%elem_of_dom. exists r. by apply getitem_Some. Qed.

Lemma succeeds_on_ret D : succeeds_on D Ok.
Proof. intros d _. eauto. Qed.

Lemma succeeds_on_setattr D k f v : k ∈ D → succeeds_on D (setattr k f v).
Proof.
  intros Hk d HD.
  destruct (getitem_dom d k) as [r Hr%getitem_Ok]; [set_solver|].
  eexists. split; [by apply setattr_Some|].
  eapply setattr_dom. by apply setattr_Some.
Qed.

Lemma succeeds_on_seq D m1 m2 :
  succeeds_on D m1 → succeeds_on D m2 →
  succeeds_on D (λ d, d1 ← m1 d; m2 d1).
Proof.
  intros H1 H2 d HD. destruct (H1 d HD) as (d1 & -> & Hdom1). simpl.
  destruct (H2 d1) as (d2 & -> & Hdom2); [by rewrite Hdom1|].
  exists d2. split; [done|]. by rewrite Hdom2.
Qed.

Lemma succeeds_on_read {A} D (rd : gmap Z LayoutRecord → result A) k :
  (∀ d, D ⊆ dom d → ∃ a, rd d = Ok a) →
  (∀ a, succeeds_on D (k a)) →
  succeeds_on D (λ d, a ← rd d; k a d).
Proof.
  intros Hrd Hk d HD. destruct (Hrd d HD) as (a & ->). simpl. by apply Hk.
Qed.

Lemma succeeds_on_for_each {A} D (body : A → _) l :
  (∀ x, x ∈ l → succeeds_on D (body x)) →
  succeeds_on D (for_each body l).
Proof.
  induction l as [|x l IH]; intros Hb; simpl.
  - apply succeeds_on_ret.
  - apply succeeds_on_seq.
    + apply Hb. left.
    + apply IH. intros y Hy. apply Hb. by right.
Qed.

Lemma collect_dom f d children :
  (∀ ch, ch ∈ children → cid ch ∈ dom d) →
  ∃ sizes, collect f d children = Ok sizes.
Proof.
  intros Hall. destruct (collect_spec f d children) as (sizes & ? & _); eauto.
  intros ch Hch. by apply elem_of_dom, Hall.
Qed.

Lemma place_children_succeeds D pos size inner c children :
  cid c ∈ D → (∀ ch, ch ∈ children → cid ch ∈ D) →
  ∀ ss, succeeds_on D (place_children pos size inner c children ss).
Proof.
  intros Hc. induction children as [|ch children IH]; intros Hall [|[st sz] ss];
    simpl; try apply succeeds_on_ret.
  assert (cid ch ∈ D) as Hch by (apply Hall; left).
  apply succeeds_on_read; [intros d HD; apply getitem_dom; set_solver|].
  intros _.
  apply succeeds_on_read; [intros d HD; apply getitem_dom; set_solver|].
  intros lay.
  apply succeeds_on_seq; [by apply succeeds_on_setattr|].
  apply succeeds_on_seq; [by apply succeeds_on_setattr|].
  apply IH. intros ch' Hch'. apply Hall. by right.
Qed.

Lemma max_over_children_succeeds D f g c children :
  cid c ∈ D → (∀ ch, ch ∈ children → cid ch ∈ D) →
  succeeds_on D (max_over_children f g c children).
Proof.
  intros Hc Hall. unfold max_over_children.
  apply succeeds_on_for_each. intros ch Hch. apply Hall in Hch.
  apply succeeds_on_read; [intros d HD; apply getitem_dom; set_solver|].
  intros chl.
  apply succeeds_on_read; [intros d HD; apply getitem_dom; set_solver|].
  intros l. by apply succeeds_on_setattr.
Qed.

Lemma pass_on_all_space_succeeds D pos size ip isz c children :
  cid c ∈ D → (∀ ch, ch ∈ children → cid ch ∈ D) →
  succeeds_on D (pass_on_all_space pos size ip isz c children).
Proof.
  intros Hc Hall. unfold pass_on_all_space.
  apply succeeds_on_for_each. intros ch Hch. apply Hall in Hch.
  apply succeeds_on_read; [intros d HD; apply getitem_dom; set_solver|].
  intros _.
  apply succeeds_on_read; [intros d HD; apply getitem_dom; set_solver|].
  intros l.
  apply succeeds_on_seq; [by apply succeeds_on_setattr|].
  apply succeeds_on_read; [intros d HD; apply getitem_dom; set_solver|].
  intros l'. by apply succeeds_on_setattr.
Qed.

Section succeeds.
Variable self_root : Component.
Variable self_window_width self_window_height : Q.
Variable self_layouts_are : gmap Z LayoutRecord.

Lemma _update_natural_width_succeeds D c :
  cid c ∈ D → (∀ ch, ch ∈ iter_direct_tree_children c → cid ch ∈ D) →
  cid c ∈ dom self_layouts_are →
  succeeds_on D (_update_natural_width self_layouts_are c).
Proof.
  intros Hc Hall Hare.
  assert (∀ ch, ch ∈ _iter_direct_children c → cid ch ∈ D) as Hall'.
  { intros ch Hch. by apply Hall, iter_direct_children_subset. }
  unfold _update_natural_width. rewrite specialized_strategy.
  destruct (strategy_of c).
  - unfold _update_natural_width_Row.
    apply succeeds_on_read; [intros d HD; apply getitem_dom; set_solver|].
    intros _.
    apply succeeds_on_read;
      [intros d HD; apply collect_dom; intros ch Hch; set_solver|].
    intros ws. by apply succeeds_on_setattr.
  - unfold _update_natural_width_Column.
    apply succeeds_on_seq; [by apply succeeds_on_setattr|].
    by apply max_over_children_succeeds.
  - by apply succeeds_on_setattr.
  - unfold _update_natural_width_SingleContainer.
    apply succeeds_on_seq; [by apply succeeds_on_setattr|].
    by apply max_over_children_succeeds.
  - unfold _update_natural_width_default.
    apply succeeds_on_read; [intros d HD; apply getitem_dom; set_solver|].
    intros _.
    apply succeeds_on_read; [intros d HD; by apply getitem_dom|].
    intros r. by apply succeeds_on_setattr.
Qed.

Lemma _update_natural_height_succeeds D c :
  cid c ∈ D → (∀ ch, ch ∈ iter_direct_tree_children c → cid ch ∈ D) →
  cid c ∈ dom self_layouts_are →
  succeeds_on D (_update_natural_height self_layouts_are c).
Proof.
  intros Hc Hall Hare.
  assert (∀ ch, ch ∈ _iter_direct_children c → cid ch ∈ D) as Hall'.
  { intros ch Hch. by apply Hall, iter_direct_children_subset. }
  unfold _update_natural_height. rewrite specialized_strategy.
  destruct (strategy_of c).
  - unfold _update_natural_height_Row.
    apply succeeds_on_seq; [by apply succeeds_on_setattr|].
    by apply max_over_children_succeeds.
  - unfold _update_natural_height_Column.
    apply succeeds_on_read; [intros d HD; apply getitem_dom; set_solver|].
    intros _.
    apply succeeds_on_read;
      [intros d HD; apply collect_dom; intros ch Hch; set_solver|].
    intros ws. by apply succeeds_on_setattr.
  - by apply succeeds_on_setattr.
  - unfold _update_natural_height_SingleContainer.
    apply succeeds_on_seq; [by apply succeeds_on_setattr|].
    by apply max_over_children_succeeds.
  - unfold _update_natural_height_default.
    apply succeeds_on_read; [intros d HD; apply getitem_dom; set_solver|].
    intros _.
    apply succeeds_on_read; [intros d HD; by apply getitem_dom|].
    intros r. by apply succeeds_on_setattr.
Qed.

Lemma linear_allocation_succeeds D pos size inner innersz req c :
  cid c ∈ D → (∀ ch, ch ∈ _iter_direct_children c → cid ch ∈ D) →
  proportions (attrs c) = None →
  succeeds_on D
    (λ d, layout ← getitem d (cid c);
          child_sizes ← collect req d (_iter_direct_children c);
          starts_and_sizes ←
            _linear_container_get_major_axis_allocated_sizes
              (getf innersz layout) child_sizes
              (spacing (attrs c)) (proportions (attrs c));
          place_children pos size inner c (_iter_direct_children c)
            starts_and_sizes d).
Proof.
  intros Hc Hall Hprop.
  apply succeeds_on_read; [intros d HD; apply getitem_dom; set_solver|].
  intros lay.
  apply succeeds_on_read;
    [intros d HD; apply collect_dom; intros ch Hch; set_solver|].
  intros ws.
  apply succeeds_on_read.
  { intros d _. rewrite Hprop, allocated_sizes_None. eauto. }
  intros ss. by apply place_children_succeeds.
Qed.

Lemma _update_allocated_width_succeeds D c :
  cid c ∈ D → (∀ ch, ch ∈ iter_direct_tree_children c → cid ch ∈ D) →
  (∀ ch, ch ∈ iter_direct_tree_children c → cid ch ∈ dom self_layouts_are) →
  layoutable c →
  succeeds_on D (_update_allocated_width self_window_width self_layouts_are c).
Proof.
  intros Hc Hall Hare Hlay.
  assert (∀ ch, ch ∈ _iter_direct_children c → cid ch ∈ D) as Hall'.
  { intros ch Hch. by apply Hall, iter_direct_children_subset. }
  unfold _update_allocated_width. rewrite specialized_strategy.
  unfold layoutable in Hlay. destruct (strategy_of c).
  - by apply (linear_allocation_succeeds D LeftInViewportOuter
                AllocatedOuterWidth LeftInViewportInner AllocatedInnerWidth
                RequestedOuterWidth c).
  - unfold _update_allocated_width_Column.
    apply succeeds_on_read; [intros d HD; apply getitem_dom; set_solver|].
    intros _. by apply pass_on_all_space_succeeds.
  - destruct Hlay as [ch Hch]. unfold _update_allocated_width_Overlay.
    rewrite Hch. simpl. apply content_child, Hall in Hch.
    apply succeeds_on_read; [intros d HD; apply getitem_dom; set_solver|].
    intros _.
    apply succeeds_on_seq; by apply succeeds_on_setattr.
  - unfold _update_allocated_width_SingleContainer.
    apply succeeds_on_read; [intros d HD; apply getitem_dom; set_solver|].
    intros _. by apply pass_on_all_space_succeeds.
  - unfold _update_allocated_width_default.
    apply succeeds_on_for_each. intros ch Hch.
    apply succeeds_on_read;
      [intros d HD; apply getitem_dom; apply Hall in Hch; set_solver|].
    intros _.
    apply succeeds_on_read; [intros d HD; by apply getitem_dom, Hare|].
    intros r. by apply succeeds_on_setattr, Hall.
Qed.

Lemma _update_allocated_height_succeeds D c :
  cid c ∈ D → (∀ ch, ch ∈ iter_direct_tree_children c → cid ch ∈ D) →
  (∀ ch, ch ∈ iter_direct_tree_children c → cid ch ∈ dom self_layouts_are) →
  layoutable c →
  succeeds_on D (_update_allocated_height self_window_height self_layouts_are c).
Proof.
  intros Hc Hall Hare Hlay.
  assert (∀ ch, ch ∈ _iter_direct_children c → cid ch ∈ D) as Hall'.
  { intros ch Hch. by apply Hall, iter_direct_children_subset. }
  unfold _update_allocated_height. rewrite specialized_strategy.
  unfold layoutable in Hlay. destruct (strategy_of c).
  - unfold _update_allocated_height_Row.
    apply succeeds_on_read; [intros d HD; apply getitem_dom; set_solver|].
    intros _. by apply pass_on_all_space_succeeds.
  - by apply (linear_allocation_succeeds D TopInViewportOuter
                AllocatedOuterHeight TopInViewportInner AllocatedInnerHeight
                RequestedOuterHeight c).
  - destruct Hlay as [ch Hch]. unfold _update_allocated_height_Overlay.
    rewrite Hch. simpl. apply content_child, Hall in Hch.
    apply succeeds_on_read; [intros d HD; apply getitem_dom; set_solver|].
    intros _.
    apply succeeds_on_seq; by apply succeeds_on_setattr.
  - unfold _update_allocated_height_SingleContainer.
    apply succeeds_on_read; [intros d HD; apply getitem_dom; set_solver|].
    intros _. by apply pass_on_all_space_succeeds.
  - unfold _update_allocated_height_default.
    apply succeeds_on_for_each. intros ch Hch.
    apply succeeds_on_read;
      [intros d HD; apply getitem_dom; apply Hall in Hch; set_solver|].
    intros _.
    apply succeeds_on_read; [intros d HD; by apply getitem_dom, Hare|].
    intros r.
    apply succeeds_on_seq; [by apply succeeds_on_setattr, Hall|].
    apply succeeds_on_seq; by apply succeeds_on_setattr, Hall.
Qed.
End succeeds.

Lemma NoDup_split_unique {A} (x : A) : ∀ l1 l1' l2 l2',
  NoDup (l1 ++ x :: l2) → l1 ++ x :: l2 = l1' ++ x :: l2' → l1 = l1'.
Proof.
  induction l1 as [|a l1 IH]; intros [|b l1'] l2 l2' Hnd Heq; simpl in *.
  - done.
  - injection Heq as <- ->. apply NoDup_cons in Hnd as [Hx _].
    exfalso. apply Hx. apply elem_of_app. right. left.
  - injection Heq as -> _. apply NoDup_cons in Hnd as [Hx _].
    exfalso. apply Hx. apply elem_of_app. right. left.
  - injection Heq as <- Heq. apply NoDup_cons in Hnd as [_ Hnd].
    f_equal. by eapply IH.
Qed.

(** In the reversed walk, the children of a component come before it. *)
Lemma children_before root m1 c m2 ch :
  ids_unique root →
  reverse (rev_preorder root) = m1 ++ c :: m2 →
  ch ∈ iter_direct_tree_children c → ch ∈ m1.
Proof.
  intros [Hnd _]%ids_unique_walk HM Hch.
  apply NoDup_fmap_1 in Hnd.
  assert (c ∈ nodes root) as Hc.
  { rewrite <- rev_preorder_Permutation, <- elem_of_reverse, HM.
    apply elem_of_app. right. left. }
  destruct (rev_preorder_parent_first root c ch Hc Hch) as (l1 & l2 & l3 & HL).
  assert (reverse (rev_preorder root)
          = (reverse l3 ++ ch :: reverse l2) ++ c :: reverse l1) as HM'.
  { rewrite HL, reverse_app, reverse_cons, reverse_app, reverse_cons.
    by repeat (rewrite <- app_assoc || rewrite <- app_comm_cons). }
  rewrite <- reverse_Permutation in Hnd. rewrite HM in Hnd. rewrite HM in HM'.
  apply (NoDup_split_unique c _ _ _ _ Hnd) in HM' as ->.
  apply elem_of_app. right. left.
Qed.

Section returns.
Variable root : Component.
Variable ww wh : Q.
Variable are : gmap Z LayoutRecord.
Hypothesis Huniq : ids_unique root.
Hypothesis Hare : ∀ c, c ∈ nodes root → cid c ∈ dom are.
Hypothesis Hlayoutable : ∀ c, c ∈ nodes root → layoutable c.

Lemma natural_width_step_succeeds c d :
  c ∈ nodes root →
  (∀ ch, ch ∈ iter_direct_tree_children c → cid ch ∈ dom d) →
  ∃ d', natural_width_step are c d = Ok d' ∧ dom d' = {[cid c]} ∪ dom d.
Proof.
  intros Hc Hall. unfold natural_width_step.
  set (d0 := <[cid c := fresh_layout]> d).
  set (D := ({[cid c]} ∪ list_to_set (child_ids c) : gset Z)).
  assert (D ⊆ dom d0) as HD.
  { unfold D, d0. rewrite dom_insert_L. intros j.
    rewrite elem_of_union, elem_of_list_to_set.
    intros [Hj|(ch & -> & Hch)%list_elem_of_fmap]; [set_solver|].
    apply elem_of_union. right. by apply Hall. }
  assert (succeeds_on D
    (λ should0,
       should ← _update_natural_width are c should0;
       layout_should ← getitem should (cid c);
       should1 ← setattr (cid c) RequestedInnerWidth
                   (py_max (natural_width layout_should)
                      (number_or_zero (width (attrs c)))) should;
       layout_should0 ← getitem should1 (cid c);
       setattr (cid c) RequestedOuterWidth
         (requested_inner_width layout_should0
          + _effective_margin_left (attrs c)
          + _effective_margin_right (attrs c))%Q should1)) as Hrest.
  { assert (cid c ∈ D) as HcD by set_solver.
    apply succeeds_on_seq.
    - apply _update_natural_width_succeeds; [done| |by apply Hare].
      intros ch Hch. unfold D. apply elem_of_union. right.
      apply elem_of_list_to_set. by apply child_ids_elem.
    - apply (succeeds_on_read D (λ d, getitem d (cid c)));
        [intros d1 Hd1; apply getitem_dom; set_solver|].
      intros lay.
      apply succeeds_on_seq; [by apply succeeds_on_setattr|].
      apply (succeeds_on_read D (λ d, getitem d (cid c)));
        [intros d1 Hd1; apply getitem_dom; set_solver|].
      intros lay'. by apply succeeds_on_setattr. }
  destruct (Hrest d0 HD) as (d' & Hd' & Hdom).
  exists d'. split; [exact Hd'|]. rewrite Hdom. unfold d0.
  by rewrite dom_insert_L.
Qed.

Lemma natural_width_loop_succeeds m2 : ∀ m1 d,
  reverse (rev_preorder root) = m1 ++ m2 →
  (∀ x, x ∈ m1 → cid x ∈ dom d) →
  ∃ d', for_each (natural_width_step are) m2 d = Ok d'
        ∧ dom d' = list_to_set (cid <$> m2) ∪ dom d.
Proof.
  induction m2 as [|c m2 IH]; intros m1 d HM Hm1; simpl.
  - exists d. split; [done|]. set_solver.
  - assert (c ∈ nodes root) as Hc.
    { rewrite <- rev_preorder_Permutation, <- elem_of_reverse, HM.
      apply elem_of_app. right. left. }
    destruct (natural_width_step_succeeds c d Hc) as (d1 & -> & Hdom1).
    { intros ch Hch. apply Hm1. by eapply children_before. }
    simpl.
    destruct (IH (m1 ++ [c]) d1) as (d' & -> & Hdom').
    { by rewrite <- app_assoc. }
    { intros x [Hx|Hx%list_elem_of_singleton]%elem_of_app; rewrite Hdom1.
      - apply elem_of_union. right. by apply Hm1.
      - subst x. set_solver. }
    exists d'. split; [done|]. rewrite Hdom', Hdom1. set_solver.
Qed.

Lemma step_ids c :
  c ∈ nodes root →
  cid c ∈ (list_to_set (cid <$> nodes root) : gset Z)
  ∧ (∀ ch, ch ∈ iter_direct_tree_children c →
       cid ch ∈ (list_to_set (cid <$> nodes root) : gset Z))
  ∧ (∀ ch, ch ∈ iter_direct_tree_children c → cid ch ∈ dom are).
Proof.
  intros Hc.
  assert (∀ ch, ch ∈ iter_direct_tree_children c → ch ∈ nodes root) as Hch.
  { intros ch Hch. eapply nodes_trans; [done|]. by apply nodes_child. }
  split; [|split].
  - apply elem_of_list_to_set, list_elem_of_fmap. eauto.
  - intros ch ?. apply elem_of_list_to_set, list_elem_of_fmap. eauto.
  - intros ch ?. by apply Hare, Hch.
Qed.

Lemma allocated_width_step_succeeds c :
  c ∈ nodes root →
  succeeds_on (list_to_set (cid <$> nodes root))
    (allocated_width_step ww are c).
Proof.
  intros Hc. destruct (step_ids c Hc) as (HcD & HchD & Hchare).
  unfold allocated_width_step.
  apply succeeds_on_read; [intros d HD; apply getitem_dom; set_solver|].
  intros lay. destruct (calculate_alignment _ _ _ _ _) as [l w].
  apply succeeds_on_seq; [by apply succeeds_on_setattr|].
  apply succeeds_on_seq; [by apply succeeds_on_setattr|].
  apply _update_allocated_width_succeeds; auto.
Qed.

Lemma natural_height_step_succeeds c :
  c ∈ nodes root →
  succeeds_on (list_to_set (cid <$> nodes root))
    (natural_height_step are c).
Proof.
  intros Hc. destruct (step_ids c Hc) as (HcD & HchD & Hchare).
  unfold natural_height_step.
  apply succeeds_on_read; [intros d HD; apply getitem_dom; set_solver|].
  intros _.
  apply succeeds_on_seq.
  { apply _update_natural_height_succeeds; auto. }
  apply (succeeds_on_read _ (λ d, getitem d (cid c)));
    [intros d1 Hd1; apply getitem_dom; set_solver|].
  intros lay.
  apply succeeds_on_seq; [by apply succeeds_on_setattr|].
  apply (succeeds_on_read _ (λ d, getitem d (cid c)));
    [intros d1 Hd1; apply getitem_dom; set_solver|].
  intros lay'. by apply succeeds_on_setattr.
Qed.

Lemma allocated_height_step_succeeds c :
  c ∈ nodes root →
  succeeds_on (list_to_set (cid <$> nodes root))
    (allocated_height_step wh are c).
Proof.
  intros Hc. destruct (step_ids c Hc) as (HcD & HchD & Hchare).
  unfold allocated_height_step.
  apply succeeds_on_read; [intros d HD; apply getitem_dom; set_solver|].
  intros lay. destruct (calculate_alignment _ _ _ _ _) as [l w].
  apply succeeds_on_seq; [by apply succeeds_on_setattr|].
  apply succeeds_on_seq; [by apply succeeds_on_setattr|].
  apply _update_allocated_height_succeeds; auto.
Qed.

(** On a tree with pairwise distinct ids whose components have reported
    layouts and are layoutable, the computation returns, with a record
    for every id of the tree. *)
Lemma _compute_layouts_should_succeeds :
  ∃ S, _compute_layouts_should root ww wh are (rev_preorder root) ∅ = Ok S
       ∧ dom S = list_to_set (cid <$> nodes root).
Proof.
  unfold _compute_layouts_should.
  destruct (natural_width_loop_succeeds (reverse (rev_preorder root)) [] ∅)
    as (d1 & H1 & Hdom1); [done|by intros ? ?%elem_of_nil|].
  unfold natural_width_pass. rewrite H1. simpl.
  assert (dom d1 = list_to_set (cid <$> nodes root)) as HD1.
  { rewrite Hdom1, dom_empty_L, fmap_reverse. apply set_eq. intros j.
    rewrite elem_of_union, !elem_of_list_to_set, elem_of_reverse.
    rewrite rev_preorder_Permutation. set_solver. }
  clear H1 Hdom1.
  assert (∀ x, x ∈ rev_preorder root → x ∈ nodes root) as Hin.
  { intros x. by rewrite rev_preorder_Permutation. }
  assert (cid root ∈ (list_to_set (cid <$> nodes root) : gset Z)) as Hroot.
  { by destruct (step_ids root (nodes_self root)) as [? _]. }
  assert (succeeds_on (list_to_set (cid <$> nodes root))
            (allocated_width_pass root ww are (rev_preorder root))) as H2.
  { unfold allocated_width_pass.
    apply succeeds_on_read; [intros d HD; apply getitem_dom; set_solver|].
    intros lay.
    apply succeeds_on_seq; [by apply succeeds_on_setattr|].
    apply succeeds_on_seq; [by apply succeeds_on_setattr|].
    apply succeeds_on_for_each. intros x Hx.
    by apply allocated_width_step_succeeds, Hin. }
  destruct (H2 d1) as (d2 & -> & HD2); [by rewrite HD1|]. simpl.
  assert (succeeds_on (list_to_set (cid <$> nodes root))
            (natural_height_pass are (rev_preorder root))) as H3.
  { unfold natural_height_pass.
    apply succeeds_on_for_each. intros x Hx. rewrite elem_of_reverse in Hx.
    by apply natural_height_step_succeeds, Hin. }
  destruct (H3 d2) as (d3 & -> & HD3); [by rewrite HD2, HD1|]. simpl.
  assert (succeeds_on (list_to_set (cid <$> nodes root))
            (allocated_height_pass root wh are (rev_preorder root))) as H4.
  { unfold allocated_height_pass.
    apply succeeds_on_seq; [by apply succeeds_on_setattr|].
    apply (succeeds_on_read _ (λ d, getitem d (cid root)));
      [intros d HD; apply getitem_dom; set_solver|].
    intros lay.
    apply succeeds_on_seq; [by apply succeeds_on_setattr|].
    apply succeeds_on_for_each. intros x Hx.
    by apply allocated_height_step_succeeds, Hin. }
  destruct (H4 d3) as (S & -> & HD4); [by rewrite HD3, HD2, HD1|].
  exists S. split; [done|]. by rewrite HD4, HD3, HD2, HD1.
Qed.
End returns.

(** [create] returns a layouter whenever the ids of the tree are pairwise
    distinct and are those of the reported layouts, and every component
    of the tree is layoutable. *)
Lemma create_returns fuel root info :
  tree_size root < fuel →
  ids_unique root →
  dom (component_layouts info) = list_to_set (cid <$> nodes root) →
  (∀ c, c ∈ nodes root → layoutable c) →
  ∃ layouter, create fuel root info = Some (Ok layouter)
    ∧ dom (_layouts_should layouter) = dom (_layouts_are layouter).
Proof.
  intros Hfuel Huniq Hdom Hlay.
  destruct (_compute_layouts_should_succeeds root
              (client_window_width info) (client_window_height info)
              (component_layouts info) Huniq) as (S & HS & HdomS); [|done|].
  { intros c Hc. rewrite Hdom.
    apply elem_of_list_to_set, list_elem_of_fmap. eauto. }
  unfold create. rewrite (_get_toposorted_spec _ _ Hfuel). simpl.
  rewrite walk_ids, Hdom.
  rewrite !bool_decide_eq_true_2 by set_solver. simpl.
  rewrite HS. simpl. eexists. split; [done|]. simpl. by rewrite HdomS, Hdom.
Qed.

(** * Further properties of the code *)

(** ** The keys of the dictionary of computed layouts *)

Lemma keeps_dom_ret : keeps_dom Ok.
Proof. by intros d d' [= ->]. Qed.

Lemma keeps_dom_setattr k f v : keeps_dom (setattr k f v).
Proof. intros d d'. apply setattr_dom. Qed.

Lemma keeps_dom_seq m1 m2 :
  keeps_dom m1 → keeps_dom m2 → keeps_dom (λ d, d1 ← m1 d; m2 d1).
Proof.
  intros H1 H2 d d' (d1 & Hd1 & Hd')%bind_Ok.
  rewrite (H2 _ _ Hd'). by apply H1.
Qed.

Lemma keeps_dom_read {A} (r : gmap Z LayoutRecord → result A) k :
  (∀ a, keeps_dom (k a)) → keeps_dom (λ d, a ← r d; k a d).
Proof. intros Hk d d' (a & _ & Hd')%bind_Ok. by eapply Hk. Qed.

Lemma keeps_dom_for_each {A} (body : A → _) l :
  (∀ x, keeps_dom (body x)) → keeps_dom (for_each body l).
Proof.
  intros Hb. induction l as [|x l IH]; simpl.
  - apply keeps_dom_ret.
  - by apply keeps_dom_seq.
Qed.

Ltac keeps :=
  repeat first
    [ apply keeps_dom_ret
    | apply keeps_dom_setattr
    | apply keeps_dom_for_each; intros ?
    | apply keeps_dom_seq
    | apply keeps_dom_read; intros ? ].

Lemma place_children_keeps_dom pos size inner c children : ∀ ss,
  keeps_dom (place_children pos size inner c children ss).
Proof.
  induction children as [|ch children IH]; intros [|[st sz] ss]; simpl;
    try apply keeps_dom_ret.
  keeps. apply IH.
Qed.

Lemma _update_natural_width_keeps_dom are c :
  keeps_dom (_update_natural_width are c).
Proof.
  unfold _update_natural_width. rewrite specialized_strategy.
  destruct (strategy_of c);
    [ unfold _update_natural_width_Row
    | unfold _update_natural_width_Column
    | unfold _update_natural_width_Overlay
    | unfold _update_natural_width_SingleContainer
    | unfold _update_natural_width_default ]; keeps.
Qed.

Lemma _update_natural_height_keeps_dom are c :
  keeps_dom (_update_natural_height are c).
Proof.
  unfold _update_natural_height. rewrite specialized_strategy.
  destruct (strategy_of c);
    [ unfold _update_natural_height_Row
    | unfold _update_natural_height_Column
    | unfold _update_natural_height_Overlay
    | unfold _update_natural_height_SingleContainer
    | unfold _update_natural_height_default ]; keeps.
Qed.

Lemma _update_allocated_width_keeps_dom ww are c :
  keeps_dom (_update_allocated_width ww are c).
Proof.
  unfold _update_allocated_width. rewrite specialized_strategy.
  destruct (strategy_of c).
  - unfold _update_allocated_width_Row. keeps. apply place_children_keeps_dom.
  - unfold _update_allocated_width_Column. keeps.
  - unfold _update_allocated_width_Overlay.
    intros d d' (ch & _ & Hd)%bind_Ok. revert d d' Hd.
    change (keeps_dom
      (λ d, _ ← getitem d (cid ch);
            should ← setattr (cid ch) LeftInViewportOuter 0%Q d;
            setattr (cid ch) AllocatedOuterWidth ww should)).
    keeps.
  - unfold _update_allocated_width_SingleContainer. keeps.
  - unfold _update_allocated_width_default. keeps.
Qed.

Lemma _update_allocated_height_keeps_dom wh are c :
  keeps_dom (_update_allocated_height wh are c).
Proof.
  unfold _update_allocated_height. rewrite specialized_strategy.
  destruct (strategy_of c).
  - unfold _update_allocated_height_Row. keeps.
  - unfold _update_allocated_height_Column. keeps.
    apply place_children_keeps_dom.
  - unfold _update_allocated_height_Overlay.
    intros d d' (ch & _ & Hd)%bind_Ok. revert d d' Hd.
    change (keeps_dom
      (λ d, _ ← getitem d (cid ch);
            should ← setattr (cid ch) TopInViewportOuter 0%Q d;
            setattr (cid ch) AllocatedOuterHeight wh should)).
    keeps.
  - unfold _update_allocated_height_SingleContainer. keeps.
  - unfold _update_allocated_height_default. keeps.
Qed.

Lemma natural_width_step_dom are c d d' :
  natural_width_step are c d = Ok d' → dom d' = {[cid c]} ∪ dom d.
Proof.
  unfold natural_width_step.
  intros (d1 & H1 & H)%bind_Ok.
  apply bind_Ok in H as (lay & _ & H).
  apply bind_Ok in H as (d2 & H2 & H).
  apply bind_Ok in H as (lay' & _ & H).
  rewrite (setattr_dom _ _ _ _ _ H), (setattr_dom _ _ _ _ _ H2).
  rewrite (_update_natural_width_keeps_dom _ _ _ _ H1).
  by rewrite dom_insert_L.
Qed.

Lemma natural_width_pass_dom are l d d' :
  natural_width_pass are l d = Ok d' →
  dom d' = list_to_set (cid <$> l) ∪ dom d.
Proof.
  unfold natural_width_pass.
  assert (∀ m d d', for_each (natural_width_step are) m d = Ok d' →
                    dom d' = list_to_set (cid <$> m) ∪ dom d) as Hloop.
  { clear. induction m as [|c m IH]; intros d d'; simpl.
    - intros [= ->]. set_solver.
    - intros (d1 & H1%natural_width_step_dom & H)%bind_Ok.
      rewrite (IH _ _ H), H1. set_solver. }
  intros H%Hloop. rewrite H. apply set_eq. intros j.
  rewrite !elem_of_union, !elem_of_list_to_set, fmap_reverse, elem_of_reverse.
  done.
Qed.

Lemma allocated_width_step_keeps_dom ww are c :
  keeps_dom (allocated_width_step ww are c).
Proof.
  unfold allocated_width_step. apply keeps_dom_read. intros lay.
  destruct (calculate_alignment _ _ _ _ _) as [l w].
  apply keeps_dom_seq; [apply keeps_dom_setattr|].
  apply keeps_dom_seq; [apply keeps_dom_setattr|].
  apply _update_allocated_width_keeps_dom.
Qed.

Lemma allocated_height_step_keeps_dom wh are c :
  keeps_dom (allocated_height_step wh are c).
Proof.
  unfold allocated_height_step. apply keeps_dom_read. intros lay.
  destruct (calculate_alignment _ _ _ _ _) as [l w].
  apply keeps_dom_seq; [apply keeps_dom_setattr|].
  apply keeps_dom_seq; [apply keeps_dom_setattr|].
  apply _update_allocated_height_keeps_dom.
Qed.

Lemma natural_height_step_keeps_dom are c :
  keeps_dom (natural_height_step are c).
Proof.
  unfold natural_height_step. apply keeps_dom_read. intros _.
  apply keeps_dom_seq; [apply _update_natural_height_keeps_dom|].
  apply (keeps_dom_read (λ d, getitem d (cid c))). intros lay.
  apply keeps_dom_seq; [apply keeps_dom_setattr|].
  apply (keeps_dom_read (λ d, getitem d (cid c))). intros lay'.
  apply keeps_dom_setattr.
Qed.

Lemma _compute_layouts_should_dom root ww wh are l d S :
  _compute_layouts_should root ww wh are l d = Ok S →
  dom S = list_to_set (cid <$> l) ∪ dom d.
Proof.
  intros Hrun.
  apply _compute_layouts_should_inv in Hrun
    as (d1 & d2 & d3 & H1 & H2 & H3 & H4).
  apply natural_width_pass_dom in H1.
  assert (dom d2 = dom d1) as E2.
  { revert H2. unfold allocated_width_pass.
    intros (lay & _ & H)%bind_Ok.
    apply bind_Ok in H as (da & Ha & H).
    apply bind_Ok in H as (db & Hb & H).
    rewrite (keeps_dom_for_each _ _ (allocated_width_step_keeps_dom ww are) _ _ H).
    by rewrite (setattr_dom _ _ _ _ _ Hb), (setattr_dom _ _ _ _ _ Ha). }
  assert (dom d3 = dom d2) as E3.
  { revert H3. unfold natural_height_pass.
    apply (keeps_dom_for_each _ _ (natural_height_step_keeps_dom are)). }
  assert (dom S = dom d3) as E4.
  { revert H4. unfold allocated_height_pass.
    intros (da & Ha & H)%bind_Ok.
    apply bind_Ok in H as (lay & _ & H).
    apply bind_Ok in H as (db & Hb & H).
    rewrite (keeps_dom_for_each _ _ (allocated_height_step_keeps_dom wh are) _ _ H).
    by rewrite (setattr_dom _ _ _ _ _ Hb), (setattr_dom _ _ _ _ _ Ha). }
  by rewrite E4, E3, E2.
Qed.

(** X1. The layouter that [create] returns has a computed record for
    exactly the ids of the tree, which are also exactly the ids of the
    reported records. *)
Theorem created_layouts_cover_tree
    (fuel : nat) (root : Component) (info : UnittestClientLayoutInfo)
    (layouter : Layouter) :
  create fuel root info = Some (Ok layouter) →
  dom (_layouts_should layouter) = list_to_set (cid <$> nodes root)
  ∧ dom (_layouts_are layouter) = list_to_set (cid <$> nodes root)
  ∧ ∀ c, c ∈ nodes root →
      is_Some (_layouts_should layouter !! cid c)
      ∧ is_Some (_layouts_are layouter !! cid c).
Proof.
  intros (Hdom & Hrun & -> & _)%create_Ok_inv.
  apply _compute_layouts_should_dom in Hrun.
  rewrite dom_empty_L, walk_ids in Hrun.
  assert (dom (_layouts_should layouter) = list_to_set (cid <$> nodes root))
    as Hshould by set_solver.
  split; [done|]. split; [done|].
  intros c Hc. rewrite <- !elem_of_dom, Hshould, Hdom.
  split; apply elem_of_list_to_set, list_elem_of_fmap; eauto.
Qed.

Lemma created_layouts_cover_tree_witness :
  dom (_layouts_should (created ex_root ex_info))
  = list_to_set (cid <$> nodes ex_root)
  ∧ dom (_layouts_are (created ex_root ex_info))
    = list_to_set (cid <$> nodes ex_root)
  ∧ ∀ c, c ∈ nodes ex_root →
      is_Some (_layouts_should (created ex_root ex_info) !! cid c)
      ∧ is_Some (_layouts_are (created ex_root ex_info) !! cid c).
Proof.
  apply (created_layouts_cover_tree 6 ex_root ex_info).
  exact ex_root_created.
Defined.

(** ** When construction returns a layouter *)

Lemma linear_allocation_Ok_proportions pos size inner innersz req c d d' :
  (layout ← getitem d (cid c);
   child_sizes ← collect req d (_iter_direct_children c);
   starts_and_sizes ←
     _linear_container_get_major_axis_allocated_sizes
       (getf innersz layout) child_sizes
       (spacing (attrs c)) (proportions (attrs c));
   place_children pos size inner c (_iter_direct_children c)
     starts_and_sizes d) = Ok d' →
  proportions (attrs c) = None.
Proof.
  intros (lay & _ & H)%bind_Ok.
  apply bind_Ok in H as (sizes & _ & H).
  apply bind_Ok in H as (ss & Hss & _).
  by destruct (proportions (attrs c)).
Qed.

Lemma allocated_width_step_Ok_layoutable ww are c d d' :
  allocated_width_step ww are c d = Ok d' →
  (strategy_of c = RowStrategy → proportions (attrs c) = None)
  ∧ (strategy_of c = OverlayStrategy → ∃ ch, content c = Ok ch).
Proof.
  unfold allocated_width_step, _update_allocated_width.
  rewrite specialized_strategy.
  intros (lay & _ & H)%bind_Ok.
  destruct (calculate_alignment _ _ _ _ _) as [l w].
  apply bind_Ok in H as (d1 & _ & H).
  apply bind_Ok in H as (d2 & _ & H).
  split; intros Hs; rewrite Hs in H.
  - by eapply (linear_allocation_Ok_proportions LeftInViewportOuter
                 AllocatedOuterWidth LeftInViewportInner AllocatedInnerWidth
                 RequestedOuterWidth).
  - unfold _update_allocated_width_Overlay in H.
    apply bind_Ok in H as (ch & Hch & _). eauto.
Qed.

Lemma allocated_height_step_Ok_layoutable wh are c d d' :
  allocated_height_step wh are c d = Ok d' →
  strategy_of c = ColumnStrategy → proportions (attrs c) = None.
Proof.
  unfold allocated_height_step, _update_allocated_height.
  rewrite specialized_strategy.
  intros (lay & _ & H)%bind_Ok.
  destruct (calculate_alignment _ _ _ _ _) as [l w].
  apply bind_Ok in H as (d1 & _ & H).
  apply bind_Ok in H as (d2 & _ & H).
  intros Hs. rewrite Hs in H.
  by eapply (linear_allocation_Ok_proportions TopInViewportOuter
               AllocatedOuterHeight TopInViewportInner AllocatedInnerHeight
               RequestedOuterHeight).
Qed.

Lemma _compute_layouts_should_Ok_layoutable root ww wh are d S c :
  _compute_layouts_should root ww wh are (rev_preorder root) d = Ok S →
  c ∈ nodes root → layoutable c.
Proof.
  intros Hrun Hc.
  apply _compute_layouts_should_inv in Hrun
    as (d1 & d2 & d3 & _ & H2 & _ & H4).
  destruct (walk_split root c Hc) as (l1 & l2 & HL).
  apply allocated_width_pass_inv in H2 as (? & _ & H2).
  apply allocated_height_pass_inv in H4 as (? & _ & H4).
  rewrite HL in H2, H4.
  apply for_each_split in H2 as (? & ? & _ & H2 & _).
  apply for_each_split in H4 as (? & ? & _ & H4 & _).
  apply allocated_width_step_Ok_layoutable in H2 as [Hrow Hover].
  pose proof (allocated_height_step_Ok_layoutable _ _ _ _ _ H4) as Hcol.
  unfold layoutable. destruct (strategy_of c); auto.
Qed.

Lemma create_raises_no_assertion fuel root info :
  tree_size root < fuel →
  dom (component_layouts info) = list_to_set (cid <$> nodes root) →
  ∃ r, create fuel root info = Some r ∧ raises_only not_AssertionError r.
Proof.
  intros Hfuel Hdom. unfold create.
  rewrite (_get_toposorted_spec _ _ Hfuel). simpl. rewrite walk_ids, Hdom.
  rewrite !bool_decide_eq_true_2 by set_solver. simpl.
  eexists. split; [done|].
  apply raises_only_bind; [apply _compute_layouts_should_raises|].
  intros S. apply raises_only_Ok.
Qed.



(** ** The final records of a tree with pairwise distinct ids *)

Lemma node_cases root : ∀ c,
  c ∈ nodes root →
  c = root ∨ ∃ p, p ∈ nodes root ∧ c ∈ iter_direct_tree_children p.
Proof.
  induction root as [t IH] using Component_tree_ind. intros c Hc.
  rewrite nodes_unfold in Hc. apply elem_of_cons in Hc as [->|Hc]; [by left|].
  right. apply elem_of_concat in Hc as (ns & Hc & Hns).
  apply list_elem_of_fmap in Hns as (c' & -> & Hc').
  rewrite Forall_forall in IH.
  destruct (IH c' Hc' c Hc) as [->|(p & Hp & Hcp)].
  - exists t. split; [apply nodes_self|done].
  - exists p. split; [|done].
    eapply nodes_trans; [by apply nodes_child|done].
Qed.

Lemma root_not_child root x :
  ids_unique root → x ∈ nodes root → cid root ∉ child_ids x.
Proof.
  intros [_ [Hr _]%NoDup_cons]%ids_unique_walk Hx Hin. apply Hr.
  apply (elem_of_concat_fmap child_ids _ x); [|done].
  by rewrite rev_preorder_Permutation.
Qed.

(** From its own position in the walk on, no component has [c] as a
    child. *)
Lemma not_child_from root m1 c m2 x :
  ids_unique root →
  rev_preorder root = m1 ++ c :: m2 →
  x ∈ c :: m2 → cid c ∉ child_ids x.
Proof.
  intros Huniq HL Hx.
  assert (c ∈ nodes root) as Hc.
  { rewrite <- rev_preorder_Permutation, HL. apply elem_of_app. right. left. }
  assert (x ∈ nodes root) as Hxn.
  { rewrite <- rev_preorder_Permutation, HL. apply elem_of_app. by right. }
  destruct (node_cases root c Hc) as [->|(p & Hp & Hcp)].
  - by apply root_not_child.
  - destruct (rev_preorder_parent_first root p c Hp Hcp)
      as (l1 & l2 & l3 & HL').
    destruct (walk_split_props root l1 p (l2 ++ c :: l3) Huniq HL')
      as (_ & Hdisj & _).
    assert (m1 = l1 ++ p :: l2) as ->.
    { destruct (ids_unique_walk root Huniq) as [Hnd _].
      apply NoDup_fmap_1 in Hnd. rewrite HL in Hnd.
      eapply (NoDup_split_unique c); [exact Hnd|].
      rewrite <- HL, HL'. by rewrite <- app_assoc. }
    assert (m2 = l3) as ->.
    { rewrite HL' in HL. rewrite <- app_assoc in HL. simpl in HL.
      apply app_inv_head in HL. injection HL as HL.
      apply app_inv_head in HL. by injection HL. }
    eapply Hdisj; [|done].
    apply elem_of_app. right. apply elem_of_app. by right.
Qed.

Lemma walk_ids_distinct root l1 c l2 :
  ids_unique root →
  rev_preorder root = l1 ++ c :: l2 →
  ∀ x, x ∈ l1 ++ l2 → cid x ≠ cid c.
Proof.
  intros Huniq HL.
  by destruct (walk_split_props root l1 c l2 Huniq HL) as [H _].
Qed.

Section final.
Variable root : Component.
Variable ww wh : Q.
Variable are : gmap Z LayoutRecord.
Hypothesis Huniq : ids_unique root.

(** The step of [c] in the first pass, and what it and the rest of the
    pass leave alone. *)
Lemma natural_width_pass_locate c d d1 :
  c ∈ nodes root →
  natural_width_pass are (rev_preorder root) d = Ok d1 →
  ∃ da db,
    natural_width_step are c da = Ok db
    ∧ (∀ g, field d1 (cid c) g = field db (cid c) g)
    ∧ (∀ ch g, ch ∈ iter_direct_tree_children c →
         field da (cid ch) g = field d1 (cid ch) g).
Proof.
  intros Hc Hloop. unfold natural_width_pass in Hloop.
  destruct (walk_split root c Hc) as (l1 & l2 & HL).
  pose proof (walk_ids_distinct root l1 c l2 Huniq HL) as Hne.
  assert (reverse (rev_preorder root) = reverse l2 ++ c :: reverse l1) as HM.
  { rewrite HL, reverse_app, reverse_cons, <- app_assoc. done. }
  rewrite HM in Hloop.
  apply (for_each_locate _ _ _ _ _ _ _ (natural_width_step_writes are))
    in Hloop as (da & db & _ & Hstep & _ & Hafter).
  exists da, db. split; [done|]. split.
  - intros g. apply Hafter. intros x Hx Heq. rewrite elem_of_reverse in Hx.
    unfold W_natural_width_step in Heq.
    eapply Hne; [|symmetry; exact Heq]. apply elem_of_app. by left.
  - intros ch g Hch.
    pose proof (children_before root _ _ _ ch Huniq HM Hch) as Hin.
    rewrite elem_of_reverse in Hin.
    destruct (rev_preorder_parent_first root c ch Hc Hch)
      as (k1 & k2 & k3 & HL').
    assert (rev_preorder root = (k1 ++ c :: k2) ++ ch :: k3) as HL''.
    { rewrite HL'. by rewrite <- app_assoc. }
    pose proof (walk_ids_distinct root _ ch k3 Huniq HL'') as Hne'.
    assert (∀ x, x ∈ c :: reverse l1 → cid x ≠ cid ch) as Hx.
    { intros x Hx. apply Hne'.
      assert (l1 = k1) as ->.
      { destruct (ids_unique_walk root Huniq) as [Hnd _].
        apply NoDup_fmap_1 in Hnd. rewrite HL in Hnd.
        eapply (NoDup_split_unique c); [exact Hnd|]. by rewrite <- HL, HL'. }
      apply elem_of_cons in Hx as [->|Hx].
      - apply elem_of_app. left. apply elem_of_app. right. left.
      - rewrite elem_of_reverse in Hx.
        apply elem_of_app. left. apply elem_of_app. by left. }
    rewrite Hafter.
    + symmetry. apply (natural_width_step_writes are c _ _ Hstep).
      intros Heq. unfold W_natural_width_step in Heq.
      eapply Hx; [left|]. done.
    + intros x Hxin Heq. unfold W_natural_width_step in Heq.
      eapply Hx; [by right|]. done.
Qed.

Lemma natural_height_pass_locate c d d3 :
  c ∈ nodes root →
  natural_height_pass are (rev_preorder root) d = Ok d3 →
  ∃ da db,
    natural_height_step are c da = Ok db
    ∧ (∀ g, field d3 (cid c) g = field db (cid c) g)
    ∧ (∀ j g, j ≠ cid c → field da j g = field db j g)
    ∧ (∀ ch g, ch ∈ iter_direct_tree_children c →
         g = RequestedOuterHeight →
         field da (cid ch) g = field d3 (cid ch) g)
    ∧ (∀ j g, g ∉ [NaturalHeight; RequestedInnerHeight; RequestedOuterHeight] →
         field da j g = field d j g).
Proof.
  intros Hc Hloop. unfold natural_height_pass in Hloop.
  destruct (walk_split root c Hc) as (l1 & l2 & HL).
  pose proof (walk_ids_distinct root l1 c l2 Huniq HL) as Hne.
  assert (reverse (rev_preorder root) = reverse l2 ++ c :: reverse l1) as HM.
  { rewrite HL, reverse_app, reverse_cons, <- app_assoc. done. }
  rewrite HM in Hloop.
  apply (for_each_locate _ _ _ _ _ _ _ (natural_height_step_writes are))
    in Hloop as (da & db & _ & Hstep & Hbefore & Hafter).
  exists da, db. split; [done|]. split; [|split; [|split]].
  - intros g. apply Hafter. intros x Hx [Heq _]. rewrite elem_of_reverse in Hx.
    eapply Hne; [|symmetry; exact Heq]. apply elem_of_app. by left.
  - intros j g Hj. symmetry.
    apply (natural_height_step_writes are c _ _ Hstep). by intros [? _].
  - intros ch g Hch ->.
    destruct (rev_preorder_parent_first root c ch Hc Hch)
      as (k1 & k2 & k3 & HL').
    assert (rev_preorder root = (k1 ++ c :: k2) ++ ch :: k3) as HL''.
    { rewrite HL'. by rewrite <- app_assoc. }
    pose proof (walk_ids_distinct root _ ch k3 Huniq HL'') as Hne'.
    assert (∀ x, x ∈ c :: reverse l1 → cid x ≠ cid ch) as Hx.
    { intros x Hx. apply Hne'.
      assert (l1 = k1) as ->.
      { destruct (ids_unique_walk root Huniq) as [Hnd _].
        apply NoDup_fmap_1 in Hnd. rewrite HL in Hnd.
        eapply (NoDup_split_unique c); [exact Hnd|]. by rewrite <- HL, HL'. }
      apply elem_of_cons in Hx as [->|Hx].
      - apply elem_of_app. left. apply elem_of_app. right. left.
      - rewrite elem_of_reverse in Hx.
        apply elem_of_app. left. apply elem_of_app. by left. }
    rewrite Hafter.
    + symmetry. apply (natural_height_step_writes are c _ _ Hstep).
      intros [Heq _]. eapply Hx; [left|]. done.
    + intros x Hxin [Heq _]. eapply Hx; [by right|]. done.
  - intros j g Hg. apply Hbefore.
    intros x _ [_ [->|[->| ->]]]; apply Hg; set_solver.
Qed.

(** The seed of the width allocation pass and its loop. *)
Lemma allocated_width_pass_seed d d2 :
  allocated_width_pass root ww are (rev_preorder root) d = Ok d2 →
  ∃ lay d0,
    d !! cid root = Some lay
    ∧ field d0 (cid root) LeftInViewportOuter = Some 0%Q
    ∧ field d0 (cid root) AllocatedOuterWidth
      = Some (py_max ww (requested_outer_width lay))
    ∧ (∀ j g, ¬ (j = cid root
                 ∧ (g = LeftInViewportOuter ∨ g = AllocatedOuterWidth)) →
              field d0 j g = field d j g)
    ∧ for_each (allocated_width_step ww are) (rev_preorder root) d0 = Ok d2.
Proof.
  unfold allocated_width_pass.
  intros (lay & Hlay%getitem_Ok & H)%bind_Ok.
  apply bind_Ok in H as (da & Ha & H).
  apply bind_Ok in H as (db & Hb & H).
  exists lay, db. split; [done|]. split; [|split; [|split; [|done]]].
  - rewrite (setattr_field _ _ _ _ _ _ _ Hb), decide_False by (by intros [_ ?]).
    by eapply setattr_field_eq.
  - by eapply setattr_field_eq.
  - intros j g Hn.
    rewrite (setattr_field_ne _ _ _ _ _ _ _ Hb) by (intros [-> ->]; auto).
    by rewrite (setattr_field_ne _ _ _ _ _ _ _ Ha) by (intros [-> ->]; auto).
Qed.

Lemma allocated_height_pass_seed d d4 :
  allocated_height_pass root wh are (rev_preorder root) d = Ok d4 →
  ∃ lay d0,
    d !! cid root = Some lay
    ∧ field d0 (cid root) TopInViewportOuter = Some 0%Q
    ∧ field d0 (cid root) AllocatedOuterHeight
      = Some (py_max wh (requested_outer_height lay))
    ∧ (∀ j g, ¬ (j = cid root
                 ∧ (g = TopInViewportOuter ∨ g = AllocatedOuterHeight)) →
              field d0 j g = field d j g)
    ∧ for_each (allocated_height_step wh are) (rev_preorder root) d0 = Ok d4.
Proof.
  unfold allocated_height_pass.
  intros (da & Ha & H)%bind_Ok.
  apply bind_Ok in H as (lay' & Hlay'%getitem_Ok & H).
  apply bind_Ok in H as (db & Hb & H).
  pose proof Ha as (lay & Hlay & ->)%setattr_Ok.
  exists lay, db. split; [done|]. split; [|split; [|split; [|done]]].
  - rewrite (setattr_field _ _ _ _ _ _ _ Hb), decide_False by (by intros [_ ?]).
    by eapply setattr_field_eq.
  - rewrite (setattr_field_eq _ _ _ _ _ Hb). do 2 f_equal.
    rewrite lookup_insert_eq in Hlay'. injection Hlay' as <-. by destruct lay.
  - intros j g Hn.
    rewrite (setattr_field_ne _ _ _ _ _ _ _ Hb) by (intros [-> ->]; auto).
    by rewrite (setattr_field_ne _ _ _ _ _ _ _ Ha) by (intros [-> ->]; auto).
Qed.
End final.

Lemma py_max_ge_l a b : (a <= py_max a b)%Q.
Proof.
  unfold py_max. destruct (Qle_bool b a) eqn:E; [apply Qle_refl|].
  apply Qlt_le_weak, Qnot_le_lt. intros H%Qle_bool_iff. congruence.
Qed.

Lemma py_max_ge_r a b : (b <= py_max a b)%Q.
Proof.
  unfold py_max. destruct (Qle_bool b a) eqn:E; [|apply Qle_refl].
  by apply Qle_bool_iff.
Qed.

Lemma py_max_cases a b : py_max a b = a ∨ py_max a b = b.
Proof. unfold py_max. destruct (Qle_bool b a); auto. Qed.

Lemma natural_width_step_requested are c d d' :
  natural_width_step are c d = Ok d' →
  ∃ nw,
    field d' (cid c) NaturalWidth = Some nw
    ∧ field d' (cid c) RequestedInnerWidth
      = Some (py_max nw (number_or_zero (width (attrs c))))
    ∧ field d' (cid c) RequestedOuterWidth
      = Some (py_max nw (number_or_zero (width (attrs c)))
              + _effective_margin_left (attrs c)
              + _effective_margin_right (attrs c))%Q.
Proof.
  unfold natural_width_step.
  intros (d1 & H1 & H)%bind_Ok.
  apply bind_Ok in H as (lay & Hlay%getitem_Ok & H).
  apply bind_Ok in H as (d2 & H2 & H).
  apply bind_Ok in H as (lay' & Hlay'%getitem_Ok & H).
  pose proof H2 as (r2 & Hr2 & ->)%setattr_Ok.
  rewrite lookup_insert_eq in Hlay'. injection Hlay' as <-.
  assert (r2 = lay) as -> by congruence.
  change (requested_inner_width ?x) with (getf RequestedInnerWidth x) in H.
  rewrite getf_setf_eq in H.
  exists (natural_width lay). split; [|split].
  - rewrite (setattr_field _ _ _ _ _ _ _ H), decide_False by (by intros [_ ?]).
    rewrite (setattr_field _ _ _ _ _ _ _ H2), decide_False by (by intros [_ ?]).
    unfold field. by rewrite Hlay.
  - rewrite (setattr_field _ _ _ _ _ _ _ H), decide_False by (by intros [_ ?]).
    by eapply setattr_field_eq.
  - by eapply setattr_field_eq.
Qed.

Lemma natural_height_step_requested are c d d' :
  natural_height_step are c d = Ok d' →
  ∃ nh,
    field d' (cid c) NaturalHeight = Some nh
    ∧ field d' (cid c) RequestedInnerHeight
      = Some (py_max nh (number_or_zero (height (attrs c))))
    ∧ field d' (cid c) RequestedOuterHeight
      = Some (py_max nh (number_or_zero (height (attrs c)))
              + _effective_margin_top (attrs c)
              + _effective_margin_bottom (attrs c))%Q.
Proof.
  unfold natural_height_step.
  intros (_ & _ & H)%bind_Ok.
  apply bind_Ok in H as (d1 & H1 & H).
  apply bind_Ok in H as (lay & Hlay%getitem_Ok & H).
  apply bind_Ok in H as (d2 & H2 & H).
  apply bind_Ok in H as (lay' & Hlay'%getitem_Ok & H).
  pose proof H2 as (r2 & Hr2 & ->)%setattr_Ok.
  rewrite lookup_insert_eq in Hlay'. injection Hlay' as <-.
  assert (r2 = lay) as -> by congruence.
  change (requested_inner_height ?x) with (getf RequestedInnerHeight x) in H.
  rewrite getf_setf_eq in H.
  exists (natural_height lay). split; [|split].
  - rewrite (setattr_field _ _ _ _ _ _ _ H), decide_False by (by intros [_ ?]).
    rewrite (setattr_field _ _ _ _ _ _ _ H2), decide_False by (by intros [_ ?]).
    unfold field. by rewrite Hlay.
  - rewrite (setattr_field _ _ _ _ _ _ _ H), decide_False by (by intros [_ ?]).
    by eapply setattr_field_eq.
  - by eapply setattr_field_eq.
Qed.

Ltac not_in_fields := (intro; set_solver).

(** All attributes of one record, read off equations on [field]. *)
Lemma field_lookup d j g v r :
  d !! j = Some r → field d j g = Some v → getf g r = v.
Proof. intros Hr (r' & Hr' & <-)%field_Some. congruence. Qed.

Section final_requested.
Variable root : Component.
Variable ww wh : Q.
Variable are : gmap Z LayoutRecord.
Hypothesis Huniq : ids_unique root.

Lemma computed_requested c d S :
  _compute_layouts_should root ww wh are (rev_preorder root) d = Ok S →
  c ∈ nodes root →
  ∃ r, S !! cid c = Some r
    ∧ requested_inner_width r
      = py_max (natural_width r) (number_or_zero (width (attrs c)))
    ∧ requested_outer_width r
      = (requested_inner_width r + _effective_margin_left (attrs c)
         + _effective_margin_right (attrs c))%Q
    ∧ requested_inner_height r
      = py_max (natural_height r) (number_or_zero (height (attrs c)))
    ∧ requested_outer_height r
      = (requested_inner_height r + _effective_margin_top (attrs c)
         + _effective_margin_bottom (attrs c))%Q.
Proof.
  intros Hrun Hc.
  apply _compute_layouts_should_inv in Hrun
    as (d1 & d2 & d3 & H1 & H2 & H3 & H4).
  destruct (natural_width_pass_locate root are Huniq c _ _ Hc H1)
    as (da & db & Hstep & Hself & _).
  apply natural_width_step_requested in Hstep as (nw & Hnw & Hriw & Hrow).
  destruct (natural_height_pass_locate root are Huniq c _ _ Hc H3)
    as (da' & db' & Hstep' & Hself' & _).
  apply natural_height_step_requested in Hstep' as (nh & Hnh & Hrih & Hroh).
  assert (∀ g, g ∈ [NaturalWidth; RequestedInnerWidth; RequestedOuterWidth] →
               field S (cid c) g = field db (cid c) g) as Hw.
  { intros g Hg.
    rewrite (allocated_height_pass_fields _ _ _ _ _ _ _ _ H4)
      by (intro; set_solver).
    rewrite (natural_height_pass_fields _ _ _ _ _ _ H3) by (intro; set_solver).
    rewrite (allocated_width_pass_fields _ _ _ _ _ _ _ _ H2)
      by (intro; set_solver).
    apply Hself. }
  assert (∀ g, g ∈ [NaturalHeight; RequestedInnerHeight; RequestedOuterHeight] →
               field S (cid c) g = field db' (cid c) g) as Hh.
  { intros g Hg.
    rewrite (allocated_height_pass_fields _ _ _ _ _ _ _ _ H4)
      by (intro; set_solver).
    apply Hself'. }
  rewrite <- Hw in Hnw, Hriw, Hrow by set_solver.
  rewrite <- Hh in Hnh, Hrih, Hroh by set_solver.
  pose proof Hnw as (r & Hr & Hnw')%field_Some. exists r. split; [done|].
  pose proof (field_lookup _ _ _ _ _ Hr Hriw) as E1.
  pose proof (field_lookup _ _ _ _ _ Hr Hrow) as E2.
  pose proof (field_lookup _ _ _ _ _ Hr Hnh) as E3.
  pose proof (field_lookup _ _ _ _ _ Hr Hrih) as E4.
  pose proof (field_lookup _ _ _ _ _ Hr Hroh) as E5.
  simpl in *. subst nw nh. rewrite E2, E5, E1, E4. done.
Qed.

Lemma computed_root d S :
  _compute_layouts_should root ww wh are (rev_preorder root) d = Ok S →
  ∃ r, S !! cid root = Some r
    ∧ left_in_viewport_outer r = 0%Q
    ∧ top_in_viewport_outer r = 0%Q
    ∧ allocated_outer_width r = py_max ww (requested_outer_width r)
    ∧ allocated_outer_height r = py_max wh (requested_outer_height r).
Proof.
  intros Hrun.
  apply _compute_layouts_should_inv in Hrun
    as (d1 & d2 & d3 & H1 & H2 & H3 & H4).
  pose proof H2 as H2'. pose proof H4 as H4'.
  apply allocated_width_pass_seed in H2
    as (lay1 & d0 & Hlay1 & Hlo & Haow & _ & Hloop2).
  apply allocated_height_pass_seed in H4
    as (lay3 & d0' & Hlay3 & Hto & Haoh & Hseed4 & Hloop4).
  assert (∀ x, x ∈ rev_preorder root → cid root ∉ child_ids x) as Hroot.
  { intros x Hx. apply root_not_child; [done|].
    by rewrite <- rev_preorder_Permutation. }
  (* width *)
  assert (∀ g, g = LeftInViewportOuter ∨ g = AllocatedOuterWidth →
               field d2 (cid root) g = field d0 (cid root) g) as Hw.
  { intros g Hg.
    apply (for_each_frame _ _ _ _ _ _ _
             (allocated_width_step_writes ww are) Hloop2).
    intros x Hx [[_ [?|?]]|[Hin _]]; [by destruct Hg; subst..|].
    by eapply Hroot. }
  assert (∀ g, g = TopInViewportOuter ∨ g = AllocatedOuterHeight
               ∨ g = LeftInViewportOuter →
               field S (cid root) g = field d0' (cid root) g) as Hh.
  { intros g Hg.
    apply (for_each_frame _ _ _ _ _ _ _
             (allocated_height_step_writes wh are) Hloop4).
    intros x Hx [[_ [?|?]]|[Hin _]];
      [by destruct Hg as [?|[?|?]]; subst..|].
    by eapply Hroot. }
  assert (field S (cid root) LeftInViewportOuter = Some 0%Q) as E1.
  { rewrite Hh by auto. rewrite Hseed4 by (by intros [_ [?|?]]).
    rewrite (natural_height_pass_fields _ _ _ _ _ _ H3) by (intro; set_solver).
    by rewrite Hw by auto. }
  assert (field S (cid root) TopInViewportOuter = Some 0%Q) as E2.
  { by rewrite Hh by auto. }
  assert (field S (cid root) AllocatedOuterWidth
          = Some (py_max ww (requested_outer_width lay1))) as E3.
  { rewrite (allocated_height_pass_fields _ _ _ _ _ _ _ _ H4')
      by (intro; set_solver).
    rewrite (natural_height_pass_fields _ _ _ _ _ _ H3) by (intro; set_solver).
    by rewrite Hw by auto. }
  assert (field S (cid root) AllocatedOuterHeight
          = Some (py_max wh (requested_outer_height lay3))) as E4.
  { by rewrite Hh by auto. }
  assert (field S (cid root) RequestedOuterWidth
          = Some (requested_outer_width lay1)) as E5.
  { rewrite (allocated_height_pass_fields _ _ _ _ _ _ _ _ H4')
      by (intro; set_solver).
    rewrite (natural_height_pass_fields _ _ _ _ _ _ H3) by (intro; set_solver).
    rewrite (allocated_width_pass_fields _ _ _ _ _ _ _ _ H2')
      by (intro; set_solver).
    unfold field. by rewrite Hlay1. }
  assert (field S (cid root) RequestedOuterHeight
          = Some (requested_outer_height lay3)) as E6.
  { rewrite (allocated_height_pass_fields _ _ _ _ _ _ _ _ H4')
      by (intro; set_solver).
    unfold field. by rewrite Hlay3. }
  pose proof E1 as (r & Hr & E1')%field_Some. exists r. split; [done|].
  pose proof (field_lookup _ _ _ _ _ Hr E2) as E2'.
  pose proof (field_lookup _ _ _ _ _ Hr E3) as E3'.
  pose proof (field_lookup _ _ _ _ _ Hr E4) as E4'.
  pose proof (field_lookup _ _ _ _ _ Hr E5) as E5'.
  pose proof (field_lookup _ _ _ _ _ Hr E6) as E6'.
  simpl in *. by rewrite E3', E4', E5', E6'.
Qed.
End final_requested.

(** X3. In the layouts that [create] returns, the requested inner size of
    every component is the maximum of its natural size and its fixed size
    (0 when the size is not a number), and its requested outer size is the
    requested inner size plus the two margins, on both axes; so the
    requested inner size is never below the natural size. *)
Theorem requested_sizes_from_natural_sizes
    (fuel : nat) (root : Component) (info : UnittestClientLayoutInfo)
    (layouter : Layouter) (c : Component) :
  ids_unique root →
  create fuel root info = Some (Ok layouter) →
  c ∈ nodes root →
  ∃ r, _layouts_should layouter !! cid c = Some r
    ∧ requested_inner_width r
      = py_max (natural_width r) (number_or_zero (width (attrs c)))
    ∧ requested_outer_width r
      = (requested_inner_width r + _effective_margin_left (attrs c)
         + _effective_margin_right (attrs c))%Q
    ∧ requested_inner_height r
      = py_max (natural_height r) (number_or_zero (height (attrs c)))
    ∧ requested_outer_height r
      = (requested_inner_height r + _effective_margin_top (attrs c)
         + _effective_margin_bottom (attrs c))%Q
    ∧ (natural_width r <= requested_inner_width r)%Q
    ∧ (natural_height r <= requested_inner_height r)%Q.
Proof.
  intros Huniq (_ & Hrun & _)%create_Ok_inv Hc.
  destruct (computed_requested root _ _ _ Huniq c _ _ Hrun Hc)
    as (r & Hr & E1 & E2 & E3 & E4).
  exists r. repeat split; try done.
  - rewrite E1. apply py_max_ge_l.
  - rewrite E3. apply py_max_ge_l.
Qed.

Lemma requested_sizes_from_natural_sizes_witness :
  ∃ r, _layouts_should (created ex_root ex_info) !! cid ex_row = Some r
    ∧ requested_inner_width r
      = py_max (natural_width r) (number_or_zero (width (attrs ex_row)))
    ∧ requested_outer_width r
      = (requested_inner_width r + _effective_margin_left (attrs ex_row)
         + _effective_margin_right (attrs ex_row))%Q
    ∧ requested_inner_height r
      = py_max (natural_height r) (number_or_zero (height (attrs ex_row)))
    ∧ requested_outer_height r
      = (requested_inner_height r + _effective_margin_top (attrs ex_row)
         + _effective_margin_bottom (attrs ex_row))%Q
    ∧ (natural_width r <= requested_inner_width r)%Q
    ∧ (natural_height r <= requested_inner_height r)%Q.
Proof.
  apply (requested_sizes_from_natural_sizes 6 ex_root ex_info).
  - exact ex_root_ids_unique.
  - exact ex_root_created.
  - simpl. right. right. left.
Defined.

(** X4. In the layouts that [create] returns, the root sits at the origin
    and its allocated outer size is the larger of the window size and its
    own requested outer size, on both axes: the window never shrinks the
    root below what it requests. *)
Theorem root_allocation
    (fuel : nat) (root : Component) (info : UnittestClientLayoutInfo)
    (layouter : Layouter) :
  ids_unique root →
  create fuel root info = Some (Ok layouter) →
  ∃ r, _layouts_should layouter !! cid root = Some r
    ∧ left_in_viewport_outer r = 0%Q
    ∧ top_in_viewport_outer r = 0%Q
    ∧ allocated_outer_width r
      = py_max (window_width layouter) (requested_outer_width r)
    ∧ allocated_outer_height r
      = py_max (window_height layouter) (requested_outer_height r)
    ∧ (window_width layouter <= allocated_outer_width r)%Q
    ∧ (requested_outer_width r <= allocated_outer_width r)%Q
    ∧ (window_height layouter <= allocated_outer_height r)%Q
    ∧ (requested_outer_height r <= allocated_outer_height r)%Q.
Proof.
  intros Huniq (_ & Hrun & _ & -> & ->)%create_Ok_inv.
  destruct (computed_root root _ _ _ Huniq _ _ Hrun)
    as (r & Hr & E1 & E2 & E3 & E4).
  exists r. repeat split; try done; rewrite ?E3, ?E4;
    auto using py_max_ge_l, py_max_ge_r.
Qed.

Lemma root_allocation_witness :
  ∃ r, _layouts_should (created ex_root ex_info) !! cid ex_root = Some r
    ∧ left_in_viewport_outer r = 0%Q
    ∧ top_in_viewport_outer r = 0%Q
    ∧ allocated_outer_width r
      = py_max (window_width (created ex_root ex_info)) (requested_outer_width r)
    ∧ allocated_outer_height r
      = py_max (window_height (created ex_root ex_info)) (requested_outer_height r)
    ∧ (window_width (created ex_root ex_info) <= allocated_outer_width r)%Q
    ∧ (requested_outer_width r <= allocated_outer_width r)%Q
    ∧ (window_height (created ex_root ex_info) <= allocated_outer_height r)%Q
    ∧ (requested_outer_height r <= allocated_outer_height r)%Q.
Proof.
  apply (root_allocation 6 ex_root ex_info).
  - exact ex_root_ids_unique.
  - exact ex_root_created.
Defined.

Lemma allocated_width_step_inner ww are c d d' :
  allocated_width_step ww are c d = Ok d' →
  ∃ lay, d !! cid c = Some lay
    ∧ field d' (cid c) LeftInViewportInner =
      Some (left_in_viewport_outer lay
            + fst (calculate_alignment
                     (allocated_outer_width lay) (requested_inner_width lay)
                     (_effective_margin_left (attrs c))
                     (_effective_margin_right (attrs c))
                     (align_x (attrs c))))%Q
    ∧ field d' (cid c) AllocatedInnerWidth =
      Some (snd (calculate_alignment
                   (allocated_outer_width lay) (requested_inner_width lay)
                   (_effective_margin_left (attrs c))
                   (_effective_margin_right (attrs c))
                   (align_x (attrs c)))).
Proof.
  unfold allocated_width_step.
  intros (lay & Hlay%getitem_Ok & H)%bind_Ok.
  exists lay. split; [done|].
  destruct (calculate_alignment _ _ _ _ _) as [l w]. simpl.
  apply bind_Ok in H as (d1 & H1 & H).
  apply bind_Ok in H as (d2 & H2 & H).
  rewrite !(_update_allocated_width_writes _ _ _ _ _ H)
    by (by intros [_ [?|[? _]]]).
  rewrite !(setattr_field _ _ _ _ _ _ _ H2).
  rewrite !(setattr_field _ _ _ _ _ _ _ H1).
  repeat case_decide; naive_solver.
Qed.

Lemma allocated_height_step_inner wh are c d d' :
  allocated_height_step wh are c d = Ok d' →
  ∃ lay, d !! cid c = Some lay
    ∧ field d' (cid c) TopInViewportInner =
      Some (top_in_viewport_outer lay
            + fst (calculate_alignment
                     (allocated_outer_height lay) (requested_inner_height lay)
                     (_effective_margin_top (attrs c))
                     (_effective_margin_bottom (attrs c))
                     (align_y (attrs c))))%Q
    ∧ field d' (cid c) AllocatedInnerHeight =
      Some (snd (calculate_alignment
                   (allocated_outer_height lay) (requested_inner_height lay)
                   (_effective_margin_top (attrs c))
                   (_effective_margin_bottom (attrs c))
                   (align_y (attrs c)))).
Proof.
  unfold allocated_height_step.
  intros (lay & Hlay%getitem_Ok & H)%bind_Ok.
  exists lay. split; [done|].
  destruct (calculate_alignment _ _ _ _ _) as [l w]. simpl.
  apply bind_Ok in H as (d1 & H1 & H).
  apply bind_Ok in H as (d2 & H2 & H).
  rewrite !(_update_allocated_height_writes _ _ _ _ _ H)
    by (by intros [_ [?|[?|[? _]]]]).
  rewrite !(setattr_field _ _ _ _ _ _ _ H2).
  rewrite !(setattr_field _ _ _ _ _ _ _ H1).
  repeat case_decide; naive_solver.
Qed.

Section final_allocation.
Variable root : Component.
Variable ww wh : Q.
Variable are : gmap Z LayoutRecord.
Hypothesis Huniq : ids_unique root.

(** The step of [c] in the loop of the width allocation pass: its own
    inner attributes are final after it, its own outer attributes are
    final before it, and those of its children are final after it. *)
Lemma allocated_width_loop_locate c d0 d2 :
  c ∈ nodes root →
  for_each (allocated_width_step ww are) (rev_preorder root) d0 = Ok d2 →
  ∃ da db,
    allocated_width_step ww are c da = Ok db
    ∧ (∀ g, g = LeftInViewportInner ∨ g = AllocatedInnerWidth →
         field d2 (cid c) g = field db (cid c) g)
    ∧ (∀ g, g = AllocatedOuterWidth ∨ g = LeftInViewportOuter →
         field d2 (cid c) g = field da (cid c) g)
    ∧ (∀ ch g, ch ∈ iter_direct_tree_children c →
         g = AllocatedOuterWidth ∨ g = LeftInViewportOuter →
         field d2 (cid ch) g = field db (cid ch) g)
    ∧ (∀ j g, g ∉ [LeftInViewportOuter; AllocatedOuterWidth;
                   LeftInViewportInner; AllocatedInnerWidth] →
         field da j g = field d0 j g).
Proof.
  intros Hc Hloop.
  destruct (walk_split root c Hc) as (l1 & l2 & HL).
  pose proof (walk_ids_distinct root l1 c l2 Huniq HL) as Hne.
  destruct (walk_split_props root l1 c l2 Huniq HL) as (_ & Hdisj & _).
  pose proof (not_child_from root l1 c l2) as Hnc.
  rewrite HL in Hloop.
  apply (for_each_locate _ _ _ _ _ _ _ (allocated_width_step_writes ww are))
    in Hloop as (da & db & _ & Hstep & Hbefore & Hafter).
  exists da, db. split; [done|]. split; [|split; [|split]].
  - intros g Hg. apply Hafter.
    intros x Hx [[Heq _]|[_ [?|[? _]]]]; [|by destruct Hg; subst..].
    eapply Hne; [|symmetry; exact Heq]. apply elem_of_app. by right.
  - intros g Hg. rewrite Hafter.
    + apply (allocated_width_step_writes ww are c _ _ Hstep).
      intros [[_ [?|?]]|[Hin _]]; [by destruct Hg; subst..|].
      eapply Hnc; [done|done|left|done].
    + intros x Hx [[_ [?|?]]|[Hin _]]; [by destruct Hg; subst..|].
      eapply Hnc; [done|done|by right|done].
  - intros ch g Hch Hg. apply Hafter.
    intros x Hx [[_ [?|?]]|[Hin _]]; [by destruct Hg; subst..|].
    eapply Hdisj; [|done..]. apply elem_of_app. by right.
  - intros j g Hg. apply Hbefore.
    intros x _ [[_ [->| ->]]|[_ [->|[-> _]]]]; apply Hg; set_solver.
Qed.

Lemma allocated_height_loop_locate c d0 d4 :
  c ∈ nodes root →
  for_each (allocated_height_step wh are) (rev_preorder root) d0 = Ok d4 →
  ∃ da db,
    allocated_height_step wh are c da = Ok db
    ∧ (∀ g, g = TopInViewportInner ∨ g = AllocatedInnerHeight →
         field d4 (cid c) g = field db (cid c) g)
    ∧ (∀ g, g = AllocatedOuterHeight ∨ g = TopInViewportOuter →
         field d4 (cid c) g = field da (cid c) g)
    ∧ (∀ ch g, ch ∈ iter_direct_tree_children c →
         g = AllocatedOuterHeight ∨ g = TopInViewportOuter →
         field d4 (cid ch) g = field db (cid ch) g)
    ∧ (∀ j g, g ∉ [TopInViewportOuter; AllocatedOuterHeight;
                   TopInViewportInner; AllocatedInnerHeight;
                   LeftInViewportOuter] →
         field da j g = field d0 j g).
Proof.
  intros Hc Hloop.
  destruct (walk_split root c Hc) as (l1 & l2 & HL).
  pose proof (walk_ids_distinct root l1 c l2 Huniq HL) as Hne.
  destruct (walk_split_props root l1 c l2 Huniq HL) as (_ & Hdisj & _).
  pose proof (not_child_from root l1 c l2) as Hnc.
  rewrite HL in Hloop.
  apply (for_each_locate _ _ _ _ _ _ _ (allocated_height_step_writes wh are))
    in Hloop as (da & db & _ & Hstep & Hbefore & Hafter).
  exists da, db. split; [done|]. split; [|split; [|split]].
  - intros g Hg. apply Hafter.
    intros x Hx [[Heq _]|[_ [?|[?|[? _]]]]]; [|by destruct Hg; subst..].
    eapply Hne; [|symmetry; exact Heq]. apply elem_of_app. by right.
  - intros g Hg. rewrite Hafter.
    + apply (allocated_height_step_writes wh are c _ _ Hstep).
      intros [[_ [?|?]]|[Hin _]]; [by destruct Hg; subst..|].
      eapply Hnc; [done|done|left|done].
    + intros x Hx [[_ [?|?]]|[Hin _]]; [by destruct Hg; subst..|].
      eapply Hnc; [done|done|by right|done].
  - intros ch g Hch Hg. apply Hafter.
    intros x Hx [[_ [?|?]]|[Hin _]]; [by destruct Hg; subst..|].
    eapply Hdisj; [|done..]. apply elem_of_app. by right.
  - intros j g Hg. apply Hbefore.
    intros x _ [[_ [->| ->]]|[_ [->|[->|[-> _]]]]]; apply Hg; set_solver.
Qed.

(** The left position of a component is not assigned during the height
    allocation pass when it is the root or the child of a component with
    a layout method of its own. *)
Lemma height_pass_left_final c d d' :
  c = root ∨ (∃ p, p ∈ nodes root ∧ c ∈ iter_direct_tree_children p
                   ∧ strategy_of p ≠ DefaultStrategy) →
  allocated_height_pass root wh are (rev_preorder root) d = Ok d' →
  field d' (cid c) LeftInViewportOuter = field d (cid c) LeftInViewportOuter.
Proof.
  intros [->|(p & Hp & Hcp & Hs)] H.
  - apply allocated_height_pass_inv in H as (d0 & Hseed & Hloop).
    rewrite (for_each_frame _ _ _ _ _ (cid root) LeftInViewportOuter
               (allocated_height_step_writes wh are) Hloop).
    + apply Hseed. by intros [_ [?|?]].
    + intros x Hx [[_ [?|?]]|[Hin _]]; try done.
      eapply root_not_child; [done| |done].
      by rewrite <- rev_preorder_Permutation.
  - by eapply height_pass_left_frame.
Qed.

Lemma computed_inner c d S :
  _compute_layouts_should root ww wh are (rev_preorder root) d = Ok S →
  c ∈ nodes root →
  ∃ r, S !! cid c = Some r
    ∧ allocated_inner_width r =
      snd (calculate_alignment
             (allocated_outer_width r) (requested_inner_width r)
             (_effective_margin_left (attrs c))
             (_effective_margin_right (attrs c)) (align_x (attrs c)))
    ∧ allocated_inner_height r =
      snd (calculate_alignment
             (allocated_outer_height r) (requested_inner_height r)
             (_effective_margin_top (attrs c))
             (_effective_margin_bottom (attrs c)) (align_y (attrs c)))
    ∧ top_in_viewport_inner r =
      (top_in_viewport_outer r
       + fst (calculate_alignment
                (allocated_outer_height r) (requested_inner_height r)
                (_effective_margin_top (attrs c))
                (_effective_margin_bottom (attrs c)) (align_y (attrs c))))%Q
    ∧ (c = root ∨ (∃ p, p ∈ nodes root ∧ c ∈ iter_direct_tree_children p
                        ∧ strategy_of p ≠ DefaultStrategy) →
       left_in_viewport_inner r =
       (left_in_viewport_outer r
        + fst (calculate_alignment
                 (allocated_outer_width r) (requested_inner_width r)
                 (_effective_margin_left (attrs c))
                 (_effective_margin_right (attrs c)) (align_x (attrs c))))%Q).
Proof.
  intros Hrun Hc.
  apply _compute_layouts_should_inv in Hrun
    as (d1 & d2 & d3 & H1 & H2 & H3 & H4).
  pose proof H2 as H2'. pose proof H4 as H4'.
  apply allocated_width_pass_inv in H2 as (d0 & Hseed2 & Hloop2).
  apply allocated_height_pass_inv in H4 as (d0' & Hseed4 & Hloop4).
  destruct (allocated_width_loop_locate c _ _ Hc Hloop2)
    as (da & db & Hstep & Hself & Hown & _ & Hother).
  destruct (allocated_height_loop_locate c _ _ Hc Hloop4)
    as (da' & db' & Hstep' & Hself' & Hown' & _ & Hother').
  apply allocated_width_step_inner in Hstep as (lay & Hlay & HLI & HAIW).
  apply allocated_height_step_inner in Hstep' as (lay' & Hlay' & HTI & HAIH).
  assert (∀ g, g ∉ [NaturalHeight; RequestedInnerHeight; RequestedOuterHeight;
                    TopInViewportOuter; AllocatedOuterHeight;
                    TopInViewportInner; AllocatedInnerHeight;
                    LeftInViewportOuter] →
               field S (cid c) g = field d2 (cid c) g) as Hlate.
  { intros g Hg.
    rewrite (allocated_height_pass_fields _ _ _ _ _ _ _ _ H4')
      by (intro; apply Hg; set_solver).
    by rewrite (natural_height_pass_fields _ _ _ _ _ _ H3)
      by (intro; apply Hg; set_solver). }
  assert (field S (cid c) AllocatedInnerWidth
          = Some (snd (calculate_alignment
               (allocated_outer_width lay) (requested_inner_width lay)
               (_effective_margin_left (attrs c))
               (_effective_margin_right (attrs c)) (align_x (attrs c))))) as E1.
  { rewrite Hlate by (intro; set_solver). by rewrite Hself by auto. }
  assert (field S (cid c) LeftInViewportInner
          = Some (left_in_viewport_outer lay
                  + fst (calculate_alignment
               (allocated_outer_width lay) (requested_inner_width lay)
               (_effective_margin_left (attrs c))
               (_effective_margin_right (attrs c)) (align_x (attrs c))))%Q)
    as E2.
  { rewrite Hlate by (intro; set_solver). by rewrite Hself by auto. }
  assert (field S (cid c) AllocatedOuterWidth
          = Some (allocated_outer_width lay)) as E3.
  { rewrite Hlate by (intro; set_solver). rewrite Hown by auto.
    unfold field. by rewrite Hlay. }
  assert (field S (cid c) RequestedInnerWidth
          = Some (requested_inner_width lay)) as E4.
  { rewrite Hlate by (intro; set_solver).
    rewrite (allocated_width_pass_fields _ _ _ _ _ _ _ _ H2')
      by (intro; set_solver).
    rewrite <- Hseed2 by (by intros [_ [?|?]]).
    rewrite <- Hother by (intro; set_solver).
    unfold field. by rewrite Hlay. }
  assert (field S (cid c) AllocatedInnerHeight
          = Some (snd (calculate_alignment
               (allocated_outer_height lay') (requested_inner_height lay')
               (_effective_margin_top (attrs c))
               (_effective_margin_bottom (attrs c)) (align_y (attrs c)))))
    as E5.
  { by rewrite Hself' by auto. }
  assert (field S (cid c) TopInViewportInner
          = Some (top_in_viewport_outer lay'
                  + fst (calculate_alignment
               (allocated_outer_height lay') (requested_inner_height lay')
               (_effective_margin_top (attrs c))
               (_effective_margin_bottom (attrs c)) (align_y (attrs c))))%Q)
    as E6.
  { by rewrite Hself' by auto. }
  assert (field S (cid c) AllocatedOuterHeight
          = Some (allocated_outer_height lay')) as E7.
  { rewrite Hown' by auto. unfold field. by rewrite Hlay'. }
  assert (field S (cid c) TopInViewportOuter
          = Some (top_in_viewport_outer lay')) as E8.
  { rewrite Hown' by auto. unfold field. by rewrite Hlay'. }
  assert (field S (cid c) RequestedInnerHeight
          = Some (requested_inner_height lay')) as E9.
  { rewrite (allocated_height_pass_fields _ _ _ _ _ _ _ _ H4')
      by (intro; set_solver).
    rewrite <- Hseed4 by (by intros [_ [?|?]]).
    rewrite <- Hother' by (intro; set_solver).
    unfold field. by rewrite Hlay'. }
  pose proof E1 as (r & Hr & E1')%field_Some. exists r. split; [done|].
  pose proof (field_lookup _ _ _ _ _ Hr E2) as E2'.
  pose proof (field_lookup _ _ _ _ _ Hr E3) as E3'.
  pose proof (field_lookup _ _ _ _ _ Hr E4) as E4'.
  pose proof (field_lookup _ _ _ _ _ Hr E5) as E5'.
  pose proof (field_lookup _ _ _ _ _ Hr E6) as E6'.
  pose proof (field_lookup _ _ _ _ _ Hr E7) as E7'.
  pose proof (field_lookup _ _ _ _ _ Hr E8) as E8'.
  pose proof (field_lookup _ _ _ _ _ Hr E9) as E9'.
  simpl in *. rewrite E3', E4', E7', E8', E9'.
  split; [done|]. split; [done|]. split; [done|].
  intros Hparent.
  assert (field S (cid c) LeftInViewportOuter
          = Some (left_in_viewport_outer lay)) as E10.
  { rewrite (height_pass_left_final c _ _ Hparent H4').
    rewrite (natural_height_pass_fields _ _ _ _ _ _ H3) by (intro; set_solver).
    rewrite Hown by auto. unfold field. by rewrite Hlay. }
  pose proof (field_lookup _ _ _ _ _ Hr E10) as E10'. simpl in E10'.
  by rewrite E10'.
Qed.
End final_allocation.

(** X5. In the layouts that [create] returns, the allocated inner size of
    every component, on both axes, and its inner top position are what
    [calculate_alignment] gives for its own final allocated outer size,
    requested inner size, margins and alignment; the same holds of the
    inner left position of the root and of every child of a component
    that has a layout method of its own. *)
Theorem inner_allocation_from_alignment
    (fuel : nat) (root : Component) (info : UnittestClientLayoutInfo)
    (layouter : Layouter) (c : Component) :
  ids_unique root →
  create fuel root info = Some (Ok layouter) →
  c ∈ nodes root →
  ∃ r, _layouts_should layouter !! cid c = Some r
    ∧ allocated_inner_width r =
      snd (calculate_alignment
             (allocated_outer_width r) (requested_inner_width r)
             (_effective_margin_left (attrs c))
             (_effective_margin_right (attrs c)) (align_x (attrs c)))
    ∧ allocated_inner_height r =
      snd (calculate_alignment
             (allocated_outer_height r) (requested_inner_height r)
             (_effective_margin_top (attrs c))
             (_effective_margin_bottom (attrs c)) (align_y (attrs c)))
    ∧ top_in_viewport_inner r =
      (top_in_viewport_outer r
       + fst (calculate_alignment
                (allocated_outer_height r) (requested_inner_height r)
                (_effective_margin_top (attrs c))
                (_effective_margin_bottom (attrs c)) (align_y (attrs c))))%Q
    ∧ (c = root ∨ (∃ p, p ∈ nodes root ∧ c ∈ iter_direct_tree_children p
                        ∧ strategy_of p ≠ DefaultStrategy) →
       left_in_viewport_inner r =
       (left_in_viewport_outer r
        + fst (calculate_alignment
                 (allocated_outer_width r) (requested_inner_width r)
                 (_effective_margin_left (attrs c))
                 (_effective_margin_right (attrs c)) (align_x (attrs c))))%Q).
Proof.
  intros Huniq (_ & Hrun & _)%create_Ok_inv Hc.
  by eapply computed_inner.
Qed.

Lemma inner_allocation_from_alignment_witness :
  ∃ r, _layouts_should (created ex_root ex_info) !! cid ex_app = Some r
    ∧ allocated_inner_width r =
      snd (calculate_alignment
             (allocated_outer_width r) (requested_inner_width r)
             (_effective_margin_left (attrs ex_app))
             (_effective_margin_right (attrs ex_app)) (align_x (attrs ex_app)))
    ∧ allocated_inner_height r =
      snd (calculate_alignment
             (allocated_outer_height r) (requested_inner_height r)
             (_effective_margin_top (attrs ex_app))
             (_effective_margin_bottom (attrs ex_app)) (align_y (attrs ex_app)))
    ∧ top_in_viewport_inner r =
      (top_in_viewport_outer r
       + fst (calculate_alignment
                (allocated_outer_height r) (requested_inner_height r)
                (_effective_margin_top (attrs ex_app))
                (_effective_margin_bottom (attrs ex_app))
                (align_y (attrs ex_app))))%Q
    ∧ (ex_app = ex_root
       ∨ (∃ p, p ∈ nodes ex_root ∧ ex_app ∈ iter_direct_tree_children p
               ∧ strategy_of p ≠ DefaultStrategy) →
       left_in_viewport_inner r =
       (left_in_viewport_outer r
        + fst (calculate_alignment
                 (allocated_outer_width r) (requested_inner_width r)
                 (_effective_margin_left (attrs ex_app))
                 (_effective_margin_right (attrs ex_app))
                 (align_x (attrs ex_app))))%Q).
Proof.
  apply (inner_allocation_from_alignment 6 ex_root ex_info).
  - exact ex_root_ids_unique.
  - exact ex_root_created.
  - simpl. right. left.
Defined.

(** ** Containers that hand their inner box to their children *)

Lemma pass_on_all_space_spec pos size ip isz c :
  pos ≠ size →
  ∀ children d d',
    cid c ∉ (cid <$> children) →
    pass_on_all_space pos size ip isz c children d = Ok d' →
    ∀ ch, ch ∈ children →
      field d' (cid ch) pos = field d (cid c) ip
      ∧ field d' (cid ch) size = field d (cid c) isz.
Proof.
  intros Hps. induction children as [|x rest IH]; intros d d' Hnot Hrun ch Hch.
  { by apply elem_of_nil in Hch. }
  unfold pass_on_all_space in Hrun. simpl in Hrun.
  apply bind_Ok in Hrun as (d1 & Hbody & Hrest).
  apply bind_Ok in Hbody as (? & _ & Hbody).
  apply bind_Ok in Hbody as (lay & Hlay%getitem_Ok & Hbody).
  apply bind_Ok in Hbody as (da & Ha & Hbody).
  apply bind_Ok in Hbody as (lay' & Hlay'%getitem_Ok & Hb).
  rewrite fmap_cons, not_elem_of_cons in Hnot. destruct Hnot as [Hne Hnot].
  assert (∀ g, field d1 (cid c) g = field d (cid c) g) as Hc.
  { intros g.
    rewrite (setattr_field_ne _ _ _ _ _ _ _ Hb) by (by intros [? _]).
    by rewrite (setattr_field_ne _ _ _ _ _ _ _ Ha) by (by intros [? _]). }
  assert (field d1 (cid x) pos = field d (cid c) ip
          ∧ field d1 (cid x) size = field d (cid c) isz) as Hx.
  { split.
    - rewrite (setattr_field_ne _ _ _ _ _ _ _ Hb) by (by intros [_ ?]).
      rewrite (setattr_field_eq _ _ _ _ _ Ha).
      unfold field. by rewrite Hlay.
    - rewrite (setattr_field_eq _ _ _ _ _ Hb).
      rewrite <- (setattr_field_ne _ _ _ _ _ (cid c) isz Ha)
        by (by intros [? _]).
      unfold field. by rewrite Hlay'. }
  assert (∀ y, y ∈ rest →
            field d' (cid y) pos = field d (cid c) ip
            ∧ field d' (cid y) size = field d (cid c) isz) as Hrest'.
  { intros y Hy. rewrite <- !Hc. by apply (IH d1 d' Hnot Hrest y). }
  apply elem_of_cons in Hch as [->|Hch]; [|by apply Hrest'].
  destruct (decide (cid x ∈ cid <$> rest)) as [Hin|Hnin].
  - apply list_elem_of_fmap in Hin as (y & Heq & Hy). rewrite Heq.
    by apply Hrest'.
  - destruct Hx as [<- <-].
    split; (eapply (pass_on_all_space_writes pos size ip isz c rest);
            [exact Hrest|by intros [? _]]).
Qed.

Lemma allocated_width_step_pass_on ww are c d d' children :
  (strategy_of c = SingleContainerStrategy
   ∧ children = iter_direct_tree_children c)
  ∨ (strategy_of c = ColumnStrategy ∧ children = _iter_direct_children c) →
  cid c ∉ child_ids c →
  allocated_width_step ww are c d = Ok d' →
  ∀ ch, ch ∈ children →
    field d' (cid ch) LeftInViewportOuter
    = field d' (cid c) LeftInViewportInner
    ∧ field d' (cid ch) AllocatedOuterWidth
      = field d' (cid c) AllocatedInnerWidth.
Proof.
  intros Hs Hself. unfold allocated_width_step.
  intros (lay & _ & H)%bind_Ok ch Hch.
  destruct (calculate_alignment _ _ _ _ _) as [l w].
  apply bind_Ok in H as (d1 & _ & H).
  apply bind_Ok in H as (d2 & _ & H).
  assert (cid c ∉ cid <$> children) as Hnot.
  { destruct Hs as [[_ ->]|[_ ->]]; [done|].
    intros Hin. by apply Hself, direct_children_ids. }
  assert (pass_on_all_space LeftInViewportOuter AllocatedOuterWidth
            LeftInViewportInner AllocatedInnerWidth c children d2 = Ok d')
    as Hrun.
  { unfold _update_allocated_width in H. rewrite specialized_strategy in H.
    destruct Hs as [[Hs ->]|[Hs ->]]; rewrite Hs in H.
    - unfold _update_allocated_width_SingleContainer in H.
      by apply bind_Ok in H as (? & _ & H).
    - unfold _update_allocated_width_Column in H.
      by apply bind_Ok in H as (? & _ & H). }
  rewrite !(pass_on_all_space_writes _ _ _ _ _ _ _ _ Hrun (cid c))
    by (by intros [? _]).
  eapply pass_on_all_space_spec; [done|exact Hnot|exact Hrun|exact Hch].
Qed.

Lemma allocated_height_step_pass_on wh are c d d' children :
  (strategy_of c = SingleContainerStrategy
   ∧ children = iter_direct_tree_children c)
  ∨ (strategy_of c = RowStrategy ∧ children = _iter_direct_children c) →
  cid c ∉ child_ids c →
  allocated_height_step wh are c d = Ok d' →
  ∀ ch, ch ∈ children →
    field d' (cid ch) TopInViewportOuter
    = field d' (cid c) TopInViewportInner
    ∧ field d' (cid ch) AllocatedOuterHeight
      = field d' (cid c) AllocatedInnerHeight.
Proof.
  intros Hs Hself. unfold allocated_height_step.
  intros (lay & _ & H)%bind_Ok ch Hch.
  destruct (calculate_alignment _ _ _ _ _) as [l w].
  apply bind_Ok in H as (d1 & _ & H).
  apply bind_Ok in H as (d2 & _ & H).
  assert (cid c ∉ cid <$> children) as Hnot.
  { destruct Hs as [[_ ->]|[_ ->]]; [done|].
    intros Hin. by apply Hself, direct_children_ids. }
  assert (pass_on_all_space TopInViewportOuter AllocatedOuterHeight
            TopInViewportInner AllocatedInnerHeight c children d2 = Ok d')
    as Hrun.
  { unfold _update_allocated_height in H. rewrite specialized_strategy in H.
    destruct Hs as [[Hs ->]|[Hs ->]]; rewrite Hs in H.
    - unfold _update_allocated_height_SingleContainer in H.
      by apply bind_Ok in H as (? & _ & H).
    - unfold _update_allocated_height_Row in H.
      by apply bind_Ok in H as (? & _ & H). }
  rewrite !(pass_on_all_space_writes _ _ _ _ _ _ _ _ Hrun (cid c))
    by (by intros [? _]).
  eapply pass_on_all_space_spec; [done|exact Hnot|exact Hrun|exact Hch].
Qed.

Lemma strategy_of_SingleContainer c :
  type_of (attrs c) ∈ FULL_SIZE_SINGLE_CONTAINERS →
  strategy_of c = SingleContainerStrategy.
Proof.
  intros H. unfold strategy_of, method_suffix.
  rewrite (bool_decide_eq_true_2 _ H). reflexivity.
Qed.

Lemma self_not_child root c :
  ids_unique root → c ∈ nodes root → cid c ∉ child_ids c.
Proof.
  intros Huniq Hc. destruct (walk_split root c Hc) as (l1 & l2 & HL).
  eapply not_child_from; [done|done|left].
Qed.

Section final_pass_on.
Variable root : Component.
Variable ww wh : Q.
Variable are : gmap Z LayoutRecord.
Hypothesis Huniq : ids_unique root.

Lemma computed_pass_on_width p ch children d S :
  _compute_layouts_should root ww wh are (rev_preorder root) d = Ok S →
  p ∈ nodes root →
  (strategy_of p = SingleContainerStrategy
   ∧ children = iter_direct_tree_children p)
  ∨ (strategy_of p = ColumnStrategy ∧ children = _iter_direct_children p) →
  ch ∈ children →
  ∃ rp rc, S !! cid p = Some rp ∧ S !! cid ch = Some rc
    ∧ left_in_viewport_outer rc = left_in_viewport_inner rp
    ∧ allocated_outer_width rc = allocated_inner_width rp.
Proof.
  intros Hrun Hp Hs Hch.
  assert (ch ∈ iter_direct_tree_children p) as Hch'.
  { destruct Hs as [[_ ->]|[_ ->]]; [done|].
    by apply iter_direct_children_subset. }
  assert (strategy_of p ≠ DefaultStrategy) as Hnd.
  { destruct Hs as [[-> _]|[-> _]]; done. }
  apply _compute_layouts_should_inv in Hrun
    as (d1 & d2 & d3 & H1 & H2 & H3 & H4).
  pose proof H2 as (d0 & _ & Hloop2)%allocated_width_pass_inv.
  destruct (allocated_width_loop_locate root ww are Huniq p _ _ Hp Hloop2)
    as (da & db & Hstep & Hself & _ & Hchild & _).
  pose proof (allocated_width_step_pass_on _ _ _ _ _ _ Hs
                (self_not_child root p Huniq Hp) Hstep ch Hch) as [E1 E2].
  apply allocated_width_step_inner in Hstep as (lay & _ & HLI & HAIW).
  assert (∀ g, g = LeftInViewportInner ∨ g = AllocatedInnerWidth →
               field S (cid p) g = field db (cid p) g) as Hp'.
  { intros g Hg.
    rewrite (allocated_height_pass_fields _ _ _ _ _ _ _ _ H4)
      by (intro; destruct Hg; subst; set_solver).
    rewrite (natural_height_pass_fields _ _ _ _ _ _ H3)
      by (intro; destruct Hg; subst; set_solver).
    by apply Hself. }
  assert (field S (cid ch) AllocatedOuterWidth
          = field db (cid ch) AllocatedOuterWidth) as Hc1.
  { rewrite (allocated_height_pass_fields _ _ _ _ _ _ _ _ H4)
      by (intro; set_solver).
    rewrite (natural_height_pass_fields _ _ _ _ _ _ H3) by (intro; set_solver).
    apply Hchild; auto. }
  assert (field S (cid ch) LeftInViewportOuter
          = field db (cid ch) LeftInViewportOuter) as Hc2.
  { rewrite (height_pass_left_frame root wh are Huniq p ch _ _ Hp Hch' Hnd H4).
    rewrite (natural_height_pass_fields _ _ _ _ _ _ H3) by (intro; set_solver).
    apply Hchild; auto. }
  rewrite <- Hp' in HLI, HAIW, E1, E2 by auto.
  rewrite <- Hc1 in E2. rewrite <- Hc2 in E1.
  pose proof HLI as (rp & Hrp & HLI')%field_Some.
  rewrite HLI in E1. pose proof E1 as (rc & Hrc & E1')%field_Some.
  exists rp, rc. split; [done|]. split; [done|].
  rewrite HAIW in E2.
  pose proof (field_lookup _ _ _ _ _ Hrp HAIW) as E3.
  pose proof (field_lookup _ _ _ _ _ Hrc E2) as E4.
  simpl in *. by rewrite E1', HLI', E3, E4.
Qed.

Lemma computed_pass_on_height p ch children d S :
  _compute_layouts_should root ww wh are (rev_preorder root) d = Ok S →
  p ∈ nodes root →
  (strategy_of p = SingleContainerStrategy
   ∧ children = iter_direct_tree_children p)
  ∨ (strategy_of p = RowStrategy ∧ children = _iter_direct_children p) →
  ch ∈ children →
  ∃ rp rc, S !! cid p = Some rp ∧ S !! cid ch = Some rc
    ∧ top_in_viewport_outer rc = top_in_viewport_inner rp
    ∧ allocated_outer_height rc = allocated_inner_height rp.
Proof.
  intros Hrun Hp Hs Hch.
  assert (ch ∈ iter_direct_tree_children p) as Hch'.
  { destruct Hs as [[_ ->]|[_ ->]]; [done|].
    by apply iter_direct_children_subset. }
  apply _compute_layouts_should_inv in Hrun
    as (d1 & d2 & d3 & H1 & H2 & H3 & H4).
  pose proof H4 as (d0 & _ & Hloop4)%allocated_height_pass_inv.
  destruct (allocated_height_loop_locate root wh are Huniq p _ _ Hp Hloop4)
    as (da & db & Hstep & Hself & _ & Hchild & _).
  pose proof (allocated_height_step_pass_on _ _ _ _ _ _ Hs
                (self_not_child root p Huniq Hp) Hstep ch Hch) as [E1 E2].
  apply allocated_height_step_inner in Hstep as (lay & _ & HTI & HAIH).
  rewrite <- !Hself in HTI, HAIH, E1, E2 by auto.
  rewrite <- !(Hchild ch) in E1, E2 by auto.
  pose proof HTI as (rp & Hrp & HTI')%field_Some.
  rewrite HTI in E1. pose proof E1 as (rc & Hrc & E1')%field_Some.
  exists rp, rc. split; [done|]. split; [done|].
  rewrite HAIH in E2.
  pose proof (field_lookup _ _ _ _ _ Hrp HAIH) as E3.
  pose proof (field_lookup _ _ _ _ _ Hrc E2) as E4.
  simpl in *. by rewrite E1', HTI', E3, E4.
Qed.
End final_pass_on.

(** X6. In the layouts that [create] returns, every tree child of one of
    the [FULL_SIZE_SINGLE_CONTAINERS] occupies exactly the inner box of
    its parent: its outer position and allocated outer size are the
    parent's inner position and allocated inner size, on both axes. *)
Theorem single_container_child_fills_parent
    (fuel : nat) (root : Component) (info : UnittestClientLayoutInfo)
    (layouter : Layouter) (p ch : Component) :
  ids_unique root →
  create fuel root info = Some (Ok layouter) →
  p ∈ nodes root →
  type_of (attrs p) ∈ FULL_SIZE_SINGLE_CONTAINERS →
  ch ∈ iter_direct_tree_children p →
  ∃ rp rc,
    _layouts_should layouter !! cid p = Some rp
    ∧ _layouts_should layouter !! cid ch = Some rc
    ∧ left_in_viewport_outer rc = left_in_viewport_inner rp
    ∧ allocated_outer_width rc = allocated_inner_width rp
    ∧ top_in_viewport_outer rc = top_in_viewport_inner rp
    ∧ allocated_outer_height rc = allocated_inner_height rp.
Proof.
  intros Huniq (_ & Hrun & _)%create_Ok_inv Hp Htype Hch.
  assert (strategy_of p = SingleContainerStrategy) as Hs.
  { by apply strategy_of_SingleContainer. }
  destruct (computed_pass_on_width root _ _ _ Huniq p ch _ _ _ Hrun Hp
              (or_introl (conj Hs eq_refl)) Hch)
    as (rp & rc & Hrp & Hrc & E1 & E2).
  destruct (computed_pass_on_height root _ _ _ Huniq p ch _ _ _ Hrun Hp
              (or_introl (conj Hs eq_refl)) Hch)
    as (rp' & rc' & Hrp' & Hrc' & E3 & E4).
  assert (rp' = rp) as -> by congruence.
  assert (rc' = rc) as -> by congruence.
  by exists rp, rc.
Qed.

Lemma single_container_child_fills_parent_witness :
  ∃ rp rc,
    _layouts_should (created ex_root ex_info) !! cid ex_root = Some rp
    ∧ _layouts_should (created ex_root ex_info) !! cid ex_app = Some rc
    ∧ left_in_viewport_outer rc = left_in_viewport_inner rp
    ∧ allocated_outer_width rc = allocated_inner_width rp
    ∧ top_in_viewport_outer rc = top_in_viewport_inner rp
    ∧ allocated_outer_height rc = allocated_inner_height rp.
Proof.
  apply (single_container_child_fills_parent 6 ex_root ex_info).
  - exact ex_root_ids_unique.
  - exact ex_root_created.
  - simpl. left.
  - apply (bool_decide_unpack _). vm_compute. exact I.
  - simpl. left.
Defined.

(** X7. On the axis across its direction a linear container hands its
    whole inner extent to every child: in the layouts that [create]
    returns, each child of a row has the row's inner top position and
    allocated inner height as its outer top position and allocated outer
    height, and each child of a column has the column's inner left
    position and allocated inner width as its outer left position and
    allocated outer width. *)
Theorem linear_container_cross_axis
    (fuel : nat) (root : Component) (info : UnittestClientLayoutInfo)
    (layouter : Layouter) (p ch : Component) :
  ids_unique root →
  create fuel root info = Some (Ok layouter) →
  p ∈ nodes root →
  ch ∈ _iter_direct_children p →
  (strategy_of p = RowStrategy →
   ∃ rp rc,
     _layouts_should layouter !! cid p = Some rp
     ∧ _layouts_should layouter !! cid ch = Some rc
     ∧ top_in_viewport_outer rc = top_in_viewport_inner rp
     ∧ allocated_outer_height rc = allocated_inner_height rp)
  ∧ (strategy_of p = ColumnStrategy →
     ∃ rp rc,
       _layouts_should layouter !! cid p = Some rp
       ∧ _layouts_should layouter !! cid ch = Some rc
       ∧ left_in_viewport_outer rc = left_in_viewport_inner rp
       ∧ allocated_outer_width rc = allocated_inner_width rp).
Proof.
  intros Huniq (_ & Hrun & _)%create_Ok_inv Hp Hch. split; intros Hs.
  - by apply (computed_pass_on_height root _ _ _ Huniq p ch _ _ _ Hrun Hp
                (or_intror (conj Hs eq_refl))).
  - by apply (computed_pass_on_width root _ _ _ Huniq p ch _ _ _ Hrun Hp
                (or_intror (conj Hs eq_refl))).
Qed.

Lemma linear_container_cross_axis_witness :
  ∃ rp rc,
    _layouts_should (created ex_root ex_info) !! cid ex_row = Some rp
    ∧ _layouts_should (created ex_root ex_info) !! cid ex_text3 = Some rc
    ∧ top_in_viewport_outer rc = top_in_viewport_inner rp
    ∧ allocated_outer_height rc = allocated_inner_height rp.
Proof.
  refine (proj1 (linear_container_cross_axis 6 ex_root ex_info
                   (created ex_root ex_info) ex_row ex_text3 _ _ _ _) _).
  - exact ex_root_ids_unique.
  - exact ex_root_created.
  - simpl. right. right. left.
  - simpl. left.
  - reflexivity.
Defined.

(** ** Linear containers, from the tree to the final records *)

Lemma collect_Ok f d children sizes :
  collect f d children = Ok sizes → Forall2 (has_field f d) children sizes.
Proof.
  revert sizes. induction children as [|ch children IH]; intros sizes H;
    simpl in H.
  - injection H as <-. constructor.
  - apply bind_Ok in H as (r & Hr%getitem_Ok & H).
    apply bind_Ok in H as (ss & Hss & H). injection H as <-.
    constructor; [|by apply IH]. unfold has_field, field. by rewrite Hr.
Qed.

Lemma has_field_is_Some f d ch v : has_field f d ch v → is_Some (d !! cid ch).
Proof. intros (r & Hr & _)%field_Some. eauto. Qed.

Lemma Forall2_has_field_transfer g d d' children sizes :
  (∀ ch, ch ∈ children → field d (cid ch) g = field d' (cid ch) g) →
  Forall2 (has_field g d) children sizes →
  Forall2 (has_field g d') children sizes.
Proof.
  intros Heq HF. induction HF as [|ch sz children sizes Hf HF IH];
    constructor.
  - unfold has_field. rewrite <- Heq; [done|left].
  - apply IH. intros ch' Hch'. apply Heq. by right.
Qed.

Lemma NoDup_concat_elem {A} (l : list A) ls :
  NoDup (concat ls) → l ∈ ls → NoDup l.
Proof.
  induction ls as [|x ls IH]; intros Hnd Hl; [by apply elem_of_nil in Hl|].
  simpl in Hnd. apply NoDup_app in Hnd as (Hx & _ & Hls).
  apply elem_of_cons in Hl as [->|Hl]; auto.
Qed.

Lemma child_ids_NoDup root p :
  ids_unique root → p ∈ nodes root → NoDup (child_ids p).
Proof.
  intros [_ [_ Hnd]%NoDup_cons]%ids_unique_walk Hp.
  eapply NoDup_concat_elem; [exact Hnd|].
  apply list_elem_of_fmap. exists p. split; [done|].
  by rewrite rev_preorder_Permutation.
Qed.

Lemma direct_children_NoDup c :
  NoDup (child_ids c) → NoDup (cid <$> _iter_direct_children c).
Proof. unfold child_ids. destruct c; simpl; [done|]. intros _. constructor. Qed.

Lemma linear_allocation_Ok pos size inner innersz req c d d' :
  pos ≠ inner → size ≠ inner → pos ≠ size →
  NoDup (cid <$> _iter_direct_children c) →
  (layout ← getitem d (cid c);
   child_sizes ← collect req d (_iter_direct_children c);
   starts_and_sizes ←
     _linear_container_get_major_axis_allocated_sizes
       (getf innersz layout) child_sizes
       (spacing (attrs c)) (proportions (attrs c));
   place_children pos size inner c (_iter_direct_children c)
     starts_and_sizes d) = Ok d' →
  ∃ lay sizes,
    d !! cid c = Some lay
    ∧ Forall2 (has_field req d) (_iter_direct_children c) sizes
    ∧ ∀ i ch, _iter_direct_children c !! i = Some ch →
        ∃ start sz, sizes !! i = Some sz
          ∧ placements 0%Q sizes (spacing (attrs c)) !! i = Some (start, sz)
          ∧ field d' (cid ch) pos = Some (getf inner lay + start)%Q
          ∧ field d' (cid ch) size = Some sz.
Proof.
  intros Hpi Hsi Hps Hnd H.
  pose proof (linear_allocation_Ok_proportions _ _ _ _ _ _ _ _ H) as Hprop.
  apply bind_Ok in H as (lay & Hlay%getitem_Ok & H).
  apply bind_Ok in H as (sizes & Hsizes%collect_Ok & H).
  rewrite Hprop, allocated_sizes_None in H. simpl in H.
  exists lay, sizes. split; [done|]. split; [done|].
  destruct (place_children_spec pos size inner c Hpi Hsi Hps
              (_iter_direct_children c)
              (placements 0%Q sizes (spacing (attrs c))) d (getf inner lay))
    as (d'' & Hd'' & Hplaced).
  - done.
  - rewrite placements_length. symmetry. by eapply Forall2_length.
  - unfold field. by rewrite Hlay.
  - intros ch Hch. apply list_elem_of_lookup in Hch as [i Hi].
    destruct (Forall2_lookup_l _ _ _ _ _ Hsizes Hi) as (sz & _ & Hf).
    by eapply has_field_is_Some.
  - assert (d'' = d') as -> by congruence.
    intros i ch Hi.
    destruct (Forall2_lookup_l _ _ _ _ _ Hsizes Hi) as (sz & Hsz & _).
    destruct (placements_size sizes (spacing (attrs c)) 0%Q i sz Hsz)
      as [st Hst].
    exists st, sz. split; [done|]. split; [done|]. by eapply Hplaced.
Qed.

Lemma allocated_width_step_Row ww are c d d' :
  strategy_of c = RowStrategy →
  NoDup (child_ids c) →
  allocated_width_step ww are c d = Ok d' →
  ∃ v sizes,
    field d' (cid c) LeftInViewportInner = Some v
    ∧ Forall2 (has_field RequestedOuterWidth d) (_iter_direct_children c) sizes
    ∧ ∀ i ch, _iter_direct_children c !! i = Some ch →
        ∃ start sz, sizes !! i = Some sz
          ∧ placements 0%Q sizes (spacing (attrs c)) !! i = Some (start, sz)
          ∧ field d' (cid ch) LeftInViewportOuter = Some (v + start)%Q
          ∧ field d' (cid ch) AllocatedOuterWidth = Some sz.
Proof.
  intros Hs Hnd. unfold allocated_width_step.
  intros (lay & _ & H)%bind_Ok.
  destruct (calculate_alignment _ _ _ _ _) as [l w].
  apply bind_Ok in H as (d1 & H1 & H).
  apply bind_Ok in H as (d2 & H2 & H).
  pose proof H as Hw.
  unfold _update_allocated_width in H. rewrite specialized_strategy, Hs in H.
  unfold _update_allocated_width_Row in H.
  apply (linear_allocation_Ok LeftInViewportOuter AllocatedOuterWidth
           LeftInViewportInner AllocatedInnerWidth RequestedOuterWidth)
    in H as (lay2 & sizes & Hlay2 & HF & Hplaced);
    [|done..|by apply direct_children_NoDup].
  exists (getf LeftInViewportInner lay2), sizes. split; [|split; [|done]].
  - rewrite (_update_allocated_width_writes _ _ _ _ _ Hw)
      by (by intros [_ [?|[? _]]]).
    unfold field. by rewrite Hlay2.
  - eapply Forall2_has_field_transfer; [|exact HF]. intros ch _.
    rewrite (setattr_field_ne _ _ _ _ _ _ _ H2) by (by intros [_ ?]).
    by rewrite (setattr_field_ne _ _ _ _ _ _ _ H1) by (by intros [_ ?]).
Qed.

Lemma allocated_height_step_Column wh are c d d' :
  strategy_of c = ColumnStrategy →
  NoDup (child_ids c) →
  allocated_height_step wh are c d = Ok d' →
  ∃ v sizes,
    field d' (cid c) TopInViewportInner = Some v
    ∧ Forall2 (has_field RequestedOuterHeight d) (_iter_direct_children c) sizes
    ∧ ∀ i ch, _iter_direct_children c !! i = Some ch →
        ∃ start sz, sizes !! i = Some sz
          ∧ placements 0%Q sizes (spacing (attrs c)) !! i = Some (start, sz)
          ∧ field d' (cid ch) TopInViewportOuter = Some (v + start)%Q
          ∧ field d' (cid ch) AllocatedOuterHeight = Some sz.
Proof.
  intros Hs Hnd. unfold allocated_height_step.
  intros (lay & _ & H)%bind_Ok.
  destruct (calculate_alignment _ _ _ _ _) as [l w].
  apply bind_Ok in H as (d1 & H1 & H).
  apply bind_Ok in H as (d2 & H2 & H).
  pose proof H as Hw.
  unfold _update_allocated_height in H. rewrite specialized_strategy, Hs in H.
  unfold _update_allocated_height_Column in H.
  apply (linear_allocation_Ok TopInViewportOuter AllocatedOuterHeight
           TopInViewportInner AllocatedInnerHeight RequestedOuterHeight)
    in H as (lay2 & sizes & Hlay2 & HF & Hplaced);
    [|done..|by apply direct_children_NoDup].
  exists (getf TopInViewportInner lay2), sizes. split; [|split; [|done]].
  - rewrite (_update_allocated_height_writes _ _ _ _ _ Hw)
      by (by intros [_ [?|[?|[? _]]]]).
    unfold field. by rewrite Hlay2.
  - eapply Forall2_has_field_transfer; [|exact HF]. intros ch _.
    rewrite (setattr_field_ne _ _ _ _ _ _ _ H2) by (by intros [_ ?]).
    by rewrite (setattr_field_ne _ _ _ _ _ _ _ H1) by (by intros [_ ?]).
Qed.

(** Sequential placement read off the records of one dictionary. *)
Lemma sequential_from_fields (m : gmap Z LayoutRecord) (p : Component)
    children sp posf sizef reqf innerf v sizes :
  field m (cid p) innerf = Some v →
  Forall2 (has_field reqf m) children sizes →
  (∀ i ch, children !! i = Some ch →
     ∃ start sz, sizes !! i = Some sz
       ∧ placements 0%Q sizes sp !! i = Some (start, sz)
       ∧ field m (cid ch) posf = Some (v + start)%Q
       ∧ field m (cid ch) sizef = Some sz) →
  ∃ rp, m !! cid p = Some rp ∧
    ∀ i ch, children !! i = Some ch →
      ∃ rc, m !! cid ch = Some rc
        ∧ getf sizef rc = getf reqf rc
        ∧ (i = 0%nat → (getf posf rc == getf innerf rp)%Q)
        ∧ (∀ ch', children !! S i = Some ch' →
             ∃ rc', m !! cid ch' = Some rc'
               ∧ (getf posf rc' == getf posf rc + getf sizef rc + sp)%Q).
Proof.
  intros Hv HF Hpl. pose proof Hv as (rp & Hrp & Hv')%field_Some.
  exists rp. split; [done|]. intros i ch Hi.
  destruct (Hpl i ch Hi) as (start & sz & Hsz & Hst & Hpos & Hsize).
  pose proof Hpos as (rc & Hrc & Hpos')%field_Some.
  pose proof (field_lookup _ _ _ _ _ Hrc Hsize) as Hsize'.
  pose proof (Forall2_lookup_lr _ _ _ _ _ _ HF Hi Hsz) as Hreq.
  pose proof (field_lookup _ _ _ _ _ Hrc Hreq) as Hreq'.
  exists rc. split; [done|]. split; [congruence|]. split.
  - intros ->. destruct sizes as [|s sizes]; simpl in Hst; [done|].
    injection Hst as <- _. rewrite Hpos', Hv'. ring.
  - intros ch' Hi'.
    destruct (Hpl (S i) ch' Hi') as (start' & sz' & _ & Hst' & Hpos2 & _).
    pose proof Hpos2 as (rc' & Hrc' & Hpos2')%field_Some.
    exists rc'. split; [done|].
    rewrite (placements_next _ _ _ _ _ _ _ _ Hst Hst') in Hpos2'.
    rewrite Hpos2', Hpos', Hsize'. ring.
Qed.

Section final_linear.
Variable root : Component.
Variable ww wh : Q.
Variable are : gmap Z LayoutRecord.
Hypothesis Huniq : ids_unique root.

Lemma computed_row_width p d fin :
  _compute_layouts_should root ww wh are (rev_preorder root) d = Ok fin →
  p ∈ nodes root → strategy_of p = RowStrategy →
  ∃ v sizes,
    field fin (cid p) LeftInViewportInner = Some v
    ∧ Forall2 (has_field RequestedOuterWidth fin) (_iter_direct_children p) sizes
    ∧ ∀ i ch, _iter_direct_children p !! i = Some ch →
        ∃ start sz, sizes !! i = Some sz
          ∧ placements 0%Q sizes (spacing (attrs p)) !! i = Some (start, sz)
          ∧ field fin (cid ch) LeftInViewportOuter = Some (v + start)%Q
          ∧ field fin (cid ch) AllocatedOuterWidth = Some sz.
Proof.
  intros Hrun Hp Hs.
  apply _compute_layouts_should_inv in Hrun
    as (d1 & d2 & d3 & H1 & H2 & H3 & H4).
  pose proof H2 as (d0 & Hseed & Hloop2)%allocated_width_pass_inv.
  destruct (allocated_width_loop_locate root ww are Huniq p _ _ Hp Hloop2)
    as (da & db & Hstep & Hself & _ & Hchild & Hother).
  apply allocated_width_step_Row in Hstep
    as (v & sizes & Hv & HF & Hplaced);
    [|done|by eapply child_ids_NoDup].
  assert (∀ j g, g ∉ [NaturalHeight; RequestedInnerHeight;
                      RequestedOuterHeight; TopInViewportOuter;
                      AllocatedOuterHeight; TopInViewportInner;
                      AllocatedInnerHeight; LeftInViewportOuter] →
               field fin j g = field d2 j g) as Hlate.
  { intros j g Hg.
    rewrite (allocated_height_pass_fields _ _ _ _ _ _ _ _ H4)
      by (intro; apply Hg; set_solver).
    by rewrite (natural_height_pass_fields _ _ _ _ _ _ H3)
      by (intro; apply Hg; set_solver). }
  exists v, sizes. split; [|split].
  - rewrite Hlate by (intro; set_solver). by rewrite Hself by auto.
  - eapply Forall2_has_field_transfer; [|exact HF]. intros ch _.
    rewrite Hlate by (intro; set_solver).
    rewrite (allocated_width_pass_fields _ _ _ _ _ _ _ _ H2)
      by (intro; set_solver).
    rewrite Hother by (intro; set_solver).
    apply Hseed. by intros [_ [?|?]].
  - intros i ch Hi.
    destruct (Hplaced i ch Hi) as (start & sz & Hsz & Hst & Hpos & Hsize).
    assert (ch ∈ iter_direct_tree_children p) as Hch.
    { apply iter_direct_children_subset. by eapply list_elem_of_lookup_2. }
    exists start, sz. split; [done|]. split; [done|]. split.
    + rewrite (height_pass_left_frame root wh are Huniq p ch _ _ Hp Hch
                 ltac:(by rewrite Hs) H4).
      rewrite (natural_height_pass_fields _ _ _ _ _ _ H3)
        by (intro; set_solver).
      by rewrite (Hchild ch) by auto.
    + rewrite Hlate by (intro; set_solver). by rewrite (Hchild ch) by auto.
Qed.

Lemma computed_column_height p d fin :
  _compute_layouts_should root ww wh are (rev_preorder root) d = Ok fin →
  p ∈ nodes root → strategy_of p = ColumnStrategy →
  ∃ v sizes,
    field fin (cid p) TopInViewportInner = Some v
    ∧ Forall2 (has_field RequestedOuterHeight fin)
        (_iter_direct_children p) sizes
    ∧ ∀ i ch, _iter_direct_children p !! i = Some ch →
        ∃ start sz, sizes !! i = Some sz
          ∧ placements 0%Q sizes (spacing (attrs p)) !! i = Some (start, sz)
          ∧ field fin (cid ch) TopInViewportOuter = Some (v + start)%Q
          ∧ field fin (cid ch) AllocatedOuterHeight = Some sz.
Proof.
  intros Hrun Hp Hs.
  apply _compute_layouts_should_inv in Hrun
    as (d1 & d2 & d3 & H1 & H2 & H3 & H4).
  pose proof H4 as (d0 & Hseed & Hloop4)%allocated_height_pass_inv.
  destruct (allocated_height_loop_locate root wh are Huniq p _ _ Hp Hloop4)
    as (da & db & Hstep & Hself & _ & Hchild & Hother).
  apply allocated_height_step_Column in Hstep
    as (v & sizes & Hv & HF & Hplaced);
    [|done|by eapply child_ids_NoDup].
  exists v, sizes. split; [|split].
  - by rewrite Hself by auto.
  - eapply Forall2_has_field_transfer; [|exact HF]. intros ch _.
    rewrite (allocated_height_pass_fields _ _ _ _ _ _ _ _ H4)
      by (intro; set_solver).
    rewrite Hother by (intro; set_solver).
    apply Hseed. by intros [_ [?|?]].
  - intros i ch Hi.
    destruct (Hplaced i ch Hi) as (start & sz & Hsz & Hst & Hpos & Hsize).
    assert (ch ∈ iter_direct_tree_children p) as Hch.
    { apply iter_direct_children_subset. by eapply list_elem_of_lookup_2. }
    exists start, sz. split; [done|]. split; [done|].
    by rewrite !(Hchild ch) by auto.
Qed.
End final_linear.

(** X8. In the layouts that [create] returns, the children of a row are
    laid out one after the other along the width axis, and the children
    of a column along the height axis: every child is allocated exactly
    its requested outer size, the first child starts at the container's
    inner position, and each next child starts where the previous one
    ends plus the spacing. *)
Theorem linear_container_children_in_sequence
    (fuel : nat) (root : Component) (info : UnittestClientLayoutInfo)
    (layouter : Layouter) (p : Component) :
  ids_unique root →
  create fuel root info = Some (Ok layouter) →
  p ∈ nodes root →
  (strategy_of p = RowStrategy →
   ∃ rp, _layouts_should layouter !! cid p = Some rp ∧
     ∀ i ch, _iter_direct_children p !! i = Some ch →
       ∃ rc, _layouts_should layouter !! cid ch = Some rc
         ∧ allocated_outer_width rc = requested_outer_width rc
         ∧ (i = 0%nat →
            (left_in_viewport_outer rc == left_in_viewport_inner rp)%Q)
         ∧ (∀ ch', _iter_direct_children p !! S i = Some ch' →
              ∃ rc', _layouts_should layouter !! cid ch' = Some rc'
                ∧ (left_in_viewport_outer rc'
                   == left_in_viewport_outer rc + allocated_outer_width rc
                      + spacing (attrs p))%Q))
  ∧ (strategy_of p = ColumnStrategy →
     ∃ rp, _layouts_should layouter !! cid p = Some rp ∧
       ∀ i ch, _iter_direct_children p !! i = Some ch →
         ∃ rc, _layouts_should layouter !! cid ch = Some rc
           ∧ allocated_outer_height rc = requested_outer_height rc
           ∧ (i = 0%nat →
              (top_in_viewport_outer rc == top_in_viewport_inner rp)%Q)
           ∧ (∀ ch', _iter_direct_children p !! S i = Some ch' →
                ∃ rc', _layouts_should layouter !! cid ch' = Some rc'
                  ∧ (top_in_viewport_outer rc'
                     == top_in_viewport_outer rc + allocated_outer_height rc
                        + spacing (attrs p))%Q)).
Proof.
  intros Huniq (_ & Hrun & _)%create_Ok_inv Hp. split; intros Hs.
  - destruct (computed_row_width root _ _ _ Huniq p _ _ Hrun Hp Hs)
      as (v & sizes & Hv & HF & Hplaced).
    exact (sequential_from_fields _ p _ _ LeftInViewportOuter
             AllocatedOuterWidth RequestedOuterWidth LeftInViewportInner
             v sizes Hv HF Hplaced).
  - destruct (computed_column_height root _ _ _ Huniq p _ _ Hrun Hp Hs)
      as (v & sizes & Hv & HF & Hplaced).
    exact (sequential_from_fields _ p _ _ TopInViewportOuter
             AllocatedOuterHeight RequestedOuterHeight TopInViewportInner
             v sizes Hv HF Hplaced).
Qed.

Lemma linear_container_children_in_sequence_witness :
  ∃ rp, _layouts_should (created ex_root ex_info) !! cid ex_row = Some rp ∧
    ∀ i ch, _iter_direct_children ex_row !! i = Some ch →
      ∃ rc, _layouts_should (created ex_root ex_info) !! cid ch = Some rc
        ∧ allocated_outer_width rc = requested_outer_width rc
        ∧ (i = 0%nat →
           (left_in_viewport_outer rc == left_in_viewport_inner rp)%Q)
        ∧ (∀ ch', _iter_direct_children ex_row !! S i = Some ch' →
             ∃ rc', _layouts_should (created ex_root ex_info) !! cid ch'
                    = Some rc'
               ∧ (left_in_viewport_outer rc'
                  == left_in_viewport_outer rc + allocated_outer_width rc
                     + spacing (attrs ex_row))%Q).
Proof.
  refine (proj1 (linear_container_children_in_sequence 6 ex_root ex_info
                   (created ex_root ex_info) ex_row _ _ _) _).
  - exact ex_root_ids_unique.
  - exact ex_root_created.
  - simpl. right. right. left.
  - reflexivity.
Defined.

(** ** Natural sizes of containers, from the tree to the final records *)

(** The natural width that the first loop leaves in the record of the
    component is the one its layout method computed on the fresh
    record. *)
Lemma natural_width_step_method are c d d' :
  natural_width_step are c d = Ok d' →
  ∃ d1, _update_natural_width are c (<[cid c := fresh_layout]> d) = Ok d1
    ∧ field d' (cid c) NaturalWidth = field d1 (cid c) NaturalWidth.
Proof.
  unfold natural_width_step.
  intros (d1 & H1 & H)%bind_Ok.
  apply bind_Ok in H as (lay & _ & H).
  apply bind_Ok in H as (d2 & H2 & H).
  apply bind_Ok in H as (lay' & _ & H).
  exists d1. split; [done|].
  rewrite (setattr_field_ne _ _ _ _ _ _ _ H) by (by intros [_ ?]).
  by rewrite (setattr_field_ne _ _ _ _ _ _ _ H2) by (by intros [_ ?]).
Qed.

Lemma natural_height_step_method are c d d' :
  natural_height_step are c d = Ok d' →
  ∃ d1, _update_natural_height are c d = Ok d1
    ∧ field d' (cid c) NaturalHeight = field d1 (cid c) NaturalHeight.
Proof.
  unfold natural_height_step.
  intros (? & _ & H)%bind_Ok.
  apply bind_Ok in H as (d1 & H1 & H).
  apply bind_Ok in H as (lay & _ & H).
  apply bind_Ok in H as (d2 & H2 & H).
  apply bind_Ok in H as (lay' & _ & H).
  exists d1. split; [done|].
  rewrite (setattr_field_ne _ _ _ _ _ _ _ H) by (by intros [_ ?]).
  by rewrite (setattr_field_ne _ _ _ _ _ _ _ H2) by (by intros [_ ?]).
Qed.

Lemma linear_natural_Ok f req c d d' :
  (_ ← getitem d (cid c);
   sizes ← collect req d (_iter_direct_children c);
   setattr (cid c) f
     (_linear_container_get_major_axis_natural_size sizes
        (spacing (attrs c))) d) = Ok d' →
  ∃ sizes,
    Forall2 (has_field req d) (_iter_direct_children c) sizes
    ∧ field d' (cid c) f
      = Some (_linear_container_get_major_axis_natural_size sizes
                (spacing (attrs c))).
Proof.
  intros (? & _ & H)%bind_Ok.
  apply bind_Ok in H as (sizes & Hsizes%collect_Ok & H).
  exists sizes. split; [done|]. by eapply setattr_field_eq.
Qed.

Lemma max_over_children_spec f g c : ∀ children d d' v0,
  cid c ∉ (cid <$> children) →
  field d (cid c) f = Some v0 →
  max_over_children f g c children d = Ok d' →
  ∃ sizes,
    Forall2 (has_field g d) children sizes
    ∧ field d' (cid c) f = Some (fold_left py_max sizes v0).
Proof.
  induction children as [|x rest IH]; intros d d' v0 Hnot Hv Hrun.
  { injection Hrun as <-. exists []. split; [constructor|done]. }
  unfold max_over_children in Hrun. simpl in Hrun.
  apply bind_Ok in Hrun as (d1 & Hbody & Hrest).
  apply bind_Ok in Hbody as (child_layout & Hcl%getitem_Ok & Hbody).
  apply bind_Ok in Hbody as (layout & Hl%getitem_Ok & Hbody).
  rewrite fmap_cons, not_elem_of_cons in Hnot. destruct Hnot as [Hne Hnot].
  assert (getf f layout = v0) as Hv0.
  { apply field_Some in Hv as (r & Hr & <-). congruence. }
  rewrite Hv0 in Hbody.
  destruct (IH d1 d' (py_max v0 (getf g child_layout)) Hnot)
    as (sizes & HF & Hfin); [by eapply setattr_field_eq|done|].
  exists (getf g child_layout :: sizes). split; [|done].
  constructor.
  - unfold has_field, field. by rewrite Hcl.
  - eapply Forall2_has_field_transfer; [|exact HF]. intros ch Hch.
    apply (setattr_field_ne _ _ _ _ _ _ _ Hbody).
    intros [Heq _]. apply Hnot. rewrite <- Heq.
    apply list_elem_of_fmap. eauto.
Qed.

Lemma max_natural_Ok f g c children d d' :
  cid c ∉ (cid <$> children) →
  (should ← setattr (cid c) f 0%Q d;
   max_over_children f g c children should) = Ok d' →
  ∃ sizes,
    Forall2 (has_field g d) children sizes
    ∧ field d' (cid c) f = Some (fold_left py_max sizes 0%Q).
Proof.
  intros Hnot (d1 & H1 & H)%bind_Ok.
  destruct (max_over_children_spec f g c children d1 d' 0%Q Hnot)
    as (sizes & HF & Hfin); [by eapply setattr_field_eq|done|].
  exists sizes. split; [|done].
  eapply Forall2_has_field_transfer; [|exact HF]. intros ch Hch.
  apply (setattr_field_ne _ _ _ _ _ _ _ H1).
  intros [Heq _]. apply Hnot. rewrite <- Heq.
  apply list_elem_of_fmap. eauto.
Qed.

Lemma fold_left_py_max_ge sizes : ∀ v0,
  (v0 <= fold_left py_max sizes v0)%Q
  ∧ ∀ sz, sz ∈ sizes → (sz <= fold_left py_max sizes v0)%Q.
Proof.
  induction sizes as [|s sizes IH]; intros v0; simpl.
  - split; [apply Qle_refl|]. by intros sz ?%elem_of_nil.
  - destruct (IH (py_max v0 s)) as [Hge Hall]. split.
    + eapply Qle_trans; [apply py_max_ge_l|exact Hge].
    + intros sz [->|Hsz]%elem_of_cons; [|by apply Hall].
      eapply Qle_trans; [apply py_max_ge_r|exact Hge].
Qed.

Section final_natural.
Variable root : Component.
Variable ww wh : Q.
Variable are : gmap Z LayoutRecord.
Hypothesis Huniq : ids_unique root.

Lemma child_not_self p ch :
  p ∈ nodes root → ch ∈ iter_direct_tree_children p → cid ch ≠ cid p.
Proof.
  intros Hp Hch Heq. apply (self_not_child root p Huniq Hp).
  rewrite <- Heq. by apply child_ids_elem.
Qed.

(** The run of the natural width method of [p], and what its children's
    records hold at that time. *)
Lemma computed_natural_width p d fin :
  _compute_layouts_should root ww wh are (rev_preorder root) d = Ok fin →
  p ∈ nodes root →
  ∃ da d1,
    _update_natural_width are p da = Ok d1
    ∧ field fin (cid p) NaturalWidth = field d1 (cid p) NaturalWidth
    ∧ ∀ ch, ch ∈ iter_direct_tree_children p →
        field da (cid ch) RequestedOuterWidth
        = field fin (cid ch) RequestedOuterWidth.
Proof.
  intros Hrun Hp.
  apply _compute_layouts_should_inv in Hrun
    as (d1 & d2 & d3 & H1 & H2 & H3 & H4).
  destruct (natural_width_pass_locate root are Huniq p _ _ Hp H1)
    as (da & db & Hstep & Hself & Hchild).
  apply natural_width_step_method in Hstep as (dm & Hm & Hnw).
  assert (∀ j g, g ∈ [NaturalWidth; RequestedOuterWidth] →
               field fin j g = field d1 j g) as Hlate.
  { intros j g Hg.
    rewrite (allocated_height_pass_fields _ _ _ _ _ _ _ _ H4)
      by (intro; set_solver).
    rewrite (natural_height_pass_fields _ _ _ _ _ _ H3) by (intro; set_solver).
    by rewrite (allocated_width_pass_fields _ _ _ _ _ _ _ _ H2)
      by (intro; set_solver). }
  exists (<[cid p := fresh_layout]> da), dm. split; [done|]. split.
  - rewrite Hlate by set_solver. by rewrite Hself.
  - intros ch Hch. rewrite Hlate by set_solver. rewrite <- (Hchild ch) by done.
    unfold field. rewrite lookup_insert_ne; [done|].
    intros Heq. by eapply child_not_self.
Qed.

Lemma computed_natural_height p d fin :
  _compute_layouts_should root ww wh are (rev_preorder root) d = Ok fin →
  p ∈ nodes root →
  ∃ da d1,
    _update_natural_height are p da = Ok d1
    ∧ field fin (cid p) NaturalHeight = field d1 (cid p) NaturalHeight
    ∧ ∀ ch, ch ∈ iter_direct_tree_children p →
        field da (cid ch) RequestedOuterHeight
        = field fin (cid ch) RequestedOuterHeight.
Proof.
  intros Hrun Hp.
  apply _compute_layouts_should_inv in Hrun
    as (d1 & d2 & d3 & H1 & H2 & H3 & H4).
  destruct (natural_height_pass_locate root are Huniq p _ _ Hp H3)
    as (da & db & Hstep & Hself & _ & Hchild & _).
  apply natural_height_step_method in Hstep as (dm & Hm & Hnh).
  assert (∀ j g, g ∈ [NaturalHeight; RequestedOuterHeight] →
               field fin j g = field d3 j g) as Hlate.
  { intros j g Hg.
    by rewrite (allocated_height_pass_fields _ _ _ _ _ _ _ _ H4)
      by (intro; set_solver). }
  exists da, dm. split; [done|]. split.
  - rewrite Hlate by set_solver. by rewrite Hself.
  - intros ch Hch. rewrite Hlate by set_solver. by apply Hchild.
Qed.

Lemma direct_not_self p :
  p ∈ nodes root → cid p ∉ (cid <$> _iter_direct_children p).
Proof.
  intros Hp Hin. apply (self_not_child root p Huniq Hp).
  by apply direct_children_ids.
Qed.

Lemma computed_linear_natural_width p d fin :
  _compute_layouts_should root ww wh are (rev_preorder root) d = Ok fin →
  p ∈ nodes root → strategy_of p = RowStrategy →
  ∃ sizes,
    Forall2 (has_field RequestedOuterWidth fin) (_iter_direct_children p) sizes
    ∧ field fin (cid p) NaturalWidth
      = Some (_linear_container_get_major_axis_natural_size sizes
                (spacing (attrs p))).
Proof.
  intros Hrun Hp Hs.
  destruct (computed_natural_width p d fin Hrun Hp)
    as (da & dm & Hm & Hnw & Hch).
  unfold _update_natural_width in Hm. rewrite specialized_strategy, Hs in Hm.
  apply linear_natural_Ok in Hm as (sizes & HF & Hv).
  exists sizes. split; [|by rewrite Hnw].
  eapply Forall2_has_field_transfer; [|exact HF].
  intros ch Hc. by apply Hch, iter_direct_children_subset.
Qed.

Lemma computed_linear_natural_height p d fin :
  _compute_layouts_should root ww wh are (rev_preorder root) d = Ok fin →
  p ∈ nodes root → strategy_of p = ColumnStrategy →
  ∃ sizes,
    Forall2 (has_field RequestedOuterHeight fin)
      (_iter_direct_children p) sizes
    ∧ field fin (cid p) NaturalHeight
      = Some (_linear_container_get_major_axis_natural_size sizes
                (spacing (attrs p))).
Proof.
  intros Hrun Hp Hs.
  destruct (computed_natural_height p d fin Hrun Hp)
    as (da & dm & Hm & Hnh & Hch).
  unfold _update_natural_height in Hm. rewrite specialized_strategy, Hs in Hm.
  apply linear_natural_Ok in Hm as (sizes & HF & Hv).
  exists sizes. split; [|by rewrite Hnh].
  eapply Forall2_has_field_transfer; [|exact HF].
  intros ch Hc. by apply Hch, iter_direct_children_subset.
Qed.

Lemma computed_max_natural_width p children d fin :
  _compute_layouts_should root ww wh are (rev_preorder root) d = Ok fin →
  p ∈ nodes root →
  (strategy_of p = SingleContainerStrategy
   ∧ children = iter_direct_tree_children p)
  ∨ (strategy_of p = ColumnStrategy ∧ children = _iter_direct_children p) →
  ∃ sizes,
    Forall2 (has_field RequestedOuterWidth fin) children sizes
    ∧ field fin (cid p) NaturalWidth = Some (fold_left py_max sizes 0%Q).
Proof.
  intros Hrun Hp Hs.
  destruct (computed_natural_width p d fin Hrun Hp)
    as (da & dm & Hm & Hnw & Hch).
  unfold _update_natural_width in Hm. rewrite specialized_strategy in Hm.
  assert (∃ sizes, Forall2 (has_field RequestedOuterWidth da) children sizes
            ∧ field dm (cid p) NaturalWidth
              = Some (fold_left py_max sizes 0%Q)
            ∧ ∀ ch, ch ∈ children → ch ∈ iter_direct_tree_children p)
    as (sizes & HF & Hv & Hsub).
  { destruct Hs as [[Hs ->]|[Hs ->]]; rewrite Hs in Hm.
    - apply max_natural_Ok in Hm as (sizes & HF & Hv);
        [eauto|by apply self_not_child with root].
    - apply max_natural_Ok in Hm as (sizes & HF & Hv);
        [|by apply direct_not_self].
      exists sizes. split; [done|]. split; [done|].
      intros ch. apply iter_direct_children_subset. }
  exists sizes. split; [|by rewrite Hnw].
  eapply Forall2_has_field_transfer; [|exact HF].
  intros ch Hc. by apply Hch, Hsub.
Qed.

Lemma computed_max_natural_height p children d fin :
  _compute_layouts_should root ww wh are (rev_preorder root) d = Ok fin →
  p ∈ nodes root →
  (strategy_of p = SingleContainerStrategy
   ∧ children = iter_direct_tree_children p)
  ∨ (strategy_of p = RowStrategy ∧ children = _iter_direct_children p) →
  ∃ sizes,
    Forall2 (has_field RequestedOuterHeight fin) children sizes
    ∧ field fin (cid p) NaturalHeight = Some (fold_left py_max sizes 0%Q).
Proof.
  intros Hrun Hp Hs.
  destruct (computed_natural_height p d fin Hrun Hp)
    as (da & dm & Hm & Hnh & Hch).
  unfold _update_natural_height in Hm. rewrite specialized_strategy in Hm.
  assert (∃ sizes, Forall2 (has_field RequestedOuterHeight da) children sizes
            ∧ field dm (cid p) NaturalHeight
              = Some (fold_left py_max sizes 0%Q)
            ∧ ∀ ch, ch ∈ children → ch ∈ iter_direct_tree_children p)
    as (sizes & HF & Hv & Hsub).
  { destruct Hs as [[Hs ->]|[Hs ->]]; rewrite Hs in Hm.
    - apply max_natural_Ok in Hm as (sizes & HF & Hv);
        [eauto|by apply self_not_child with root].
    - apply max_natural_Ok in Hm as (sizes & HF & Hv);
        [|by apply direct_not_self].
      exists sizes. split; [done|]. split; [done|].
      intros ch. apply iter_direct_children_subset. }
  exists sizes. split; [|by rewrite Hnh].
  eapply Forall2_has_field_transfer; [|exact HF].
  intros ch Hc. by apply Hch, Hsub.
Qed.

Lemma computed_overlay_natural p d fin :
  _compute_layouts_should root ww wh are (rev_preorder root) d = Ok fin →
  p ∈ nodes root → strategy_of p = OverlayStrategy →
  field fin (cid p) NaturalWidth = Some 0%Q
  ∧ field fin (cid p) NaturalHeight = Some 0%Q.
Proof.
  intros Hrun Hp Hs. split.
  - destruct (computed_natural_width p d fin Hrun Hp)
      as (da & dm & Hm & -> & _).
    unfold _update_natural_width in Hm.
    rewrite specialized_strategy, Hs in Hm.
    by eapply setattr_field_eq.
  - destruct (computed_natural_height p d fin Hrun Hp)
      as (da & dm & Hm & -> & _).
    unfold _update_natural_height in Hm.
    rewrite specialized_strategy, Hs in Hm.
    by eapply setattr_field_eq.
Qed.
End final_natural.

(** X9. In the layouts that [create] returns, the natural width of a row
    is the sum of the final requested outer widths of its children plus
    the spacing times the number of children minus one, and so is the
    natural height of a column for heights. A row or column without
    children therefore has the natural size minus the spacing. *)
Theorem linear_container_natural_size_final
    (fuel : nat) (root : Component) (info : UnittestClientLayoutInfo)
    (layouter : Layouter) (p : Component) :
  ids_unique root →
  create fuel root info = Some (Ok layouter) →
  p ∈ nodes root →
  (strategy_of p = RowStrategy →
   ∃ rp widths,
     _layouts_should layouter !! cid p = Some rp
     ∧ Forall2 (has_field RequestedOuterWidth (_layouts_should layouter))
         (_iter_direct_children p) widths
     ∧ (natural_width rp
        == Qsum widths
           + spacing (attrs p)
             * inject_Z (Z.of_nat (length (_iter_direct_children p)) - 1))%Q
     ∧ (_iter_direct_children p = [] →
        (natural_width rp == - spacing (attrs p))%Q))
  ∧ (strategy_of p = ColumnStrategy →
     ∃ rp heights,
       _layouts_should layouter !! cid p = Some rp
       ∧ Forall2 (has_field RequestedOuterHeight (_layouts_should layouter))
           (_iter_direct_children p) heights
       ∧ (natural_height rp
          == Qsum heights
             + spacing (attrs p)
               * inject_Z (Z.of_nat (length (_iter_direct_children p)) - 1))%Q
       ∧ (_iter_direct_children p = [] →
          (natural_height rp == - spacing (attrs p))%Q)).
Proof.
  intros Huniq (_ & Hrun & _)%create_Ok_inv Hp. split; intros Hs.
  - destruct (computed_linear_natural_width root _ _ _ Huniq p _ _ Hrun Hp Hs)
      as (sizes & HF & (rp & Hrp & Hv)%field_Some).
    exists rp, sizes. split; [done|]. split; [done|].
    simpl in Hv. rewrite Hv, natural_size_sum.
    rewrite <- (Forall2_length _ _ _ HF). split; [reflexivity|].
    intros Hnil. rewrite Hnil in HF. apply Forall2_nil_inv_l in HF as ->.
    rewrite Hnil. unfold Qsum. simpl.
    change (inject_Z (Z.of_nat 0 - 1)) with (-1 # 1)%Q. ring.
  - destruct (computed_linear_natural_height root _ _ _ Huniq p _ _ Hrun Hp Hs)
      as (sizes & HF & (rp & Hrp & Hv)%field_Some).
    exists rp, sizes. split; [done|]. split; [done|].
    simpl in Hv. rewrite Hv, natural_size_sum.
    rewrite <- (Forall2_length _ _ _ HF). split; [reflexivity|].
    intros Hnil. rewrite Hnil in HF. apply Forall2_nil_inv_l in HF as ->.
    rewrite Hnil. unfold Qsum. simpl.
    change (inject_Z (Z.of_nat 0 - 1)) with (-1 # 1)%Q. ring.
Qed.

Lemma linear_container_natural_size_final_witness :
  ∃ rp widths,
    _layouts_should (created ex_root ex_info) !! cid ex_row = Some rp
    ∧ Forall2 (has_field RequestedOuterWidth
                 (_layouts_should (created ex_root ex_info)))
        (_iter_direct_children ex_row) widths
    ∧ (natural_width rp
       == Qsum widths
          + spacing (attrs ex_row)
            * inject_Z (Z.of_nat (length (_iter_direct_children ex_row)) - 1))%Q
    ∧ (_iter_direct_children ex_row = [] →
       (natural_width rp == - spacing (attrs ex_row))%Q).
Proof.
  refine (proj1 (linear_container_natural_size_final 6 ex_root ex_info
                   (created ex_root ex_info) ex_row _ _ _) _).
  - exact ex_root_ids_unique.
  - exact ex_root_created.
  - simpl. right. right. left.
  - reflexivity.
Defined.

(** X10. In the layouts that [create] returns, the natural size of a
    container that stacks its children on an axis (one of the
    [FULL_SIZE_SINGLE_CONTAINERS] on both axes, a column on the width
    axis, a row on the height axis) is the running maximum, from 0, of the
    final requested outer sizes of its children: it is never negative and
    never below the requested outer size of a child. *)
Theorem stacking_container_natural_size
    (fuel : nat) (root : Component) (info : UnittestClientLayoutInfo)
    (layouter : Layouter) (p : Component) (children : list Component) :
  ids_unique root →
  create fuel root info = Some (Ok layouter) →
  p ∈ nodes root →
  ((strategy_of p = SingleContainerStrategy
    ∧ children = iter_direct_tree_children p)
   ∨ (strategy_of p = ColumnStrategy ∧ children = _iter_direct_children p) →
   ∃ rp widths,
     _layouts_should layouter !! cid p = Some rp
     ∧ Forall2 (has_field RequestedOuterWidth (_layouts_should layouter))
         children widths
     ∧ natural_width rp = fold_left py_max widths 0%Q
     ∧ (0 <= natural_width rp)%Q
     ∧ ∀ w, w ∈ widths → (w <= natural_width rp)%Q)
  ∧ ((strategy_of p = SingleContainerStrategy
      ∧ children = iter_direct_tree_children p)
     ∨ (strategy_of p = RowStrategy ∧ children = _iter_direct_children p) →
     ∃ rp heights,
       _layouts_should layouter !! cid p = Some rp
       ∧ Forall2 (has_field RequestedOuterHeight (_layouts_should layouter))
           children heights
       ∧ natural_height rp = fold_left py_max heights 0%Q
       ∧ (0 <= natural_height rp)%Q
       ∧ ∀ h, h ∈ heights → (h <= natural_height rp)%Q).
Proof.
  intros Huniq (_ & Hrun & _)%create_Ok_inv Hp. split; intros Hs.
  - destruct (computed_max_natural_width root _ _ _ Huniq p children _ _
                Hrun Hp Hs) as (sizes & HF & (rp & Hrp & Hv)%field_Some).
    exists rp, sizes. split; [done|]. split; [done|].
    simpl in Hv. rewrite Hv. split; [done|].
    apply fold_left_py_max_ge.
  - destruct (computed_max_natural_height root _ _ _ Huniq p children _ _
                Hrun Hp Hs) as (sizes & HF & (rp & Hrp & Hv)%field_Some).
    exists rp, sizes. split; [done|]. split; [done|].
    simpl in Hv. rewrite Hv. split; [done|].
    apply fold_left_py_max_ge.
Qed.

Lemma stacking_container_natural_size_witness :
  ∃ rp heights,
    _layouts_should (created ex_root ex_info) !! cid ex_row = Some rp
    ∧ Forall2 (has_field RequestedOuterHeight
                 (_layouts_should (created ex_root ex_info)))
        (_iter_direct_children ex_row) heights
    ∧ natural_height rp = fold_left py_max heights 0%Q
    ∧ (0 <= natural_height rp)%Q
    ∧ ∀ h, h ∈ heights → (h <= natural_height rp)%Q.
Proof.
  refine (proj2 (stacking_container_natural_size 6 ex_root ex_info
                   (created ex_root ex_info) ex_row
                   (_iter_direct_children ex_row) _ _ _) _).
  - exact ex_root_ids_unique.
  - exact ex_root_created.
  - simpl. right. right. left.
  - right. split; reflexivity.
Defined.

(** X11. In the layouts that [create] returns, the natural width and the
    natural height of an overlay are 0, whatever its content requests. *)
Theorem overlay_natural_size_zero
    (fuel : nat) (root : Component) (info : UnittestClientLayoutInfo)
    (layouter : Layouter) (overlay : Component) :
  ids_unique root →
  create fuel root info = Some (Ok layouter) →
  overlay ∈ nodes root →
  type_of (attrs overlay) = Overlay →
  ∃ r, _layouts_should layouter !! cid overlay = Some r
    ∧ natural_width r = 0%Q ∧ natural_height r = 0%Q.
Proof.
  intros Huniq (_ & Hrun & _)%create_Ok_inv Hp Hs%strategy_of_Overlay.
  destruct (computed_overlay_natural root _ _ _ Huniq overlay _ _ Hrun Hp Hs)
    as [(r & Hr & Hw)%field_Some Hh].
  exists r. split; [done|]. split; [done|].
  by apply (field_lookup _ _ _ _ _ Hr Hh).
Qed.

Lemma overlay_natural_size_zero_witness :
  ∃ r, _layouts_should (created ex_overlay_root ex_overlay_info)
         !! cid ex_overlay = Some r
    ∧ natural_width r = 0%Q ∧ natural_height r = 0%Q.
Proof.
  apply (overlay_natural_size_zero 4 ex_overlay_root ex_overlay_info).
  - apply (bool_decide_unpack _). vm_compute. exact I.
  - vm_compute. reflexivity.
  - simpl. right. left.
  - reflexivity.
Defined.

(** ** The inner box stays inside the outer box *)

Lemma calculate_alignment_inside outer req ms me align :
  valid_alignment align →
  (req + ms + me <= outer)%Q →
  (ms <= fst (calculate_alignment outer req ms me align))%Q
  ∧ (fst (calculate_alignment outer req ms me align)
     + snd (calculate_alignment outer req ms me align) + me <= outer)%Q
  ∧ (req <= snd (calculate_alignment outer req ms me align))%Q.
Proof.
  destruct align as [f|]; simpl.
  - intros [H0 H1] Hfit.
    assert (0 <= (outer - req - ms - me) * f)%Q by nra.
    assert ((outer - req - ms - me) * f <= outer - req - ms - me)%Q by nra.
    split; [lra|]. split; [lra|]. lra.
  - intros _ Hfit. split; [lra|]. split; lra.
Qed.





(** ** The debugging helpers *)

Lemma string_app_assoc (a b c : string) : (a +:+ b) +:+ c = a +:+ (b +:+ c).
Proof.
  induction a as [|x a IH]; [reflexivity|].
  change (String x ((a +:+ b) +:+ c) = String x (a +:+ (b +:+ c))).
  by rewrite IH.
Qed.

Lemma print_worker_unfold c indent :
  print_worker c indent =
  [type_name (type_of (attrs c)); newline]
  ++ print_children print_worker indent
       (Z.of_nat (length (iter_direct_tree_children c))) 0
       (iter_direct_tree_children c).
Proof. by destruct c. Qed.

Lemma print_children_lines indent n : ∀ children ii,
  Forall (λ c, ∀ indent, ∃ lines,
            print_worker c indent
            = [type_name (type_of (attrs c)); newline] ++ concat lines
            ∧ Forall2 (is_branch_line indent)
                (concat (nodes <$> iter_direct_tree_children c)) lines)
    children →
  ∃ lines,
    print_children print_worker indent n ii children = concat lines
    ∧ Forall2 (is_branch_line indent) (concat (nodes <$> children)) lines.
Proof.
  induction children as [|child rest IH]; intros ii HP.
  { exists []. split; [done|constructor]. }
  apply Forall_cons in HP as [Hc Hrest].
  destruct (IH (ii + 1)%Z Hrest) as (lr & Er & Fr).
  assert (∀ m ci, m = " └─ " ∨ m = " ├─ " →
    ∃ lines,
      ([indent +:+ m] ++ print_worker child (indent +:+ ci))
      ++ print_children print_worker indent n (ii + 1)%Z rest = concat lines
      ∧ Forall2 (is_branch_line indent)
          (nodes child ++ concat (nodes <$> rest)) lines) as Hgen.
  { intros m ci Hm. destruct (Hc (indent +:+ ci)) as (lc & Ec & Fc).
    rewrite Ec, Er.
    exists (([indent +:+ m; type_name (type_of (attrs child)); newline] :: lc)
            ++ lr).
    split.
    - rewrite concat_app. by simpl.
    - rewrite nodes_unfold. apply Forall2_app; [|done]. constructor.
      + exists "", m. by split.
      + eapply Forall2_impl; [exact Fc|].
        intros x line (ind & mk & Hmk & ->). exists (ci +:+ ind), mk.
        split; [done|]. by rewrite !string_app_assoc. }
  change (concat (nodes <$> child :: rest))
    with (nodes child ++ concat (nodes <$> rest)).
  change (print_children print_worker indent n ii (child :: rest))
    with ((if bool_decide (ii = n - 1)%Z
           then [indent +:+ " └─ "] ++ print_worker child (indent +:+ "    ")
           else [indent +:+ " ├─ "] ++ print_worker child (indent +:+ " │  "))
          ++ print_children print_worker indent n (ii + 1)%Z rest).
  case_bool_decide; apply Hgen; auto.
Qed.

Lemma print_worker_lines c : ∀ indent, ∃ lines,
  print_worker c indent
  = [type_name (type_of (attrs c)); newline] ++ concat lines
  ∧ Forall2 (is_branch_line indent)
      (concat (nodes <$> iter_direct_tree_children c)) lines.
Proof.
  induction c as [c IH] using Component_tree_ind. intros indent.
  rewrite print_worker_unfold.
  destruct (print_children_lines indent
              (Z.of_nat (length (iter_direct_tree_children c)))
              (iter_direct_tree_children c) 0%Z IH) as (lines & E & F).
  exists lines. by rewrite E.
Qed.

Lemma get_nesting_unfold c level :
  get_nesting c level =
  fold_left (fun result child => Z.max result (get_nesting child (level + 1)))
    (iter_direct_tree_children c) level.
Proof. by destruct c. Qed.

Lemma levelled_unfold c level :
  levelled c level =
  (c, level)
  :: concat ((fun ch => levelled ch (level + 1)) <$> iter_direct_tree_children c).
Proof. destruct c; simpl; [done|]. by rewrite app_nil_r. Qed.

Lemma fold_max_spec {A} (f : A → Z) l : ∀ init,
  (init <= fold_left (fun r x => Z.max r (f x)) l init)%Z
  ∧ (∀ x, x ∈ l → (f x <= fold_left (fun r x => Z.max r (f x)) l init)%Z)
  ∧ (fold_left (fun r x => Z.max r (f x)) l init = init
     ∨ ∃ x, x ∈ l ∧ fold_left (fun r x => Z.max r (f x)) l init = f x).
Proof.
  induction l as [|a l IH]; intros init; simpl.
  { split; [lia|]. split; [by intros ? ?%elem_of_nil|by left]. }
  destruct (IH (Z.max init (f a))) as (H1 & H2 & H3).
  split; [lia|]. split.
  - intros x [->|Hx]%elem_of_cons; [lia|auto].
  - destruct H3 as [H3|(x & Hx & H3)].
    + rewrite H3. destruct (Z.max_spec init (f a)) as [[_ ->]|[_ ->]].
      * right. exists a. split; [left|done].
      * by left.
    + right. exists x. split; [by right|done].
Qed.

Lemma levelled_bounds c : ∀ level,
  (∀ x l, (x, l) ∈ levelled c level → (level <= l <= get_nesting c level)%Z)
  ∧ ∃ x, (x, get_nesting c level) ∈ levelled c level.
Proof.
  induction c as [c IH] using Component_tree_ind. intros level.
  rewrite get_nesting_unfold, levelled_unfold.
  pose proof (fold_max_spec (fun ch => get_nesting ch (level + 1))
                (iter_direct_tree_children c) level) as (H1 & H2 & H3).
  rewrite Forall_forall in IH. split.
  - intros x l [[= -> ->]|Hin]%elem_of_cons; [lia|].
    apply elem_of_concat in Hin as (ls & Hin & Hls).
    apply list_elem_of_fmap in Hls as (ch & -> & Hch).
    destruct (IH ch Hch (level + 1)%Z) as [Hb _].
    specialize (Hb x l Hin). specialize (H2 ch Hch). simpl in H2. lia.
  - destruct H3 as [H3|(ch & Hch & H3)]; rewrite H3.
    + exists c. left.
    + destruct (IH ch Hch (level + 1)%Z) as [_ [x Hx]]. exists x. right.
      by apply (elem_of_concat_fmap (fun ch => levelled ch (level + 1)) _ ch).
Qed.

Lemma levelled_children_nodes l : ∀ level,
  Forall (λ ch, ∀ lv, fst <$> levelled ch lv = nodes ch) l →
  fst <$> concat ((fun ch => levelled ch level) <$> l) = concat (nodes <$> l).
Proof.
  intros level HF. induction HF as [|ch l Hch HF IH]; [done|].
  rewrite !fmap_cons, !concat_cons, fmap_app. by rewrite Hch, IH.
Qed.

Lemma levelled_nodes c : ∀ level, fst <$> levelled c level = nodes c.
Proof.
  induction c as [c IH] using Component_tree_ind. intros level.
  rewrite levelled_unfold, nodes_unfold, fmap_cons. simpl.
  by rewrite levelled_children_nodes.
Qed.

Lemma nesting_fraction_bounds (l n : Z) :
  (1 <= l <= n)%Z →
  (0 < inject_Z l / inject_Z (n + 1))%Q
  ∧ (inject_Z l / inject_Z (n + 1) < 1)%Q.
Proof.
  intros Hl.
  assert (0 < inject_Z (n + 1))%Q as Hpos.
  { change 0%Q with (inject_Z 0). rewrite <- Zlt_Qlt. lia. }
  split.
  - apply Qlt_shift_div_l; [done|]. rewrite Qmult_0_l.
    change 0%Q with (inject_Z 0). rewrite <- Zlt_Qlt. lia.
  - apply Qlt_shift_div_r; [done|]. rewrite Qmult_1_l.
    rewrite <- Zlt_Qlt. lia.
Qed.

Lemma py_round_bounds (a b : Z) (x : Q) :
  (inject_Z a <= x)%Q → (x <= inject_Z b)%Q →
  (a <= py_round x <= b)%Z.
Proof.
  intros Ha Hb. unfold py_round.
  pose proof (Qfloor_le x) as Hf1. pose proof (Qlt_floor x) as Hf2.
  assert (a <= Qfloor x)%Z as Haf.
  { rewrite <- (Qfloor_Z a). by apply Qfloor_resp_le. }
  assert (Qfloor x <= b)%Z as Hfb.
  { rewrite Zle_Qle. lra. }
  assert ((inject_Z (Qfloor x) < x)%Q → (Qfloor x + 1 <= b)%Z) as Hup.
  { intros Hlt. assert (Qfloor x < b)%Z; [|lia]. rewrite Zlt_Qlt. lra. }
  destruct (Qcompare_spec (x - inject_Z (Qfloor x)) (1 # 2)) as [He|Hl|Hg].
  - destruct (Z.even (Qfloor x)); [lia|].
    split; [lia|]. apply Hup. lra.
  - lia.
  - split; [lia|]. apply Hup. lra.
Qed.

Lemma create_root fuel root info ly :
  create fuel root info = Some (Ok ly) → session_root_component ly = root.
Proof.
  unfold create.
  destruct (_get_toposorted fuel root) as [L|]; simpl; [|done].
  repeat case_bool_decide; simpl; try done.
  destruct (_compute_layouts_should _ _ _ _ _ _) as [S|e]; simpl; [|done].
  by intros [= <-].
Qed.

Lemma draw_component_unfold tl layouts ppu n c level draw :
  draw_component tl layouts ppu n c level draw =
  draw_one tl layouts ppu n c level draw
  ≫= draw_children (draw_component tl layouts ppu n) level
       (iter_direct_tree_children c).
Proof. by destruct c. Qed.

Lemma draw_children_for_each tl layouts ppu n level : ∀ children draw,
  Forall (λ c, ∀ level draw,
            draw_component tl layouts ppu n c level draw
            = for_each (fun xl => draw_one tl layouts ppu n (fst xl) (snd xl))
                (levelled c level) draw) children →
  draw_children (draw_component tl layouts ppu n) level children draw
  = for_each (fun xl => draw_one tl layouts ppu n (fst xl) (snd xl))
      (concat ((fun ch => levelled ch (level + 1)) <$> children)) draw.
Proof.
  induction children as [|ch rest IH]; intros draw HP; simpl; [done|].
  apply Forall_cons in HP as [Hc Hrest].
  rewrite for_each_app, Hc.
  destruct (for_each _ (levelled ch _) draw); simpl; [by apply IH|done].
Qed.

Lemma draw_component_for_each tl layouts ppu n c : ∀ level draw,
  draw_component tl layouts ppu n c level draw
  = for_each (fun xl => draw_one tl layouts ppu n (fst xl) (snd xl))
      (levelled c level) draw.
Proof.
  induction c as [c IH] using Component_tree_ind. intros level draw.
  rewrite draw_component_unfold, levelled_unfold. simpl.
  destruct (draw_one _ _ _ _ _ _ _); simpl; [|done].
  by apply draw_children_for_each.
Qed.

Lemma draw_one_Ok tl layouts ppu n x l draw :
  is_Some (layouts !! cid x) → (1 <= l <= n)%Z →
  ∃ calls, draw_one tl layouts ppu n x l draw = Ok (draw ++ calls)
    ∧ draws_component layouts ppu x calls.
Proof.
  intros [layout Hlay] Hl. unfold draw_one.
  rewrite (getitem_Some _ _ _ Hlay). simpl.
  eexists. split; [by rewrite <- app_assoc|].
  exists layout. eexists _, _. split; [done|]. split; [|done].
  destruct (nesting_fraction_bounds l n Hl) as [H0 H1].
  apply py_round_bounds.
  - change (inject_Z 0) with 0%Q. lra.
  - change (inject_Z 255) with 255%Q. lra.
Qed.

Lemma for_each_draw_one tl layouts ppu n : ∀ L draw,
  (∀ x l, (x, l) ∈ L → is_Some (layouts !! cid x) ∧ (1 <= l <= n)%Z) →
  ∃ groups,
    for_each (fun xl => draw_one tl layouts ppu n (fst xl) (snd xl)) L draw
    = Ok (draw ++ concat groups)
    ∧ Forall2 (draws_component layouts ppu) (fst <$> L) groups.
Proof.
  induction L as [|[x l] L IH]; intros draw HL.
  { exists []. simpl. split; [by rewrite app_nil_r|constructor]. }
  destruct (HL x l) as [Hx Hl]; [left|].
  destruct (draw_one_Ok tl layouts ppu n x l draw Hx Hl) as (calls & E & Hc).
  destruct (IH (draw ++ calls)) as (groups & Eg & Fg).
  { intros y k Hy. apply HL. by right. }
  exists (calls :: groups). simpl. rewrite E. simpl. rewrite Eg. split.
  - by rewrite <- app_assoc.
  - by constructor.
Qed.

(** X14. [print_tree] writes one line for every component of the tree, in
    document order: first the type name of the root and a newline; then,
    for every other component, one prefix that ends in a branch marker,
    the type name of the component and a newline. *)
Theorem print_tree_one_line_per_component (self : Layouter) :
  ∃ lines,
    print_tree self
    = [type_name (type_of (attrs (session_root_component self))); newline]
      ++ concat lines
    ∧ Forall2 (is_branch_line "")
        (tail (nodes (session_root_component self))) lines.
Proof.
  destruct (print_worker_lines (session_root_component self) "")
    as (lines & E & F).
  exists lines. split; [done|]. by rewrite nodes_unfold.
Qed.

(** X15. [get_nesting(root, 1)] is the level of the deepest component
    when the root has level 1 and every child one more than its parent:
    every component has a level between 1 and this number, one component
    has exactly this level, and the nesting fraction [level / (n_layers +
    1)] that [debug_draw] colours a component with lies strictly between 0
    and 1. *)
Theorem get_nesting_is_deepest_level (root : Component) :
  fst <$> levelled root 1 = nodes root
  ∧ (∀ x l, (x, l) ∈ levelled root 1 →
       (1 <= l <= get_nesting root 1)%Z
       ∧ (0 < inject_Z l / inject_Z (get_nesting root 1 + 1))%Q
       ∧ (inject_Z l / inject_Z (get_nesting root 1 + 1) < 1)%Q)
  ∧ ∃ x, (x, get_nesting root 1) ∈ levelled root 1.
Proof.
  destruct (levelled_bounds root 1) as [Hb Hmax].
  split; [apply levelled_nodes|]. split; [|done].
  intros x l Hin. specialize (Hb x l Hin). split; [done|].
  by apply nesting_fraction_bounds.
Qed.

(** X16. On a layouter that [create] returned, [debug_draw] raises no
    [KeyError], for the computed as for the reported layouts: it returns
    an image of the rounded window size scaled by [pixels_per_unit] and
    has drawn, for every component in document order, one rectangle over
    the scaled inner box of its record, in a grey whose value is between 0
    and 255, followed by its type name as the label. *)
Theorem debug_draw_of_created_layouter
    (fuel : nat) (root : Component) (info : UnittestClientLayoutInfo)
    (layouter : Layouter) (textlength : string → Q) (which : Which)
    (pixels_per_unit : Q) :
  create fuel root info = Some (Ok layouter) →
  ∃ groups,
    debug_draw textlength layouter which pixels_per_unit
    = Ok ((py_round (window_width layouter * pixels_per_unit),
           py_round (window_height layouter * pixels_per_unit)),
          concat groups)
    ∧ Forall2
        (draws_component
           match which with
           | should => _layouts_should layouter
           | are => _layouts_are layouter
           end pixels_per_unit)
        (nodes root) groups.
Proof.
  intros Hcreate. pose proof (create_root _ _ _ _ Hcreate) as Hroot.
  pose proof Hcreate as (Hdom & Hrun & Hare & _)%create_Ok_inv.
  apply _compute_layouts_should_dom in Hrun.
  rewrite dom_empty_L, walk_ids in Hrun.
  unfold debug_draw. rewrite Hroot, draw_component_for_each.
  destruct (for_each_draw_one textlength
              match which with
              | should => _layouts_should layouter
              | are => _layouts_are layouter
              end pixels_per_unit (get_nesting root 1) (levelled root 1) [])
    as (groups & E & F).
  { intros x l Hin. split; [|exact (proj1 (levelled_bounds root 1) x l Hin)].
    assert (x ∈ nodes root) as Hx.
    { rewrite <- (levelled_nodes root 1). apply list_elem_of_fmap.
      by exists (x, l). }
    assert (cid x ∈ (list_to_set (cid <$> nodes root) : gset Z)) as Hid.
    { apply elem_of_list_to_set, list_elem_of_fmap. eauto. }
    apply elem_of_dom. destruct which.
    - rewrite Hrun. set_solver.
    - by rewrite Hare, Hdom. }
  exists groups. rewrite E. simpl. split; [done|].
  by rewrite levelled_nodes in F.
Qed.

Lemma debug_draw_of_created_layouter_witness :
  ∃ groups,
    debug_draw (fun _ => 6%Q) (created ex_root ex_info) should 10
    = Ok ((py_round (window_width (created ex_root ex_info) * 10),
           py_round (window_height (created ex_root ex_info) * 10)),
          concat groups)
    ∧ Forall2
        (draws_component (_layouts_should (created ex_root ex_info)) 10)
        (nodes ex_root) groups.
Proof.
  apply (debug_draw_of_created_layouter 6 ex_root ex_info
           (created ex_root ex_info) (fun _ => 6%Q) should 10).
  exact ex_root_created.
Defined.
